(** * Relay port (talk/p2p/base/relayport.cc): shallow embedding and properties

    The development follows the source file top-down: the collaborator
    types the relay port is written against, then [RelayPort],
    [RelayConnection], [RelayEntry] and [AllocateRequest], then the event
    loop that drives them.  Methods keep their C++ names, with [::] written
    as [_].

    Conventions.
    - A method that mutates its object takes the object and returns the new
      one.  Calls that leave the relay port (socket writes, signals, posts to
      the thread, calls into the [Port] base class) are returned as a list of
      [Effect]s in program order.
    - Whatever a collaborator hands back (the socket factory, a socket's
      return code, the STUN parser, the request manager) is an argument of
      the method that asks for it.
    - [ASSERT(c)] aborts: a method whose assertion fails returns [None].
    - [int] values are [Z], wrapped to 32 bits where the code computes or
      converts them; [size_t] values are [nat].
    - A method runs to its end before the next event is handled (the port
      lives on one thread), and the listeners of a signal do not call back
      into the port from inside the signal.
    - The message loop delivers a [kMessageConnectTimeout] message only if
      one was posted.  Socket signals, packets and request timeouts may come
      at any time and from any socket, also one of a connection that was
      disposed of; the entry's own guards sort them out. *)

From Stdlib Require Import ZArith Lia.
From Stdlib.Strings Require Import Byte.
From stdpp Require Import base list numbers.

Local Open Scope Z_scope.

(** ** Machine integers *)

(** A value stored into a 32-bit [int]: two's complement wrap-around. *)
Definition int32 (z : Z) : Z := (z + 2 ^ 31) mod 2 ^ 32 - 2 ^ 31.

Definition INT_MAX : Z := 2 ^ 31 - 1.

(** The conversion [size_t -> int] at [return size]. *)
Definition int_of_size (n : nat) : Z := int32 (Z.of_nat n).

(** ** Collaborator types *)

#[global] Instance byte_eq_decision : EqDecision byte := byte_eq_dec.

(** Identity of an [AsyncPacketSocket] object (the pointer value). *)
Definition Socket := nat.

(** Modelled from the spec: [talk_base::SocketAddress] (socketaddress.h is
    not among the sources) is the pair [(ip, port)] of the data model;
    [operator==] compares both parts and the default-constructed address is
    the nil one. *)
Record SocketAddress := mkSocketAddress { ipaddr : Z; port : Z }.

#[global] Instance SocketAddress_eq_decision : EqDecision SocketAddress.
Proof. solve_decision. Defined.

Definition SocketAddress_nil : SocketAddress := mkSocketAddress 0 0.

Definition IsNil (a : SocketAddress) : bool := bool_decide (a = SocketAddress_nil).

Inductive ProtocolType := PROTO_UDP | PROTO_TCP | PROTO_SSLTCP.

#[global] Instance ProtocolType_eq_decision : EqDecision ProtocolType.
Proof. solve_decision. Defined.

Record ProtocolAddress := mkProtocolAddress {
  address : SocketAddress;
  proto : ProtocolType
}.

#[global] Instance ProtocolAddress_eq_decision : EqDecision ProtocolAddress.
Proof. solve_decision. Defined.

(** Modelled from the spec: [talk_base::ProxyType] (proxyinfo.h is not among
    the sources); relayport.cc tells HTTPS and unknown proxies from the
    others. *)
Inductive ProxyType := PROXY_NONE | PROXY_HTTPS | PROXY_SOCKS5 | PROXY_UNKNOWN.

#[global] Instance ProxyType_eq_decision : EqDecision ProxyType.
Proof. solve_decision. Defined.

(** [talk_base::Socket::Option] is an enum; its numeric value stands for it. *)
Definition SocketOption := Z.

(** [typedef std::pair<talk_base::Socket::Option, int> OptionValue]. *)
Definition OptionValue : Type := SocketOption * Z.

(** *** STUN messages *)

(** Modelled from the spec: the STUN message types of stun.h (not among the
    sources) that relayport.cc names; any other type code is [STUN_OTHER]. *)
Inductive StunMessageType :=
  | STUN_ALLOCATE_REQUEST
  | STUN_ALLOCATE_RESPONSE
  | STUN_ALLOCATE_ERROR_RESPONSE
  | STUN_SEND_REQUEST
  | STUN_SEND_RESPONSE
  | STUN_SEND_ERROR_RESPONSE
  | STUN_DATA_INDICATION
  | STUN_OTHER (code : Z).

#[global] Instance StunMessageType_eq_decision : EqDecision StunMessageType.
Proof. solve_decision. Defined.

(** Modelled from the spec: the attribute types of stun.h that relayport.cc
    names. *)
Inductive StunAttributeType :=
  | STUN_ATTR_MAPPED_ADDRESS
  | STUN_ATTR_USERNAME
  | STUN_ATTR_ERROR_CODE
  | STUN_ATTR_MAGIC_COOKIE
  | STUN_ATTR_DESTINATION_ADDRESS
  | STUN_ATTR_SOURCE_ADDRESS2
  | STUN_ATTR_OPTIONS
  | STUN_ATTR_DATA.

#[global] Instance StunAttributeType_eq_decision : EqDecision StunAttributeType.
Proof. solve_decision. Defined.

(** Modelled from the spec: the attribute classes of stun.h that relayport.cc
    creates and reads.  An address attribute carries [family], [ipaddr] and
    [port]; the one relayport.cc builds from a [SocketAddress] has family 1
    (spec, 4.3.3: "DESTINATION-ADDRESS = dest (family 1, IPv4)"). *)
Inductive StunAttribute :=
  | StunByteStringAttribute (t : StunAttributeType) (bytes : list byte)
  | StunAddressAttribute (t : StunAttributeType) (family : Z) (ip : Z) (prt : Z)
  | StunUInt32Attribute (t : StunAttributeType) (value : Z)
  | StunErrorCodeAttribute (code : Z) (reason : list byte).

#[global] Instance StunAttribute_eq_decision : EqDecision StunAttribute.
Proof. solve_decision. Defined.

Definition attr_type (a : StunAttribute) : StunAttributeType :=
  match a with
  | StunByteStringAttribute t _ => t
  | StunAddressAttribute t _ _ _ => t
  | StunUInt32Attribute t _ => t
  | StunErrorCodeAttribute _ _ => STUN_ATTR_ERROR_CODE
  end.

(** Modelled from the spec: [StunMessage] / [RelayMessage] (stun.h) as a
    type and the attributes in the order they were added. *)
Record StunMessage := mkStunMessage {
  type : StunMessageType;
  attrs : list StunAttribute
}.

(** Modelled from the spec: [StunMessage::GetAttribute], the first attribute
    of the given type. *)
Definition GetAttribute (m : StunMessage) (t : StunAttributeType) : option StunAttribute :=
  snd <$> list_find (λ a, attr_type a = t) (attrs m).

Definition GetAddress (m : StunMessage) (t : StunAttributeType) : option (Z * Z * Z) :=
  match GetAttribute m t with
  | Some (StunAddressAttribute _ family ip prt) => Some (family, ip, prt)
  | _ => None
  end.

Definition GetUInt32 (m : StunMessage) (t : StunAttributeType) : option Z :=
  match GetAttribute m t with
  | Some (StunUInt32Attribute _ v) => Some v
  | _ => None
  end.

Definition GetByteString (m : StunMessage) (t : StunAttributeType) : option (list byte) :=
  match GetAttribute m t with
  | Some (StunByteStringAttribute _ b) => Some b
  | _ => None
  end.

(** What is written to a socket: the caller's bytes as they are, or the
    byte image [StunMessage::Write] produces for a message (the encoder is
    not among the sources, so the image is kept as the message it encodes). *)
Inductive Packet :=
  | Raw (data : list byte)
  | Encoded (msg : StunMessage).

(** Modelled from the spec: what [StunRequestManager::CheckResponse] does
    with a parsed message ("returns true iff the message matched an
    outstanding transaction (which then fires its callback)").  The request
    manager is not among the sources, so the outcome comes with the packet:
    no outstanding transaction matched, or one did and its [OnResponse] or
    its [OnErrorResponse] fires; [elapsed] is what [TimeSince(start_time_)]
    returns inside that callback. *)
Inductive CheckResponse :=
  | NoTransaction
  | FiresOnResponse
  | FiresOnErrorResponse (elapsed : Z).

(** *** Candidates *)

(** Modelled from the spec: [Candidate] (candidate.h is not among the
    sources) as the three parts [RelayPort::CreateConnection] reads.  The
    protocol and the type are [std::string]s and are kept as their bytes. *)
Record Candidate := mkCandidate {
  protocol : list byte;
  candidate_type : list byte;
  candidate_address : SocketAddress
}.

(** The string literal ["udp"]. *)
Definition udp : list byte := [x75; x64; x70].

(** Modelled from the spec: [CandidateOrigin] (port.h is not among the
    sources); relayport.cc tells [ORIGIN_THIS_PORT] from the others. *)
Inductive CandidateOrigin := ORIGIN_THIS_PORT | ORIGIN_OTHER (code : Z).

#[global] Instance CandidateOrigin_eq_decision : EqDecision CandidateOrigin.
Proof. solve_decision. Defined.

(** [new ProxyConnection(port, index, candidate)]: the index of the local
    candidate and the remote candidate. *)
Record ProxyConnection := mkProxyConnection {
  local_candidate_index : nat;
  remote_candidate : Candidate
}.

(** ** Calls that leave the relay port *)

Inductive Effect :=
  (* AsyncPacketSocket *)
  | SocketSendTo (s : Socket) (pkt : Packet) (dest : SocketAddress)
  | SocketSetOption (s : Socket) (opt : SocketOption) (value : Z)
  (* StunRequestManager::SendDelayed(new AllocateRequest(entry, conn), delay)
     on the connection that owns socket [s] *)
  | SendAllocateRequest (s : Socket) (delay : Z)
  (* talk_base::Thread *)
  | Dispose (s : Socket)
  | Post (message_id : Z)
  | PostDelayed (ms : Z) (message_id : Z)
  (* signals *)
  | SignalConnectFailure (pa : ProtocolAddress)
  | SignalSoftTimeout (pa : ProtocolAddress)
  | SignalAddressReady
  (* Port base class *)
  | AddAddress (addr : SocketAddress) (pr : ProtocolType)
  | set_related_address (addr : SocketAddress)
  | PortOnReadPacket (data : list byte) (remote : SocketAddress) (pr : ProtocolType).

(** ** Constants of relayport.cc *)

Definition kMessageConnectTimeout : Z := 1.
Definition kKeepAliveDelay : Z := 10 * 60 * 1000.
Definition kRetryTimeout : Z := 50 * 1000.
Definition kSoftConnectTimeoutMs : Z := 3 * 1000.

(** ** Objects *)

Record RelayConnection := mkRelayConnection {
  socket_ : Socket;
  protocol_address_ : ProtocolAddress
}.

Record RelayEntry := mkRelayEntry {
  ext_addr_ : SocketAddress;
  server_index_ : nat;
  connected_ : bool;
  locked_ : bool;
  current_connection_ : option RelayConnection
}.

(** The fields of [RelayPort], and the two of its [Port] base that
    relayport.cc reads ([proxy().type] and [username_fragment()]). *)
Record RelayPort := mkRelayPort {
  proxy_type : ProxyType;
  username_fragment : list byte;
  server_addr_ : list ProtocolAddress;
  external_addr_ : list ProtocolAddress;
  entries_ : list RelayEntry;
  options_ : list OptionValue;
  ready_ : bool;
  error_ : Z
}.

(** [StunRequest] fields [count_] and [timeout_], and [start_time_]. *)
Record AllocateRequest := mkAllocateRequest {
  count_ : Z;
  timeout_ : bool;
  start_time_ : Z
}.

(** *** Field updates *)

Definition set_ext_addr (a : SocketAddress) (e : RelayEntry) : RelayEntry :=
  mkRelayEntry a (server_index_ e) (connected_ e) (locked_ e) (current_connection_ e).
Definition set_server_index (n : nat) (e : RelayEntry) : RelayEntry :=
  mkRelayEntry (ext_addr_ e) n (connected_ e) (locked_ e) (current_connection_ e).
Definition set_connected (b : bool) (e : RelayEntry) : RelayEntry :=
  mkRelayEntry (ext_addr_ e) (server_index_ e) b (locked_ e) (current_connection_ e).
Definition set_locked (b : bool) (e : RelayEntry) : RelayEntry :=
  mkRelayEntry (ext_addr_ e) (server_index_ e) (connected_ e) b (current_connection_ e).
Definition set_current_connection (c : option RelayConnection) (e : RelayEntry) : RelayEntry :=
  mkRelayEntry (ext_addr_ e) (server_index_ e) (connected_ e) (locked_ e) c.

Definition set_server_addr (l : list ProtocolAddress) (p : RelayPort) : RelayPort :=
  mkRelayPort (proxy_type p) (username_fragment p) l (external_addr_ p)
    (entries_ p) (options_ p) (ready_ p) (error_ p).
Definition set_external_addr (l : list ProtocolAddress) (p : RelayPort) : RelayPort :=
  mkRelayPort (proxy_type p) (username_fragment p) (server_addr_ p) l
    (entries_ p) (options_ p) (ready_ p) (error_ p).
Definition set_entries (l : list RelayEntry) (p : RelayPort) : RelayPort :=
  mkRelayPort (proxy_type p) (username_fragment p) (server_addr_ p) (external_addr_ p)
    l (options_ p) (ready_ p) (error_ p).
Definition set_options (l : list OptionValue) (p : RelayPort) : RelayPort :=
  mkRelayPort (proxy_type p) (username_fragment p) (server_addr_ p) (external_addr_ p)
    (entries_ p) l (ready_ p) (error_ p).
Definition set_ready (b : bool) (p : RelayPort) : RelayPort :=
  mkRelayPort (proxy_type p) (username_fragment p) (server_addr_ p) (external_addr_ p)
    (entries_ p) (options_ p) b (error_ p).
Definition set_error (z : Z) (p : RelayPort) : RelayPort :=
  mkRelayPort (proxy_type p) (username_fragment p) (server_addr_ p) (external_addr_ p)
    (entries_ p) (options_ p) (ready_ p) z.

(** ** The message loop: state and events *)

(** The port together with the [kMessageConnectTimeout] messages that were
    posted to the thread and not yet delivered ([Post] and [PostDelayed]
    alike), each named by the index of the entry it is addressed to. *)
Record World := mkWorld {
  w_port : RelayPort;
  w_posted : list nat
}.

(** What can happen to a port: a call from the ICE layer, a message
    delivered by the thread, a signal of a socket, a timed-out request.  An
    entry is named by its index in [entries_]. *)
Inductive Event :=
  | CallAddServerAddress (addr : ProtocolAddress)
  | CallAddExternalAddress (addr : ProtocolAddress)
  | CallPrepareAddress (factory : option Socket)
  | CallSendTo (data : list byte) (addr : SocketAddress) (payload : bool)
      (factory : option Socket) (sent : Z) (GetError : Socket → Z)
  | CallSetOption (opt : SocketOption) (value : Z) (SetOption GetError : Socket → Z)
  | TimerMessage (i : nat) (factory : option Socket)
  | SocketConnect (i : nat) (socket : Socket)
  | SocketClose (i : nat) (socket : Socket) (error : Z) (factory : option Socket)
  | ReadPacket (i : nat) (socket : Socket) (data : list byte)
      (parsed : option StunMessage) (check : CheckResponse)
  | AllocateTimeout (i : nat) (socket : Socket) (factory : option Socket).

(** ** Sample data

    Concrete values the properties are instantiated at further down. *)

(** A four-byte sentinel, and the two platform constants as POSIX has
    them. *)
Definition sample_cookie : list byte := [x72; xc6; x4b; xc6].
Definition sample_EWOULDBLOCK : Z := 11.
Definition sample_SOCKET_ERROR : Z := -1.

(** A framed packet: 24 bytes, then the sentinel. *)
Definition sample_framed : list byte := replicate 24 x00 ++ sample_cookie.

(** An unframed packet of 27 bytes. *)
Definition sample_short : list byte := replicate 27 x2a.

Definition sample_server : ProtocolAddress :=
  mkProtocolAddress (mkSocketAddress 167772161 3478) PROTO_UDP.

Definition sample_peer : SocketAddress := mkSocketAddress 3405803785 5000.
Definition sample_peer2 : SocketAddress := mkSocketAddress 3405803786 5002.
Definition sample_mapped : SocketAddress := mkSocketAddress 3325256711 40000.

Definition sample_connection : RelayConnection := mkRelayConnection 1%nat sample_server.
Definition sample_connection2 : RelayConnection := mkRelayConnection 2%nat sample_server.

(** An entry that is connected and locked to [sample_peer]. *)
Definition sample_locked_entry : RelayEntry :=
  mkRelayEntry sample_peer 0 true true (Some sample_connection).

(** An entry that is connected to the server and not locked. *)
Definition sample_connected_entry : RelayEntry :=
  mkRelayEntry sample_peer 0 true false (Some sample_connection).

(** An entry for [sample_peer2] whose allocation has not been answered. *)
Definition sample_pending_entry : RelayEntry :=
  mkRelayEntry sample_peer2 0 false false (Some sample_connection2).

Definition sample_port (entries : list RelayEntry) : RelayPort :=
  mkRelayPort PROXY_NONE [] [sample_server] [] entries [] false 0.

(** The messages the server sends carry the cookie as their first
    attribute, which is what puts it at offset 24. *)
Definition sample_allocate_response : StunMessage :=
  mkStunMessage STUN_ALLOCATE_RESPONSE
    [StunByteStringAttribute STUN_ATTR_MAGIC_COOKIE sample_cookie;
     StunAddressAttribute STUN_ATTR_MAPPED_ADDRESS 1 3325256711 40000].

Definition sample_allocate_error : StunMessage :=
  mkStunMessage STUN_ALLOCATE_ERROR_RESPONSE
    [StunByteStringAttribute STUN_ATTR_MAGIC_COOKIE sample_cookie;
     StunErrorCodeAttribute 600 []].

(** A SEND response that grants the lock. *)
Definition sample_send_response : StunMessage :=
  mkStunMessage STUN_SEND_RESPONSE
    [StunByteStringAttribute STUN_ATTR_MAGIC_COOKIE sample_cookie;
     StunUInt32Attribute STUN_ATTR_OPTIONS 1].

(** Two sockets that both refuse an option, with different error codes. *)
Definition sample_SetOption : Socket → Z := λ _, -1.
Definition sample_GetError : Socket → Z := λ s, if bool_decide (s = 1%nat) then 5 else 7.

(** The primary entry is allocated on socket 1 and adopts [sample_peer]; a
    second entry is made for [sample_peer2] on socket 2. *)
Definition sample_two_entries : list Event :=
  [CallAddServerAddress sample_server;
   CallPrepareAddress (Some 1%nat);
   CallSendTo [] sample_peer true None 0 (λ _, 0);
   CallSendTo [] sample_peer2 true (Some 2%nat) 0 (λ _, 0)].

(** The server sends a lock grant before it has answered the Allocate
    request of the primary entry. *)
Definition sample_early_lock : list Event :=
  [CallAddServerAddress sample_server;
   CallPrepareAddress (Some 1%nat);
   ReadPacket 0 1%nat sample_framed (Some sample_send_response) NoTransaction].

(** Allocation, a first send that asks for the lock, the grant, and a
    second send. *)
Definition sample_lock_acquisition : list Event :=
  [CallAddServerAddress sample_server;
   CallPrepareAddress (Some 1%nat);
   ReadPacket 0 1%nat sample_framed (Some sample_allocate_response) FiresOnResponse;
   CallSendTo [x01] sample_peer true None 40 (λ _, 0);
   ReadPacket 0 1%nat sample_framed (Some sample_send_response) NoTransaction;
   CallSendTo [x01] sample_peer true None 1 (λ _, 0)].

(** As [sample_lock_acquisition] up to the allocation, then a second
    [PrepareAddress] and the answer to a keep-alive. *)
Definition sample_prepared_twice : list Event :=
  [CallAddServerAddress sample_server;
   CallPrepareAddress (Some 1%nat);
   ReadPacket 0 1%nat sample_framed (Some sample_allocate_response) FiresOnResponse;
   CallPrepareAddress None;
   ReadPacket 0 1%nat sample_framed (Some sample_allocate_response) FiresOnResponse].

(** A TCP server, and a port that knows it and [sample_server], in this
    order, with one socket option set. *)
Definition sample_tcp_server : ProtocolAddress :=
  mkProtocolAddress (mkSocketAddress 167772162 443) PROTO_TCP.

Definition sample_two_servers (entries : list RelayEntry) : RelayPort :=
  mkRelayPort PROXY_NONE [] [sample_tcp_server; sample_server] [] entries [(1, 0)] false 0.

(** An entry that waits for its TCP socket to connect. *)
Definition sample_tcp_entry : RelayEntry :=
  mkRelayEntry SocketAddress_nil 0 false false
    (Some (mkRelayConnection 1%nat sample_tcp_server)).

(** A DATA indication that carries two bytes from [sample_peer]. *)
Definition sample_data_indication : StunMessage :=
  mkStunMessage STUN_DATA_INDICATION
    [StunByteStringAttribute STUN_ATTR_MAGIC_COOKIE sample_cookie;
     StunAddressAttribute STUN_ATTR_SOURCE_ADDRESS2 1 3405803785 5000;
     StunByteStringAttribute STUN_ATTR_DATA [x01; x02]].

(** The allocation of [sample_lock_acquisition], then a failed send to a
    second destination, which makes a second entry on socket 2. *)
Definition sample_second_destination : list Event :=
  [CallAddServerAddress sample_server;
   CallPrepareAddress (Some 1%nat);
   ReadPacket 0 1%nat sample_framed (Some sample_allocate_response) FiresOnResponse;
   CallSendTo [x01] sample_peer true None 40 (λ _, 0);
   CallSendTo [x01] sample_peer2 true (Some 2%nat) (-1) (λ _, 5)].

(** What happens to a connected port afterwards: the socket closes, a
    request times out and the timer fires. *)
Definition sample_failures : list Event :=
  [SocketClose 0 1%nat 104 (Some 3%nat);
   AllocateTimeout 0 1%nat (Some 4%nat);
   CallAddExternalAddress (mkProtocolAddress sample_mapped PROTO_UDP)].

(** ** The methods *)

Section RelayPort.

(** Modelled from the spec: [TURN_MAGIC_COOKIE_VALUE] is declared in stun.h,
    which is not among the sources; the spec calls it "the fixed 4-byte
    sentinel".  [sizeof(TURN_MAGIC_COOKIE_VALUE)] is its [length]. *)
Variable TURN_MAGIC_COOKIE_VALUE : list byte.

(** The platform's [EWOULDBLOCK] and [SOCKET_ERROR] (talk/base/socket.h). *)
Variable EWOULDBLOCK : Z.
Variable SOCKET_ERROR : Z.

(** *** RelayPort *)

Definition RelayEntry_new (ext_addr : SocketAddress) : RelayEntry :=
  mkRelayEntry ext_addr 0 false false None.

Definition RelayPort_new (proxy : ProxyType) (username : list byte) : RelayPort :=
  mkRelayPort proxy username [] [] [RelayEntry_new SocketAddress_nil] [] false 0.

Definition RelayPort_AddServerAddress (p : RelayPort) (addr : ProtocolAddress) : RelayPort :=
  if bool_decide (proto addr = PROTO_SSLTCP) &&
     (bool_decide (proxy_type p = PROXY_HTTPS) || bool_decide (proxy_type p = PROXY_UNKNOWN))
  then set_server_addr (addr :: server_addr_ p) p
  else set_server_addr (server_addr_ p ++ [addr]) p.

Definition RelayPort_AddExternalAddress (p : RelayPort) (addr : ProtocolAddress) : RelayPort :=
  if existsb (λ it, bool_decide (address it = address addr) && bool_decide (proto it = proto addr))
       (external_addr_ p)
  then p
  else set_external_addr (external_addr_ p ++ [addr]) p.

Definition RelayPort_SetReady (p : RelayPort) : RelayPort * list Effect :=
  if negb (ready_ p) then
    (set_ready true p,
     ((λ iter, AddAddress (address iter) (proto iter)) <$> external_addr_ p)
       ++ [SignalAddressReady])
  else (p, []).

Definition RelayPort_ServerAddress (p : RelayPort) (index : nat) : option ProtocolAddress :=
  server_addr_ p !! index.

Definition HasMagicCookie (data : list byte) : bool :=
  if (length data <? 24 + length TURN_MAGIC_COOKIE_VALUE)%nat then false
  else bool_decide (take (length TURN_MAGIC_COOKIE_VALUE) (drop 24 data)
                      = TURN_MAGIC_COOKIE_VALUE).

(** *** RelayConnection *)

(** [sent] is what the socket's [SendTo] returns. *)
Definition RelayConnection_Send (c : RelayConnection) (pkt : Packet) (sent : Z)
  : Z * list Effect :=
  (sent, [SocketSendTo (socket_ c) pkt (address (protocol_address_ c))]).

(** [SetOption] is what each socket's [SetOption] returns for this call.  A
    connection is only ever built around a socket that exists, so the
    [if (socket_)] test succeeds. *)
Definition RelayConnection_SetSocketOption (c : RelayConnection) (opt : SocketOption)
    (value : Z) (SetOption : Socket → Z) : Z * list Effect :=
  (SetOption (socket_ c), [SocketSetOption (socket_ c) opt value]).

Definition RelayConnection_SendAllocateRequest (c : RelayConnection) (delay : Z)
  : list Effect :=
  [SendAllocateRequest (socket_ c) delay].

(** *** RelayEntry *)

(** [factory] is what the socket factory returns when it is asked for a
    socket ([None] for NULL).  [ProtocolType] has the three values listed,
    so the "Unknown protocol" branch has no case of its own. *)
Definition RelayEntry_Connect (p : RelayPort) (e : RelayEntry) (factory : option Socket)
  : RelayEntry * list Effect :=
  if connected_ e then (e, [])
  else
    match RelayPort_ServerAddress p (server_index_ e) with
    | None => (e, [])
    | Some ra =>
      let '(e1, eff1) :=
        match current_connection_ e with
        | Some c => (set_current_connection None e, [Dispose (socket_ c)])
        | None => (e, [])
        end in
      match factory with
      | None => (e1, eff1 ++ [Post kMessageConnectTimeout])
      | Some socket =>
        let c := mkRelayConnection socket ra in
        let e2 := set_current_connection (Some c) e1 in
        let eff2 := (λ o : OptionValue, SocketSetOption socket o.1 o.2) <$> options_ p in
        let eff3 :=
          if bool_decide (proto ra = PROTO_TCP) || bool_decide (proto ra = PROTO_SSLTCP)
          then [PostDelayed kSoftConnectTimeoutMs kMessageConnectTimeout]
          else RelayConnection_SendAllocateRequest c 0 in
        (e2, eff1 ++ eff2 ++ eff3)
      end
    end.

(** [GetError] is what each socket's [GetError] returns when asked. *)
Definition RelayEntry_GetError (e : RelayEntry) (GetError : Socket → Z) : Z :=
  match current_connection_ e with
  | Some c => GetError (socket_ c)
  | None => 0
  end.

Definition RelayEntry_OnConnect (p : RelayPort) (e : RelayEntry) (mapped_addr : SocketAddress)
  : RelayPort * RelayEntry * list Effect :=
  let pr := PROTO_UDP in
  let e1 := set_connected true e in
  let p1 := RelayPort_AddExternalAddress p (mkProtocolAddress mapped_addr pr) in
  let '(p2, eff) := RelayPort_SetReady p1 in
  (p2, e1, set_related_address mapped_addr :: eff).

Definition RelayEntry_SendPacket (e : RelayEntry) (pkt : Packet) (sent : Z)
  : Z * list Effect :=
  match current_connection_ e with
  | Some c => RelayConnection_Send c pkt sent
  | None => (0, [])
  end.

(** The STUN SEND request [RelayEntry::SendTo] builds around the data. *)
Definition SendTo_request (p : RelayPort) (e : RelayEntry) (data : list byte)
    (addr : SocketAddress) : StunMessage :=
  mkStunMessage STUN_SEND_REQUEST
    ([StunByteStringAttribute STUN_ATTR_MAGIC_COOKIE TURN_MAGIC_COOKIE_VALUE;
      StunByteStringAttribute STUN_ATTR_USERNAME (username_fragment p);
      StunAddressAttribute STUN_ATTR_DESTINATION_ADDRESS 1 (ipaddr addr) (port addr)]
     ++ (if bool_decide (ext_addr_ e = addr)
         then [StunUInt32Attribute STUN_ATTR_OPTIONS 1] else [])
     ++ [StunByteStringAttribute STUN_ATTR_DATA data]).

Definition RelayEntry_SendTo (p : RelayPort) (e : RelayEntry) (data : list byte)
    (addr : SocketAddress) (sent : Z) : Z * list Effect :=
  if locked_ e && bool_decide (ext_addr_ e = addr) then
    RelayEntry_SendPacket e (Raw data) sent
  else
    RelayEntry_SendPacket e (Encoded (SendTo_request p e data addr)) sent.

Definition RelayEntry_ScheduleKeepAlive (e : RelayEntry) : list Effect :=
  match current_connection_ e with
  | Some c => RelayConnection_SendAllocateRequest c kKeepAliveDelay
  | None => []
  end.

Definition RelayEntry_SetSocketOption (e : RelayEntry) (opt : SocketOption) (value : Z)
    (SetOption : Socket → Z) : Z * list Effect :=
  match current_connection_ e with
  | Some c => RelayConnection_SetSocketOption c opt value SetOption
  | None => (0, [])
  end.

(** [socket] is [None] for a NULL argument.  [server_index_] is a [size_t];
    it counts failed attempts and is kept as a [nat]. *)
Definition RelayEntry_HandleConnectFailure (p : RelayPort) (e : RelayEntry)
    (socket : option Socket) (factory : option Socket) : RelayEntry * list Effect :=
  if match socket, current_connection_ e with
     | None, _ => true
     | Some s, Some c => bool_decide (s = socket_ c)
     | Some _, None => false
     end
  then
    let eff1 :=
      match current_connection_ e with
      | Some c => [SignalConnectFailure (protocol_address_ c)]
      | None => []
      end in
    let '(e2, eff2) :=
      RelayEntry_Connect p (set_server_index (server_index_ e + 1)%nat e) factory in
    (e2, eff1 ++ eff2)
  else (e, []).

Definition RelayEntry_OnMessage (p : RelayPort) (e : RelayEntry) (factory : option Socket)
  : RelayEntry * list Effect :=
  match current_connection_ e with
  | Some c =>
    let ra := protocol_address_ c in
    let '(e1, eff) := RelayEntry_HandleConnectFailure p e (Some (socket_ c)) factory in
    (e1, SignalSoftTimeout ra :: eff)
  | None => RelayEntry_HandleConnectFailure p e None factory
  end.

Definition RelayEntry_OnSocketConnect (e : RelayEntry) (socket : Socket) : list Effect :=
  match current_connection_ e with
  | Some c => RelayConnection_SendAllocateRequest c 0
  | None => []
  end.

Definition RelayEntry_OnSocketClose (p : RelayPort) (e : RelayEntry) (socket : Socket)
    (error : Z) (factory : option Socket) : RelayEntry * list Effect :=
  RelayEntry_HandleConnectFailure p e (Some socket) factory.

(** *** AllocateRequest *)

(** Modelled from the spec: the [StunRequest] base constructor (stunrequest.cc
    is not among the sources) starts the retry count at 0 with the timeout
    flag clear; [now] is [talk_base::Time()]. *)
Definition AllocateRequest_new (now : Z) : AllocateRequest :=
  mkAllocateRequest 0 false now.

(** [1 << count_] and the product are [int] computations.  (C++ leaves a
    shift by 31 or more undefined; the request is timed out long before.) *)
Definition AllocateRequest_GetNextDelay (r : AllocateRequest) : Z * AllocateRequest :=
  let delay := int32 (100 * Z.max (int32 (Z.shiftl 1 (count_ r))) 2) in
  let count := int32 (count_ r + 1) in
  let timeout := if bool_decide (count = 5) then true else timeout_ r in
  (delay, mkAllocateRequest count timeout (start_time_ r)).

(** [n] successive calls: the delays returned, and the request afterwards. *)
Fixpoint GetNextDelay_times (n : nat) (r : AllocateRequest) : list Z * AllocateRequest :=
  match n with
  | O => ([], r)
  | S k =>
    let '(delay, r1) := AllocateRequest_GetNextDelay r in
    let '(delays, r2) := GetNextDelay_times k r1 in
    (delay :: delays, r2)
  end.

Definition AllocateRequest_OnResponse (p : RelayPort) (e : RelayEntry) (response : StunMessage)
  : RelayPort * RelayEntry * list Effect :=
  let '(p1, e1, eff) :=
    match GetAddress response STUN_ATTR_MAPPED_ADDRESS with
    | None => (p, e, [])
    | Some (family, ip, prt) =>
      if negb (bool_decide (family = 1)) then (p, e, [])
      else RelayEntry_OnConnect p e (mkSocketAddress ip prt)
    end in
  (p1, e1, eff ++ RelayEntry_ScheduleKeepAlive e1).

(** [elapsed] is what [talk_base::TimeSince(start_time_)] returns. *)
Definition AllocateRequest_OnErrorResponse (e : RelayEntry) (response : StunMessage)
    (elapsed : Z) : list Effect :=
  if elapsed <=? kRetryTimeout then RelayEntry_ScheduleKeepAlive e else [].

(** [socket] is [connection_->socket()]. *)
Definition AllocateRequest_OnTimeout (p : RelayPort) (e : RelayEntry) (socket : Socket)
    (factory : option Socket) : RelayEntry * list Effect :=
  RelayEntry_HandleConnectFailure p e (Some socket) factory.

(** *** RelayEntry::OnReadPacket *)

(** [parsed] is what [RelayMessage::Read] makes of the bytes ([None] when it
    fails); [check] is what the request manager does with the message. *)
Definition RelayEntry_OnReadPacket (p : RelayPort) (e : RelayEntry) (socket : Socket)
    (data : list byte) (parsed : option StunMessage) (check : CheckResponse)
  : RelayPort * RelayEntry * list Effect :=
  match current_connection_ e with
  | None => (p, e, [])
  | Some c =>
    if negb (bool_decide (socket = socket_ c)) then (p, e, [])
    else if negb (HasMagicCookie data) then
      if locked_ e then (p, e, [PortOnReadPacket data (ext_addr_ e) PROTO_UDP])
      else (p, e, [])
    else
      match parsed with
      | None => (p, e, [])
      | Some msg =>
        match check with
        | FiresOnResponse => AllocateRequest_OnResponse p e msg
        | FiresOnErrorResponse elapsed => (p, e, AllocateRequest_OnErrorResponse e msg elapsed)
        | NoTransaction =>
          if bool_decide (type msg = STUN_SEND_RESPONSE) then
            match GetUInt32 msg STUN_ATTR_OPTIONS with
            | Some value =>
              if negb (Z.land value 1 =? 0) then (p, set_locked true e, [])
              else (p, e, [])
            | None => (p, e, [])
            end
          else if negb (bool_decide (type msg = STUN_DATA_INDICATION)) then (p, e, [])
          else
            match GetAddress msg STUN_ATTR_SOURCE_ADDRESS2 with
            | None => (p, e, [])
            | Some (family, ip, prt) =>
              if negb (bool_decide (family = 1)) then (p, e, [])
              else
                let remote_addr2 := mkSocketAddress ip prt in
                match GetByteString msg STUN_ATTR_DATA with
                | None => (p, e, [])
                | Some bytes => (p, e, [PortOnReadPacket bytes remote_addr2 PROTO_UDP])
                end
            end
        end
      end
  end.

(** *** RelayPort, continued: the methods that use the entries *)

Definition RelayPort_PrepareAddress (p : RelayPort) (factory : option Socket)
  : option (RelayPort * list Effect) :=
  match entries_ p with
  | [e] =>                                    (* ASSERT(entries_.size() == 1) *)
    let '(e1, eff) := RelayEntry_Connect p e factory in
    Some (set_ready false (set_entries [e1] p), eff)
  | _ => None
  end.

(** The search loop of [RelayPort::SendTo]: the index of the entry chosen,
    and the entries after the [set_address] it may have done. *)
Fixpoint SendTo_find (entries : list RelayEntry) (addr : SocketAddress) (payload : bool)
  : option nat * list RelayEntry :=
  match entries with
  | [] => (None, [])
  | e :: rest =>
    if IsNil (ext_addr_ e) && payload then (Some 0%nat, set_ext_addr addr e :: rest)
    else if bool_decide (ext_addr_ e = addr) then (Some 0%nat, e :: rest)
    else
      let '(found, rest1) := SendTo_find rest addr payload in
      (S <$> found, e :: rest1)
  end.

(** [if (!entry && payload)]: the new entry, connected and appended. *)
Definition SendTo_create (p : RelayPort) (found : option nat) (addr : SocketAddress)
    (payload : bool) (factory : option Socket) : option nat * RelayPort * list Effect :=
  match found with
  | Some i => (Some i, p, [])
  | None =>
    if payload then
      let e0 := RelayEntry_new addr in
      let e1 :=
        match entries_ p with
        | first :: _ => set_server_index (server_index_ first) e0
        | [] => e0
        end in
      let '(e2, eff) := RelayEntry_Connect p e1 factory in
      (Some (length (entries_ p)), set_entries (entries_ p ++ [e2]) p, eff)
    else (None, p, [])
  end.

(** [if (!entry || !entry->connected())]: the entry the data goes out on,
    [inr] of it, or [inl] when the port has none ([None] when the assertion
    fails). *)
Definition SendTo_select (p : RelayPort) (entry : option nat)
  : option (unit + RelayEntry) :=
  match (entry ≫= λ i, entries_ p !! i) with
  | Some e =>
    if connected_ e then Some (inr e)
    else
      match entries_ p !! 0%nat with         (* ASSERT(!entries_.empty()) *)
      | None => None
      | Some first => if negb (connected_ first) then Some (inl ()) else Some (inr first)
      end
  | None =>
    match entries_ p !! 0%nat with
    | None => None
    | Some first => if negb (connected_ first) then Some (inl ()) else Some (inr first)
    end
  end.

Definition RelayPort_SendTo (p : RelayPort) (data : list byte) (addr : SocketAddress)
    (payload : bool) (factory : option Socket) (sent : Z) (GetError : Socket → Z)
  : option (Z * RelayPort * list Effect) :=
  let '(found, entries1) := SendTo_find (entries_ p) addr payload in
  let '(entry, p2, eff2) := SendTo_create (set_entries entries1 p) found addr payload factory in
  match SendTo_select p2 entry with
  | None => None
  | Some (inl _) => Some (SOCKET_ERROR, set_error EWOULDBLOCK p2, eff2)
  | Some (inr e) =>
    let '(sent1, eff3) := RelayEntry_SendTo p2 e data addr sent in
    if sent1 <=? 0 then
      if sent1 <? 0                            (* ASSERT(sent < 0) *)
      then Some (SOCKET_ERROR, set_error (RelayEntry_GetError e GetError) p2, eff2 ++ eff3)
      else None
    else Some (int_of_size (length data), p2, eff2 ++ eff3)
  end.

(** The loop of [RelayPort::SetOption], with [result] and [error_] threaded
    through it. *)
Fixpoint SetOption_loop (entries : list RelayEntry) (opt : SocketOption) (value : Z)
    (SetOption GetError : Socket → Z) (result error : Z) : Z * Z * list Effect :=
  match entries with
  | [] => (result, error, [])
  | e :: rest =>
    let '(r, eff) := RelayEntry_SetSocketOption e opt value SetOption in
    let '(result1, error1) :=
      if r <? 0 then (-1, RelayEntry_GetError e GetError) else (result, error) in
    let '(result2, error2, effs) :=
      SetOption_loop rest opt value SetOption GetError result1 error1 in
    (result2, error2, eff ++ effs)
  end.

Definition RelayPort_SetOption (p : RelayPort) (opt : SocketOption) (value : Z)
    (SetOption GetError : Socket → Z) : Z * RelayPort * list Effect :=
  let '(result, error, eff) :=
    SetOption_loop (entries_ p) opt value SetOption GetError 0 (error_ p) in
  (result, set_options (options_ p ++ [(opt, value)]) (set_error error p), eff).

(** *** RelayPort::GetError *)

Definition RelayPort_GetError (p : RelayPort) : Z := error_ p.

(** *** RelayPort::CreateConnection *)

(** The value of [RELAY_PORT_TYPE] (port.cc), which [Type()] returns for a
    relay port. *)
Variable RELAY_PORT_TYPE : list byte.

(** The loop over [Candidates()]: [index] keeps its initial 0 unless a
    local candidate has the protocol of [address]; [i] is the loop
    counter. *)
Fixpoint CreateConnection_index (Candidates : list Candidate) (address : Candidate) (i : nat)
  : nat :=
  match Candidates with
  | [] => 0%nat
  | local :: rest =>
    if bool_decide (protocol local = protocol address) then i
    else CreateConnection_index rest address (S i)
  end.

(** [Candidates] is what the [Port] base holds as local candidates and
    [IsCompatibleAddress] is its address test; [None] is the NULL result. *)
Definition RelayPort_CreateConnection (Candidates : list Candidate)
    (IsCompatibleAddress : SocketAddress → bool) (address : Candidate)
    (origin : CandidateOrigin) : option ProxyConnection :=
  if negb (bool_decide (protocol address = udp)) &&
     negb (bool_decide (origin = ORIGIN_THIS_PORT)) then None
  else if bool_decide (candidate_type address = RELAY_PORT_TYPE) then None
  else if negb (IsCompatibleAddress (candidate_address address)) then None
  else Some (mkProxyConnection (CreateConnection_index Candidates address 0) address).

(** ** The message loop *)

Definition is_post (eff : Effect) : bool :=
  match eff with
  | Post _ | PostDelayed _ _ => true
  | _ => false
  end.

(** The messages a method posted, all addressed to entry [i]. *)
Definition posted_by (i : nat) (effs : list Effect) : list nat :=
  replicate (length (List.filter is_post effs)) i.

(** Takes one message for entry [i] off the queue, if there is one. *)
Fixpoint take_message (i : nat) (posted : list nat) : option (list nat) :=
  match posted with
  | [] => None
  | j :: rest =>
    if bool_decide (j = i) then Some rest
    else cons j <$> take_message i rest
  end.

(** Runs a method of entry [i] and stores the entry back. *)
Definition on_entry (w : World) (i : nat)
    (method : RelayPort → RelayEntry → RelayPort * RelayEntry * list Effect)
  : option (World * list Effect) :=
  e ← entries_ (w_port w) !! i;
  let '(p1, e1, eff) := method (w_port w) e in
  Some (mkWorld (set_entries (<[i := e1]> (entries_ p1)) p1)
          (w_posted w ++ posted_by i eff), eff).

Definition step (w : World) (ev : Event) : option (World * list Effect) :=
  let p := w_port w in
  match ev with
  | CallAddServerAddress addr =>
    Some (mkWorld (RelayPort_AddServerAddress p addr) (w_posted w), [])
  | CallAddExternalAddress addr =>
    Some (mkWorld (RelayPort_AddExternalAddress p addr) (w_posted w), [])
  | CallPrepareAddress factory =>
    '(p1, eff) ← RelayPort_PrepareAddress p factory;
    Some (mkWorld p1 (w_posted w ++ posted_by 0 eff), eff)
  | CallSendTo data addr payload factory sent GetError =>
    '(_, p1, eff) ← RelayPort_SendTo p data addr payload factory sent GetError;
    Some (mkWorld p1 (w_posted w ++ posted_by (length (entries_ p)) eff), eff)
  | CallSetOption opt value SetOption GetError =>
    let '(_, p1, eff) := RelayPort_SetOption p opt value SetOption GetError in
    Some (mkWorld p1 (w_posted w), eff)
  | TimerMessage i factory =>
    posted ← take_message i (w_posted w);
    on_entry (mkWorld p posted) i
      (λ p e, let '(e1, eff) := RelayEntry_OnMessage p e factory in (p, e1, eff))
  | SocketConnect i socket =>
    on_entry w i (λ p e, (p, e, RelayEntry_OnSocketConnect e socket))
  | SocketClose i socket error factory =>
    on_entry w i
      (λ p e, let '(e1, eff) := RelayEntry_OnSocketClose p e socket error factory in
              (p, e1, eff))
  | ReadPacket i socket data parsed check =>
    on_entry w i (λ p e, RelayEntry_OnReadPacket p e socket data parsed check)
  | AllocateTimeout i socket factory =>
    on_entry w i
      (λ p e, let '(e1, eff) := AllocateRequest_OnTimeout p e socket factory in
              (p, e1, eff))
  end.

Fixpoint run (w : World) (evs : list Event) : option (World * list Effect) :=
  match evs with
  | [] => Some (w, [])
  | ev :: rest =>
    '(w1, eff1) ← step w ev;
    '(w2, eff2) ← run w1 rest;
    Some (w2, eff1 ++ eff2)
  end.

(** A freshly constructed port and an empty message queue. *)
Definition World_new (proxy : ProxyType) (username : list byte) : World :=
  mkWorld (RelayPort_new proxy username) [].

(** ** Notions the properties are stated with *)

(** The packet is framed: the sentinel sits at byte offset 24. *)
Definition cookie_at_offset_24 (data : list byte) : Prop :=
  ∃ before after : list byte,
    data = before ++ TURN_MAGIC_COOKIE_VALUE ++ after ∧ length before = 24%nat.

(** The socket writes among a list of effects. *)
Definition is_send (eff : Effect) : bool :=
  match eff with
  | SocketSendTo _ _ _ => true
  | _ => false
  end.

(** The entry fails to apply the option: its SetSocketOption returns a
    negative value. *)
Definition fails_option (opt : SocketOption) (value : Z) (SetOption : Socket → Z)
    (e : RelayEntry) : bool :=
  (RelayEntry_SetSocketOption e opt value SetOption).1 <? 0.

(** The reading of [RelayPort::SetOption] under which the stored error is
    that of the first entry that failed. *)
Definition SetOption_keeps_first_error (p : RelayPort) (opt : SocketOption) (value : Z)
    (SetOption GetError : Socket → Z) : Prop :=
  ∀ e, List.find (fails_option opt value SetOption) (entries_ p) = Some e →
       error_ (RelayPort_SetOption p opt value SetOption GetError).1.2
         = RelayEntry_GetError e GetError.

(** The test of the search loop of [RelayPort::SendTo]: a nil-addressed
    entry when the send is payload, or an entry for this address. *)
Definition SendTo_matches (addr : SocketAddress) (payload : bool) (e : RelayEntry) : bool :=
  IsNil (ext_addr_ e) && payload || bool_decide (ext_addr_ e = addr).

(** The entry the search selects: the first one that passes the test. *)
Definition SendTo_chosen (p : RelayPort) (addr : SocketAddress) (payload : bool)
  : option RelayEntry :=
  List.find (SendTo_matches addr payload) (entries_ p).

(** What [RelayEntry::Connect] can emit. *)
Definition connect_effect (eff : Effect) : Prop :=
  match eff with
  | Dispose _ | Post _ | PostDelayed _ _ | SocketSetOption _ _ _
  | SendAllocateRequest _ _ => True
  | _ => False
  end.

(** A connected entry has a connection. *)
Definition conn_ok (e : RelayEntry) : Prop :=
  connected_ e = true → is_Some (current_connection_ e).

(** The invariants the data model lists for an entry: locked implies
    connected, connected implies a current connection, and a locked entry
    has a non-nil ext_addr. *)
Definition entry_invariant (e : RelayEntry) : Prop :=
  (locked_ e = true → connected_ e = true) ∧
  (connected_ e = true → current_connection_ e ≠ None) ∧
  (locked_ e = true → ext_addr_ e ≠ SocketAddress_nil).

(** The message is a SEND response whose OPTIONS attribute has bit 0 set. *)
Definition grants_lock (msg : StunMessage) : bool :=
  bool_decide (type msg = STUN_SEND_RESPONSE) &&
  match GetUInt32 msg STUN_ATTR_OPTIONS with
  | Some value => negb (Z.land value 1 =? 0)
  | None => false
  end.

(** The event is a packet for entry [i] that grants the lock. *)
Definition lock_granting (ev : Event) (i : nat) : Prop :=
  match ev with
  | ReadPacket j _ _ (Some msg) _ => j = i ∧ grants_lock msg = true
  | _ => False
  end.

(** The server grants the lock only to an entry that is connected and has
    an ext_addr. *)
Definition grant_guarded (w : World) (ev : Event) : Prop :=
  ∀ i e, lock_granting ev i → entries_ (w_port w) !! i = Some e →
         connected_ e = true ∧ ext_addr_ e ≠ SocketAddress_nil.

Fixpoint grants_guarded (w : World) (evs : list Event) : Prop :=
  match evs with
  | [] => True
  | ev :: rest =>
    grant_guarded w ev ∧
    match step w ev with
    | Some (w1, _) => grants_guarded w1 rest
    | None => True
    end
  end.

(** What a method may do to an entry other than through a lock grant or an
    Allocate response: replace the connection of an entry that is not
    connected, and move its server index. *)
Definition reconnected (e e1 : RelayEntry) : Prop :=
  ext_addr_ e1 = ext_addr_ e ∧ connected_ e1 = connected_ e ∧ locked_ e1 = locked_ e ∧
  (connected_ e = true → current_connection_ e1 = current_connection_ e).

(** What event [ev] may do to entry [i]. *)
Definition entry_transition (ev : Event) (i : nat) (e e1 : RelayEntry) : Prop :=
  (connected_ e = true → connected_ e1 = true) ∧
  (locked_ e = true → locked_ e1 = true) ∧
  (ext_addr_ e ≠ SocketAddress_nil → ext_addr_ e1 = ext_addr_ e) ∧
  (conn_ok e → conn_ok e1) ∧
  (locked_ e = false → locked_ e1 = true → lock_granting ev i).

(** The port fields an entry method leaves alone. *)
Definition same_entries (p p1 : RelayPort) : Prop :=
  entries_ p1 = entries_ p ∧ server_addr_ p1 = server_addr_ p ∧ options_ p1 = options_ p.

(** An entry that [RelayPort::SendTo] has just made. *)
Definition fresh_entry (e : RelayEntry) : Prop :=
  connected_ e = false ∧ locked_ e = false.

(** The entries after an event: at most one of them replaced, and entries
    appended. *)
Definition updated (upd : option (nat * RelayEntry)) (entries : list RelayEntry)
  : list RelayEntry :=
  match upd with
  | Some (j, e1) => <[j := e1]> entries
  | None => entries
  end.

(** The effects by which the port publishes its candidates and says it is
    ready. *)
Definition is_ready_effect (eff : Effect) : bool :=
  match eff with
  | AddAddress _ _ | SignalAddressReady => true
  | _ => false
  end.

Definition is_address_ready (eff : Effect) : bool :=
  match eff with
  | SignalAddressReady => true
  | _ => false
  end.

Definition is_prepare (ev : Event) : bool :=
  match ev with
  | CallPrepareAddress _ => true
  | _ => false
  end.

(** Nothing among the effects publishes a candidate or signals ready. *)
Definition quiet (effs : list Effect) : Prop :=
  List.filter is_ready_effect effs = [].

(** What the one [SetReady] call that finds the port not ready emits: the
    external addresses as candidates, then the signal. *)
Definition published (addrs : list ProtocolAddress) : list Effect :=
  ((λ iter, AddAddress (address iter) (proto iter)) <$> addrs) ++ [SignalAddressReady].

(** The trace of a port that is not ready is quiet; the trace of a port
    that is ready has one [published] block and is quiet around it. *)
Definition ready_trace (ready : bool) (trace : list Effect) : Prop :=
  if ready then
    ∃ before addrs after,
      trace = before ++ published addrs ++ after ∧ quiet before ∧ quiet after
  else quiet trace.

(** The port as its constructor leaves it, up to what the calls made before
    [PrepareAddress] can change: one entry with no connection, nothing
    posted, not ready. *)
Definition idle (w : World) : Prop :=
  ∃ e, entries_ (w_port w) = [e] ∧ current_connection_ e = None ∧
       connected_ e = false ∧ ready_ (w_port w) = false ∧ w_posted w = [].

(** What is known of the port and its trace after [n] calls of
    [PrepareAddress]. *)
Definition phase (n : nat) (w : World) (trace : list Effect) : Prop :=
  match n with
  | O => entries_ (w_port w) ≠ [] ∧
         (length (entries_ (w_port w)) = 1%nat → idle w ∧ quiet trace)
  | S O => ready_trace (ready_ (w_port w)) trace
  | _ => True
  end.

(** What a method of an entry does to the ready flag: nothing, or the one
    [SetReady] call that publishes. *)
Definition ready_change (p p1 : RelayPort) (eff : list Effect) : Prop :=
  (ready_ p1 = ready_ p ∧ quiet eff) ∨
  (ready_ p = false ∧ ready_ p1 = true ∧
   ∃ before addrs after,
     eff = before ++ published addrs ++ after ∧ quiet before ∧ quiet after).

(** The address is put in front of the server list: an SSLTCP server
    behind an HTTPS or unknown proxy. *)
Definition promoted (p : RelayPort) (addr : ProtocolAddress) : Prop :=
  proto addr = PROTO_SSLTCP ∧
  (proxy_type p = PROXY_HTTPS ∨ proxy_type p = PROXY_UNKNOWN).

(** The options the effects apply to socket [s], in the order they are
    applied. *)
Definition socket_options (s : Socket) (effs : list Effect) : list OptionValue :=
  omap (λ eff, match eff with
               | SocketSetOption s' opt value =>
                 if bool_decide (s' = s) then Some (opt, value) else None
               | _ => None
               end) effs.

(** The entry has no connection on [socket]: the socket belongs to a
    connection that was disposed of, or to no connection of the entry. *)
Definition stale_socket (e : RelayEntry) (socket : Socket) : Prop :=
  ∀ c, current_connection_ e = Some c → socket ≠ socket_ c.

(** The event is a call of [RelayPort::SendTo]. *)
Definition is_send_call (ev : Event) : bool :=
  match ev with
  | CallSendTo _ _ _ _ _ _ => true
  | _ => false
  end.

(** What event [ev] may do to the fields of an entry: the server index
    only goes up, a connected entry stays connected and keeps its
    connection, a locked entry stays locked, and the destination is only
    ever set by a send, on an entry that has none. *)
Definition entry_moves (ev : Event) (e e1 : RelayEntry) : Prop :=
  (server_index_ e ≤ server_index_ e1)%nat ∧
  (connected_ e = true →
     connected_ e1 = true ∧ current_connection_ e1 = current_connection_ e) ∧
  (locked_ e = true → locked_ e1 = true) ∧
  (ext_addr_ e1 = ext_addr_ e ∨
   (ext_addr_ e = SocketAddress_nil ∧ is_send_call ev = true)).

(** The same over a whole run, where the event is not known. *)
Definition entry_moved (e e1 : RelayEntry) : Prop :=
  (server_index_ e ≤ server_index_ e1)%nat ∧
  (connected_ e = true →
     connected_ e1 = true ∧ current_connection_ e1 = current_connection_ e) ∧
  (locked_ e = true → locked_ e1 = true) ∧
  (ext_addr_ e ≠ SocketAddress_nil → ext_addr_ e1 = ext_addr_ e).

(** What an event may do to the external addresses and the ready flag of
    the port, given the entry [upd] it has replaced: external addresses are
    only added, through [AddExternalAddress]; an entry that becomes
    connected leaves the port ready with an external address; and the port
    does not become ready unless an entry is connected. *)
Definition port_moves (p p1 : RelayPort) (upd : option (nat * RelayEntry)) : Prop :=
  (external_addr_ p1 = external_addr_ p ∨
   ∃ a, external_addr_ p1 = external_addr_ (RelayPort_AddExternalAddress p a)) ∧
  (∀ j e e1, upd = Some (j, e1) → entries_ p !! j = Some e →
             connected_ e = false → connected_ e1 = true →
             ready_ p1 = true ∧ external_addr_ p1 ≠ []) ∧
  (ready_ p1 = true →
   ready_ p = true ∨ ∃ j e1, upd = Some (j, e1) ∧ connected_ e1 = true).

(** The destinations of the entries, in entry order. *)
Definition destinations (p : RelayPort) : list SocketAddress :=
  ext_addr_ <$> entries_ p.

(** No two entries are for the same destination, and an entry that has no
    destination yet is the last one. *)
Definition one_entry_per_destination (dests : list SocketAddress) : Prop :=
  NoDup dests ∧ ∀ i, dests !! i = Some SocketAddress_nil → S i = length dests.

(** The port is ready only while an entry is connected, and an entry is
    connected only while the port has an external address. *)
Definition ready_invariant (p : RelayPort) : Prop :=
  (ready_ p = true → ∃ i e, entries_ p !! i = Some e ∧ connected_ e = true) ∧
  (∀ i e, entries_ p !! i = Some e → connected_ e = true → external_addr_ p ≠ []).

(** The event is a call of [RelayPort::SetOption]. *)
Definition is_option_call (ev : Event) : bool :=
  match ev with
  | CallSetOption _ _ _ _ => true
  | _ => false
  end.

(** * Properties *)

(** ** Lists of effects *)

Lemma filter_none {A} (f : A → bool) (l : list A) :
  Forall (λ x, f x = false) l → List.filter f l = [].
Proof.
  induction 1 as [|x l Hx _ IH]; [done|]. cbn. by rewrite Hx.
Qed.

Lemma Connect_effects p e factory :
  Forall connect_effect (RelayEntry_Connect p e factory).2.
Proof.
  unfold RelayEntry_Connect.
  destruct (connected_ e); [by constructor|].
  destruct (RelayPort_ServerAddress p (server_index_ e)) as [ra|]; [|by constructor].
  destruct (current_connection_ e) as [c|], factory as [socket|]; cbn [snd];
    repeat first
      [ apply Forall_nil_2
      | apply Forall_cons_2; [done|]
      | apply Forall_app_2
      | apply Forall_fmap, Forall_true; done
      | destruct (bool_decide (proto ra = PROTO_TCP) || bool_decide (proto ra = PROTO_SSLTCP)) ].
Qed.

Lemma Connect_no_send p e factory :
  List.filter is_send (RelayEntry_Connect p e factory).2 = [].
Proof.
  apply filter_none.
  eapply Forall_impl; [|apply Connect_effects]. by intros [].
Qed.

Lemma Connect_connected p e factory :
  connected_ (RelayEntry_Connect p e factory).1 = connected_ e.
Proof.
  unfold RelayEntry_Connect.
  destruct (connected_ e) eqn:Hc; [done|].
  destruct (RelayPort_ServerAddress p (server_index_ e)); [|done].
  by destruct (current_connection_ e), factory.
Qed.

(** ** Magic cookie *)

Lemma HasMagicCookie_true (data : list byte) :
  HasMagicCookie data = true ↔ cookie_at_offset_24 data.
Proof.
  unfold HasMagicCookie, cookie_at_offset_24.
  destruct (Nat.ltb_spec (length data) (24 + length TURN_MAGIC_COOKIE_VALUE)) as [Hlt|Hge].
  - split; [discriminate|].
    intros (before & after & -> & Hlen).
    rewrite !length_app in Hlt. lia.
  - rewrite bool_decide_eq_true. split.
    + intros Heq. exists (take 24 data), (drop (length TURN_MAGIC_COOKIE_VALUE) (drop 24 data)).
      split.
      * rewrite <- Heq at 1. by rewrite !take_drop.
      * rewrite length_take. lia.
    + intros (before & after & -> & Hlen).
      rewrite <- Hlen, drop_app_length. apply take_app_length.
Qed.

Lemma HasMagicCookie_false (data : list byte) :
  HasMagicCookie data = false ↔ ¬ cookie_at_offset_24 data.
Proof.
  rewrite <- HasMagicCookie_true. destruct (HasMagicCookie data); split; congruence.
Qed.

Lemma HasMagicCookie_short (data : list byte) :
  (length data < 24 + length TURN_MAGIC_COOKIE_VALUE)%nat → HasMagicCookie data = false.
Proof.
  intros Hlt. unfold HasMagicCookie.
  by destruct (Nat.ltb_spec (length data) (24 + length TURN_MAGIC_COOKIE_VALUE)); [|lia].
Qed.

(** ** RelayEntry::OnReadPacket *)

(** A packet without the cookie, read on the current connection's socket:
    the parser and the request manager are not consulted. *)
Lemma OnReadPacket_unframed p e c socket data parsed check :
  current_connection_ e = Some c →
  socket = socket_ c →
  HasMagicCookie data = false →
  RelayEntry_OnReadPacket p e socket data parsed check =
    (p, e, if locked_ e then [PortOnReadPacket data (ext_addr_ e) PROTO_UDP] else []).
Proof.
  intros Hc -> Hcookie. unfold RelayEntry_OnReadPacket.
  rewrite Hc, Hcookie. rewrite bool_decide_eq_true_2 by done. simpl.
  by destruct (locked_ e).
Qed.

(** C1: a packet read on the socket of the entry's current connection that
    does not carry the magic cookie at offset 24 is, on a locked entry,
    handed unchanged to the port's OnReadPacket with the entry's ext_addr and
    PROTO_UDP; on an entry that is not locked it is dropped and nothing is
    delivered.  The entry and the port are left as they were. *)
Theorem OnReadPacket_no_cookie p e c socket data parsed check :
  current_connection_ e = Some c →
  socket = socket_ c →
  ¬ cookie_at_offset_24 data →
  (locked_ e = true →
     RelayEntry_OnReadPacket p e socket data parsed check =
       (p, e, [PortOnReadPacket data (ext_addr_ e) PROTO_UDP])) ∧
  (locked_ e = false →
     RelayEntry_OnReadPacket p e socket data parsed check = (p, e, [])).
Proof.
  intros Hc Hs Hcookie. apply HasMagicCookie_false in Hcookie.
  rewrite (OnReadPacket_unframed p e c socket data parsed check Hc Hs Hcookie).
  split; intros ->; reflexivity.
Qed.

(** C10: a packet shorter than 24 + sizeof(TURN_MAGIC_COOKIE_VALUE) bytes
    has no magic cookie for HasMagicCookie, so on the current connection's
    socket it is treated as unwrapped payload whatever the STUN parser and
    the request manager would make of it: delivered with ext_addr and
    PROTO_UDP when the entry is locked, dropped otherwise.  With the 4-byte
    cookie the bound is 28 bytes. *)
Theorem OnReadPacket_short_packet p e c socket data :
  current_connection_ e = Some c →
  socket = socket_ c →
  (length data < 24 + length TURN_MAGIC_COOKIE_VALUE)%nat →
  HasMagicCookie data = false ∧
  (length TURN_MAGIC_COOKIE_VALUE = 4%nat →
     (24 + length TURN_MAGIC_COOKIE_VALUE = 28)%nat) ∧
  ∀ parsed check,
    RelayEntry_OnReadPacket p e socket data parsed check =
      (p, e, if locked_ e then [PortOnReadPacket data (ext_addr_ e) PROTO_UDP] else []).
Proof.
  intros Hc Hs Hlen. pose proof (HasMagicCookie_short data Hlen) as Hcookie.
  split; [done|]. split; [lia|].
  intros parsed check. by apply (OnReadPacket_unframed p e c).
Qed.

(** ** AllocateRequest::GetNextDelay *)

Lemma GetNextDelay_timeout_stays (r : AllocateRequest) :
  timeout_ r = true → timeout_ (snd (AllocateRequest_GetNextDelay r)) = true.
Proof.
  intros H. unfold AllocateRequest_GetNextDelay. simpl. rewrite H.
  by destruct (bool_decide _).
Qed.

Lemma GetNextDelay_times_timeout_stays (n : nat) (r : AllocateRequest) :
  timeout_ r = true → timeout_ (snd (GetNextDelay_times n r)) = true.
Proof.
  revert r. induction n as [|n IH]; intros r H; [done|].
  cbn [GetNextDelay_times]. pose proof (GetNextDelay_timeout_stays r H) as H1.
  destruct (AllocateRequest_GetNextDelay r) as [delay r1]. cbn [snd] in H1.
  specialize (IH r1 H1). by destruct (GetNextDelay_times n r1).
Qed.

Lemma GetNextDelay_times_add (n m : nat) (r : AllocateRequest) :
  snd (GetNextDelay_times (n + m) r) =
  snd (GetNextDelay_times m (snd (GetNextDelay_times n r))).
Proof.
  revert r. induction n as [|n IH]; intros r; [done|].
  cbn [GetNextDelay_times Nat.add].
  destruct (AllocateRequest_GetNextDelay r) as [delay r1].
  specialize (IH r1).
  by destruct (GetNextDelay_times (n + m) r1), (GetNextDelay_times n r1).
Qed.

(** C3: the delays returned by the first five calls of GetNextDelay on a
    new AllocateRequest are 200, 200, 400, 800, 1600 ms, the n-th being
    100 * max(2, 2^n), and the timeout flag is set after n calls exactly when
    n has reached five: it is clear after each of the first four calls and
    the fifth call sets it. *)
Theorem GetNextDelay_schedule (now : Z) :
  fst (GetNextDelay_times 5 (AllocateRequest_new now)) = [200; 200; 400; 800; 1600] ∧
  fst (GetNextDelay_times 5 (AllocateRequest_new now)) =
    (λ n, 100 * Z.max 2 (2 ^ n)) <$> [0; 1; 2; 3; 4] ∧
  ∀ n : nat,
    timeout_ (snd (GetNextDelay_times n (AllocateRequest_new now))) = bool_decide (5 ≤ n)%nat.
Proof.
  split; [reflexivity|]. split; [reflexivity|].
  intros n. destruct (decide (5 ≤ n)%nat) as [Hn|Hn].
  - rewrite bool_decide_eq_true_2 by done.
    replace n with (5 + (n - 5))%nat by lia.
    rewrite GetNextDelay_times_add. by apply GetNextDelay_times_timeout_stays.
  - rewrite bool_decide_eq_false_2 by done.
    do 5 (destruct n as [|n]; [reflexivity|]). lia.
Qed.

(** ** RelayEntry::SendTo *)

Lemma SendTo_request_options p e data addr a :
  a ∈ attrs (SendTo_request p e data addr) →
  attr_type a = STUN_ATTR_OPTIONS →
  a = StunUInt32Attribute STUN_ATTR_OPTIONS 1 ∧ ext_addr_ e = addr.
Proof.
  unfold SendTo_request. cbn [attrs].
  case_bool_decide as Heq;
    rewrite !elem_of_app, !elem_of_cons, !elem_of_nil;
    intros Hin Ht; destruct_or!; subst a; try done; discriminate Ht.
Qed.

Lemma SendTo_request_has_options p e data addr :
  StunUInt32Attribute STUN_ATTR_OPTIONS 1 ∈ attrs (SendTo_request p e data addr)
  ↔ addr = ext_addr_ e.
Proof.
  split.
  - intros Hin. by destruct (SendTo_request_options p e data addr _ Hin eq_refl).
  - intros ->. unfold SendTo_request. cbn [attrs].
    rewrite bool_decide_eq_true_2 by done.
    rewrite !elem_of_app, !elem_of_cons. right. left. by left.
Qed.

(** C2: on an entry with a connection, RelayEntry::SendTo writes the
    caller's bytes to the socket as they are, with no STUN message around
    them, when the entry is locked and addr is its ext_addr; in every other
    case it writes a STUN SEND request, and that request carries an OPTIONS
    attribute with value 0x1 if and only if addr equals the entry's ext_addr
    (and carries no other OPTIONS attribute). *)
Theorem SendTo_options_iff p e c data addr sent :
  current_connection_ e = Some c →
  (locked_ e = true ∧ ext_addr_ e = addr →
     RelayEntry_SendTo p e data addr sent =
       (sent, [SocketSendTo (socket_ c) (Raw data) (address (protocol_address_ c))])) ∧
  (¬ (locked_ e = true ∧ ext_addr_ e = addr) →
     ∃ request,
       RelayEntry_SendTo p e data addr sent =
         (sent, [SocketSendTo (socket_ c) (Encoded request) (address (protocol_address_ c))]) ∧
       type request = STUN_SEND_REQUEST ∧
       (StunUInt32Attribute STUN_ATTR_OPTIONS 1 ∈ attrs request ↔ addr = ext_addr_ e) ∧
       (∀ a, a ∈ attrs request → attr_type a = STUN_ATTR_OPTIONS →
             a = StunUInt32Attribute STUN_ATTR_OPTIONS 1)).
Proof.
  intros Hc. unfold RelayEntry_SendTo, RelayEntry_SendPacket, RelayConnection_Send.
  rewrite Hc. split.
  - intros [-> ->]. by rewrite bool_decide_eq_true_2.
  - intros Hnot.
    assert (locked_ e && bool_decide (ext_addr_ e = addr) = false) as ->.
    { apply andb_false_iff. destruct (locked_ e); [right|by left].
      apply bool_decide_eq_false_2. intros Heq. by apply Hnot. }
    exists (SendTo_request p e data addr). split; [done|]. split; [done|].
    split; [apply SendTo_request_has_options|].
    intros a Hin Ht. by destruct (SendTo_request_options p e data addr a Hin Ht).
Qed.

(** ** AllocateRequest::OnResponse and OnErrorResponse *)

Lemma OnConnect_effects p e mapped_addr :
  ∃ eff, (RelayEntry_OnConnect p e mapped_addr).2 = set_related_address mapped_addr :: eff.
Proof.
  unfold RelayEntry_OnConnect.
  destruct (RelayPort_SetReady _) as [p2 eff]. by exists eff.
Qed.

Lemma OnConnect_entry p e mapped_addr :
  (RelayEntry_OnConnect p e mapped_addr).1.2 = set_connected true e.
Proof.
  unfold RelayEntry_OnConnect. by destruct (RelayPort_SetReady _).
Qed.

Lemma OnResponse_unfold p e response :
  AllocateRequest_OnResponse p e response =
    let r :=
      match GetAddress response STUN_ATTR_MAPPED_ADDRESS with
      | Some (family, ip, prt) =>
        if bool_decide (family = 1) then RelayEntry_OnConnect p e (mkSocketAddress ip prt)
        else (p, e, [])
      | None => (p, e, [])
      end in
    (r.1.1, r.1.2, r.2 ++ RelayEntry_ScheduleKeepAlive r.1.2).
Proof.
  unfold AllocateRequest_OnResponse.
  destruct (GetAddress response STUN_ATTR_MAPPED_ADDRESS) as [[[family ip] prt]|]; [|done].
  case_bool_decide; [|done]. cbn [negb].
  by destruct (RelayEntry_OnConnect p e _) as [[p1 e1] eff].
Qed.

(** C8: an Allocate response that reaches AllocateRequest::OnResponse (a
    framed packet on the current connection's socket that the parser reads
    as [response] and the request manager matches to the request) calls
    RelayEntry::OnConnect with the mapped address if and only if the
    response has a MAPPED-ADDRESS attribute of family 1, and in every case
    ends by scheduling a keep-alive: one further Allocate request queued on
    the current connection with a delay of 600000 ms. *)
Theorem OnResponse_connect_and_keep_alive p e c socket data response :
  current_connection_ e = Some c →
  socket = socket_ c →
  cookie_at_offset_24 data →
  ∃ p1 e1 eff,
    RelayEntry_OnReadPacket p e socket data (Some response) FiresOnResponse =
      AllocateRequest_OnResponse p e response ∧
    AllocateRequest_OnResponse p e response =
      (p1, e1, eff ++ [SendAllocateRequest (socket_ c) 600000]) ∧
    (p1, e1, eff) =
      match GetAddress response STUN_ATTR_MAPPED_ADDRESS with
      | Some (family, ip, prt) =>
        if bool_decide (family = 1) then RelayEntry_OnConnect p e (mkSocketAddress ip prt)
        else (p, e, [])
      | None => (p, e, [])
      end ∧
    (eff ≠ [] ↔ ∃ ip prt, GetAddress response STUN_ATTR_MAPPED_ADDRESS = Some (1, ip, prt)).
Proof.
  intros Hc -> Hcookie. apply HasMagicCookie_true in Hcookie.
  set (r := match GetAddress response STUN_ATTR_MAPPED_ADDRESS with
            | Some (family, ip, prt) =>
              if bool_decide (family = 1) then RelayEntry_OnConnect p e (mkSocketAddress ip prt)
              else (p, e, [])
            | None => (p, e, [])
            end).
  exists r.1.1, r.1.2, r.2.
  assert (current_connection_ r.1.2 = Some c) as Hc1.
  { subst r. destruct (GetAddress response STUN_ATTR_MAPPED_ADDRESS) as [[[family ip] prt]|];
      [|done]. case_bool_decide; [|done]. by rewrite OnConnect_entry. }
  split; [|split; [|split]].
  - unfold RelayEntry_OnReadPacket. rewrite Hc, Hcookie.
    by rewrite bool_decide_eq_true_2.
  - rewrite OnResponse_unfold. fold r. cbn zeta.
    unfold RelayEntry_ScheduleKeepAlive. by rewrite Hc1.
  - by destruct r as [[? ?] ?].
  - subst r. destruct (GetAddress response STUN_ATTR_MAPPED_ADDRESS) as [[[family ip] prt]|].
    + case_bool_decide as Hfam.
      * subst family. destruct (OnConnect_effects p e (mkSocketAddress ip prt)) as [eff ->].
        split; [by eauto|done].
      * cbn. split; [done|]. intros (ip' & prt' & [= ? ? ?]). done.
    + cbn. split; [done|]. by intros (ip' & prt' & ?).
Qed.

(** C9: a STUN error response that reaches AllocateRequest::OnErrorResponse
    schedules a keep-alive (queues a further Allocate request on the current
    connection) if and only if the time elapsed since the request's start
    time is at most 50000 ms; when more time has elapsed nothing is done.
    The entry and the port are unchanged in both cases. *)
Theorem OnErrorResponse_retry_window p e c socket data response elapsed :
  current_connection_ e = Some c →
  socket = socket_ c →
  cookie_at_offset_24 data →
  RelayEntry_OnReadPacket p e socket data (Some response) (FiresOnErrorResponse elapsed) =
    (p, e, AllocateRequest_OnErrorResponse e response elapsed) ∧
  AllocateRequest_OnErrorResponse e response elapsed =
    (if bool_decide (elapsed ≤ 50000)
     then [SendAllocateRequest (socket_ c) kKeepAliveDelay] else []) ∧
  (SendAllocateRequest (socket_ c) kKeepAliveDelay
     ∈ AllocateRequest_OnErrorResponse e response elapsed ↔ elapsed ≤ 50000).
Proof.
  intros Hc -> Hcookie. apply HasMagicCookie_true in Hcookie.
  assert (AllocateRequest_OnErrorResponse e response elapsed =
          (if bool_decide (elapsed ≤ 50000)
           then [SendAllocateRequest (socket_ c) kKeepAliveDelay] else [])) as Heq.
  { unfold AllocateRequest_OnErrorResponse, RelayEntry_ScheduleKeepAlive. rewrite Hc.
    change kRetryTimeout with 50000.
    destruct (Z.leb_spec elapsed 50000).
    - by rewrite bool_decide_eq_true_2.
    - by rewrite bool_decide_eq_false_2 by lia. }
  split; [|split; [done|]].
  - unfold RelayEntry_OnReadPacket. rewrite Hc, Hcookie.
    by rewrite bool_decide_eq_true_2.
  - rewrite Heq. case_bool_decide.
    + split; [done|]. intros _. by apply list_elem_of_singleton.
    + split; [|done]. by intros ?%elem_of_nil.
Qed.

(** ** RelayPort::SetOption *)

Lemma SetOption_loop_spec entries opt value SetOption GetError result error :
  SetOption_loop entries opt value SetOption GetError result error =
    (if existsb (fails_option opt value SetOption) entries then -1 else result,
     match list.last (List.filter (fails_option opt value SetOption) entries) with
     | Some e => RelayEntry_GetError e GetError
     | None => error
     end,
     (λ c, SocketSetOption (socket_ c) opt value) <$> omap current_connection_ entries).
Proof.
  revert result error. induction entries as [|e rest IH]; intros result error; [done|].
  cbn [SetOption_loop existsb List.filter omap list_omap].
  unfold fails_option at 1 3.
  assert ((RelayEntry_SetSocketOption e opt value SetOption).2 =
          (λ c, SocketSetOption (socket_ c) opt value) <$>
            option_list (current_connection_ e)) as Heff.
  { unfold RelayEntry_SetSocketOption. by destruct (current_connection_ e). }
  destruct (RelayEntry_SetSocketOption e opt value SetOption) as [r eff].
  cbn [fst snd] in *. subst eff.
  destruct (r <? 0).
  - rewrite IH. cbn [orb]. f_equal; [f_equal|].
    + by destruct (existsb _ rest).
    + rewrite last_cons. by destruct (list.last _).
    + by destruct (current_connection_ e).
  - rewrite IH. cbn [orb]. f_equal. by destruct (current_connection_ e).
Qed.

(** C7 (amended): RelayPort::SetOption applies the option to the socket of
    every entry that has a current connection, in entry order, appends the
    (opt, value) pair to the port's options list and leaves the entries as
    they are; it returns -1 when an entry failed to apply the option and 0
    otherwise; and when one or more entries fail, the port's stored error is
    the error of the last entry that failed (no failure leaves the stored
    error as it was). *)
Theorem SetOption_applies_and_keeps_last_error p opt value SetOption GetError :
  (RelayPort_SetOption p opt value SetOption GetError).2 =
    ((λ c, SocketSetOption (socket_ c) opt value) <$> omap current_connection_ (entries_ p)) ∧
  options_ (RelayPort_SetOption p opt value SetOption GetError).1.2 =
    options_ p ++ [(opt, value)] ∧
  entries_ (RelayPort_SetOption p opt value SetOption GetError).1.2 = entries_ p ∧
  (RelayPort_SetOption p opt value SetOption GetError).1.1 =
    (if existsb (fails_option opt value SetOption) (entries_ p) then -1 else 0) ∧
  error_ (RelayPort_SetOption p opt value SetOption GetError).1.2 =
    match list.last (List.filter (fails_option opt value SetOption) (entries_ p)) with
    | Some e => RelayEntry_GetError e GetError
    | None => error_ p
    end.
Proof.
  unfold RelayPort_SetOption. rewrite SetOption_loop_spec. by cbn.
Qed.

Lemma SetOption_applies_and_keeps_entries p opt value SetOption GetError :
  (RelayPort_SetOption p opt value SetOption GetError).2 =
    ((λ c, SocketSetOption (socket_ c) opt value) <$> omap current_connection_ (entries_ p)) ∧
  entries_ (RelayPort_SetOption p opt value SetOption GetError).1.2 = entries_ p ∧
  ready_ (RelayPort_SetOption p opt value SetOption GetError).1.2 = ready_ p.
Proof.
  unfold RelayPort_SetOption. rewrite SetOption_loop_spec. by cbn.
Qed.

(** ** How the methods change an entry *)

Lemma reconnected_refl e : reconnected e e.
Proof. by repeat split. Qed.

Lemma reconnected_trans e e1 e2 :
  reconnected e e1 → reconnected e1 e2 → reconnected e e2.
Proof.
  intros (Ha & Hc & Hl & Hcc) (Ha' & Hc' & Hl' & Hcc'). repeat split; try congruence.
  intros H. rewrite Hcc', Hcc; congruence.
Qed.

Lemma reconnected_transition ev i e e1 : reconnected e e1 → entry_transition ev i e e1.
Proof.
  intros (Ha & Hc & Hl & Hcc). unfold entry_transition, conn_ok.
  rewrite Ha, Hc, Hl. repeat split; try done.
  - intros Hok Hconn. rewrite Hcc by done. by apply Hok.
  - congruence.
Qed.

Lemma Connect_reconnected p e factory : reconnected e (RelayEntry_Connect p e factory).1.
Proof.
  unfold RelayEntry_Connect.
  destruct (connected_ e) eqn:Hconn; [apply reconnected_refl|].
  destruct (RelayPort_ServerAddress p (server_index_ e)); [|apply reconnected_refl].
  destruct (current_connection_ e), factory; cbn; unfold reconnected; cbn;
    by rewrite Hconn.
Qed.

Lemma HandleConnectFailure_reconnected p e socket factory :
  reconnected e (RelayEntry_HandleConnectFailure p e socket factory).1.
Proof.
  unfold RelayEntry_HandleConnectFailure.
  destruct (match socket, current_connection_ e with
            | None, _ => true
            | Some s, Some c => bool_decide (s = socket_ c)
            | Some _, None => false
            end); [|apply reconnected_refl].
  pose proof (Connect_reconnected p (set_server_index (server_index_ e + 1) e) factory) as H.
  destruct (RelayEntry_Connect p _ factory) as [e2 eff2]. cbn [fst] in *.
  eapply reconnected_trans; [|exact H]. by repeat split.
Qed.

Lemma OnMessage_reconnected p e factory :
  reconnected e (RelayEntry_OnMessage p e factory).1.
Proof.
  unfold RelayEntry_OnMessage. destruct (current_connection_ e) as [c|] eqn:Hc.
  - pose proof (HandleConnectFailure_reconnected p e (Some (socket_ c)) factory) as H.
    by destruct (RelayEntry_HandleConnectFailure p e _ factory).
  - apply HandleConnectFailure_reconnected.
Qed.

Lemma OnConnect_same_entries p e mapped_addr :
  same_entries p (RelayEntry_OnConnect p e mapped_addr).1.1.
Proof.
  unfold RelayEntry_OnConnect, RelayPort_SetReady, RelayPort_AddExternalAddress.
  destruct (existsb _ (external_addr_ p)); cbn; by destruct (ready_ p).
Qed.

Lemma OnResponse_entry p e response :
  (AllocateRequest_OnResponse p e response).1.2 = e ∨
  (AllocateRequest_OnResponse p e response).1.2 = set_connected true e.
Proof.
  rewrite OnResponse_unfold. cbn zeta. cbn [fst snd].
  destruct (GetAddress response STUN_ATTR_MAPPED_ADDRESS) as [[[family ip] prt]|]; [|by left].
  case_bool_decide; [|by left]. right. apply OnConnect_entry.
Qed.

Lemma OnResponse_same_entries p e response :
  same_entries p (AllocateRequest_OnResponse p e response).1.1.
Proof.
  rewrite OnResponse_unfold. cbn zeta. cbn [fst snd].
  destruct (GetAddress response STUN_ATTR_MAPPED_ADDRESS) as [[[family ip] prt]|]; [|done].
  case_bool_decide; [|done]. apply OnConnect_same_entries.
Qed.

Lemma OnReadPacket_same_entries p e socket data parsed check :
  same_entries p (RelayEntry_OnReadPacket p e socket data parsed check).1.1.
Proof.
  unfold RelayEntry_OnReadPacket.
  repeat case_match; try done. apply OnResponse_same_entries.
Qed.

Lemma OnReadPacket_transition p e i socket data parsed check :
  entry_transition (ReadPacket i socket data parsed check) i e
    (RelayEntry_OnReadPacket p e socket data parsed check).1.2.
Proof.
  assert (∀ ev, entry_transition ev i e e) as Hrefl
    by (intros ev; apply reconnected_transition, reconnected_refl).
  unfold RelayEntry_OnReadPacket.
  destruct (current_connection_ e) as [c|] eqn:Hc; [|apply Hrefl].
  destruct (negb (bool_decide (socket = socket_ c))); [apply Hrefl|].
  destruct (negb (HasMagicCookie data)); [destruct (locked_ e); apply Hrefl|].
  destruct parsed as [msg|]; [|apply Hrefl].
  destruct check as [| |elapsed]; [| |apply Hrefl].
  - (* no transaction: a SEND response may lock, a DATA indication is delivered *)
    destruct (bool_decide (type msg = STUN_SEND_RESPONSE)) eqn:Htype.
    + destruct (GetUInt32 msg STUN_ATTR_OPTIONS) as [value|] eqn:Hopt; [|apply Hrefl].
      destruct (negb (Z.land value 1 =? 0)) eqn:Hbit; [|apply Hrefl].
      cbn. unfold entry_transition, conn_ok. cbn. repeat split; try done.
      unfold grants_lock. by rewrite Htype, Hopt, Hbit.
    + repeat case_match; apply Hrefl.
  - (* the Allocate response *)
    destruct (OnResponse_entry p e msg) as [-> | ->]; [apply Hrefl|].
    unfold entry_transition, conn_ok. cbn. rewrite Hc. repeat split; try done.
    congruence.
Qed.

(** ** RelayPort::SendTo *)

Lemma set_ext_addr_same e : set_ext_addr (ext_addr_ e) e = e.
Proof. by destruct e. Qed.

Lemma SendTo_find_None entries addr payload :
  List.find (SendTo_matches addr payload) entries = None →
  SendTo_find entries addr payload = (None, entries).
Proof.
  induction entries as [|e rest IH]; [done|].
  cbn [List.find SendTo_find]. unfold SendTo_matches at 1.
  destruct (IsNil (ext_addr_ e) && payload); [done|]. cbn [orb].
  destruct (bool_decide (ext_addr_ e = addr)); [done|].
  intros Hrest. by rewrite (IH Hrest).
Qed.

Lemma SendTo_find_Some entries addr payload e :
  List.find (SendTo_matches addr payload) entries = Some e →
  ∃ i, SendTo_find entries addr payload = (Some i, <[i := set_ext_addr addr e]> entries) ∧
       entries !! i = Some e.
Proof.
  induction entries as [|e0 rest IH]; [done|].
  cbn [List.find SendTo_find]. unfold SendTo_matches at 1.
  destruct (IsNil (ext_addr_ e0) && payload).
  - intros [= ->]. by exists 0%nat.
  - cbn [orb]. case_bool_decide as Heq.
    + intros [= ->]. exists 0%nat. split; [|done].
      cbn. by rewrite <- Heq, set_ext_addr_same.
    + intros Hrest. destruct (IH Hrest) as (i & -> & Hi). by exists (S i).
Qed.

Lemma SendTo_create_new p addr factory :
  ∃ e2 eff,
    SendTo_create p None addr true factory =
      (Some (length (entries_ p)), set_entries (entries_ p ++ [e2]) p, eff) ∧
    (connected_ e2 = false ∧ locked_ e2 = false) ∧ List.filter is_send eff = [].
Proof.
  unfold SendTo_create.
  set (e1 := match entries_ p with
             | first :: _ => set_server_index (server_index_ first) (RelayEntry_new addr)
             | [] => RelayEntry_new addr
             end).
  pose proof (Connect_reconnected p e1 factory) as (_ & Hconn & Hlock & _).
  pose proof (Connect_no_send p e1 factory) as Hsend.
  destruct (RelayEntry_Connect p e1 factory) as [e2 eff]. cbn [fst snd] in *.
  exists e2, eff. split; [done|]. split; [|done].
  rewrite Hconn, Hlock. subst e1. by destruct (entries_ p).
Qed.

(** The two phases before the send: what entry they settle on, and that
    they write nothing to a socket. *)
Lemma SendTo_search p addr payload factory :
  ∃ entry p2 eff2,
    (let '(found, entries1) := SendTo_find (entries_ p) addr payload in
     SendTo_create (set_entries entries1 p) found addr payload factory) = (entry, p2, eff2) ∧
    p2 = set_entries (entries_ p2) p ∧
    List.filter is_send eff2 = [] ∧
    match SendTo_chosen p addr payload with
    | Some e =>
      ∃ i, entry = Some i ∧ entries_ p !! i = Some e ∧
           entries_ p2 = <[i := set_ext_addr addr e]> (entries_ p) ∧ eff2 = []
    | None =>
      (entry = None ∧ entries_ p2 = entries_ p ∧ eff2 = []) ∨
      (∃ e2, entry = Some (length (entries_ p)) ∧ entries_ p2 = entries_ p ++ [e2] ∧
             connected_ e2 = false ∧ locked_ e2 = false)
    end.
Proof.
  unfold SendTo_chosen.
  destruct (List.find (SendTo_matches addr payload) (entries_ p)) as [e|] eqn:Hfind.
  - destruct (SendTo_find_Some _ _ _ _ Hfind) as (i & -> & Hi).
    eexists _, _, _. split; [reflexivity|]. split; [done|]. split; [done|].
    exists i. by destruct p.
  - rewrite (SendTo_find_None _ _ _ Hfind). destruct payload.
    + destruct (SendTo_create_new (set_entries (entries_ p) p) addr factory)
        as (e2 & eff & -> & [Hconn Hlock] & Hsend).
      eexists _, _, _. split; [reflexivity|]. split; [done|]. split; [done|].
      right. exists e2. by destruct p.
    + eexists _, _, _. split; [reflexivity|]. split; [by destruct p|]. split; [done|].
      left. by destruct p.
Qed.

Lemma SendTo_on_connection p e c data addr sent :
  current_connection_ e = Some c →
  ∃ pkt, RelayEntry_SendTo p e data addr sent =
           (sent, [SocketSendTo (socket_ c) pkt (address (protocol_address_ c))]).
Proof.
  intros Hc. unfold RelayEntry_SendTo, RelayEntry_SendPacket, RelayConnection_Send.
  rewrite Hc. destruct (locked_ e && bool_decide (ext_addr_ e = addr)); by eexists.
Qed.

(** The tail of [RelayPort::SendTo] once the entry to send on is known. *)
Lemma SendTo_send p p2 eff2 entry e c data addr payload factory sent GetError :
  (let '(found, entries1) := SendTo_find (entries_ p) addr payload in
   SendTo_create (set_entries entries1 p) found addr payload factory) = (entry, p2, eff2) →
  List.filter is_send eff2 = [] →
  SendTo_select p2 entry = Some (inr e) →
  current_connection_ e = Some c →
  ∃ eff pkt,
    List.filter is_send eff = [SocketSendTo (socket_ c) pkt (address (protocol_address_ c))] ∧
    (0 < sent →
       RelayPort_SendTo p data addr payload factory sent GetError =
         Some (int_of_size (length data), p2, eff)) ∧
    (sent < 0 →
       RelayPort_SendTo p data addr payload factory sent GetError =
         Some (SOCKET_ERROR, set_error (GetError (socket_ c)) p2, eff)).
Proof.
  intros Hsearch Hnosend Hsel Hc.
  destruct (SendTo_on_connection p2 e c data addr sent Hc) as [pkt Hsend].
  exists (eff2 ++ [SocketSendTo (socket_ c) pkt (address (protocol_address_ c))]), pkt.
  split; [by rewrite List.filter_app, Hnosend|].
  unfold RelayPort_SendTo.
  destruct (SendTo_find (entries_ p) addr payload) as [found entries1].
  rewrite Hsearch, Hsel, Hsend. unfold RelayEntry_GetError. rewrite Hc.
  split; intros Hsent.
  - destruct (Z.leb_spec sent 0); [lia|done].
  - destruct (Z.leb_spec sent 0); [|lia]. destruct (Z.ltb_spec sent 0); [done|lia].
Qed.

Lemma int_of_size_small (n : nat) :
  Z.of_nat n ≤ INT_MAX → int_of_size n = Z.of_nat n.
Proof.
  unfold int_of_size, int32, INT_MAX. intros Hn.
  rewrite Z.mod_small by lia. lia.
Qed.

(** C4: RelayPort::SendTo on a port whose first entry is [first].  When the
    entry selected for addr (or the one created for it) is not connected the
    send falls back to entries[0]: the packet is written to the socket of
    the first entry's connection.  When entries[0] is not connected either,
    the port's error becomes EWOULDBLOCK, SOCKET_ERROR is returned and
    nothing is written to any socket.  Whenever the socket reports bytes
    sent, the value returned is the caller's size (converted to the int
    return type, so the size itself up to INT_MAX) and not the size of the
    packet written. *)
Theorem SendTo_fallback_and_result p first rest data addr payload factory sent GetError :
  entries_ p = first :: rest →
  ((match SendTo_chosen p addr payload with Some e => connected_ e | None => false end)
     = false →
     (connected_ first = false →
        ∃ p1 eff,
          RelayPort_SendTo p data addr payload factory sent GetError =
            Some (SOCKET_ERROR, p1, eff) ∧
          error_ p1 = EWOULDBLOCK ∧ List.filter is_send eff = []) ∧
     (connected_ first = true → ∀ c0, current_connection_ first = Some c0 →
        ∃ p1 eff pkt,
          List.filter is_send eff =
            [SocketSendTo (socket_ c0) pkt (address (protocol_address_ c0))] ∧
          (0 < sent →
             RelayPort_SendTo p data addr payload factory sent GetError =
               Some (int_of_size (length data), p1, eff)) ∧
          (sent < 0 →
             RelayPort_SendTo p data addr payload factory sent GetError =
               Some (SOCKET_ERROR, set_error (GetError (socket_ c0)) p1, eff)))) ∧
  (∀ e c, SendTo_chosen p addr payload = Some e → connected_ e = true →
          current_connection_ e = Some c →
     ∃ p1 eff pkt,
       List.filter is_send eff =
         [SocketSendTo (socket_ c) pkt (address (protocol_address_ c))] ∧
       (0 < sent →
          RelayPort_SendTo p data addr payload factory sent GetError =
            Some (int_of_size (length data), p1, eff)) ∧
       (sent < 0 →
          RelayPort_SendTo p data addr payload factory sent GetError =
            Some (SOCKET_ERROR, set_error (GetError (socket_ c)) p1, eff))) ∧
  (Z.of_nat (length data) ≤ INT_MAX → int_of_size (length data) = Z.of_nat (length data)).
Proof.
  intros Hentries.
  destruct (SendTo_search p addr payload factory)
    as (entry & p2 & eff2 & Hsearch & _ & Hnosend & Hchosen).
  split; [|split; [|apply int_of_size_small]].
  - intros Hunusable.
    (* the first entry after the search, and the entry settled on *)
    assert (∃ first', entries_ p2 !! 0%nat = Some first' ∧
                      connected_ first' = connected_ first ∧
                      (connected_ first = true → first' = first))
      as (first' & Hfirst & Hfc & Hfeq).
    { destruct (SendTo_chosen p addr payload) as [e|].
      - destruct Hchosen as (i & _ & Hi & -> & _). rewrite Hentries in Hi |- *.
        destruct i as [|i].
        + injection Hi as <-. exists (set_ext_addr addr first).
          split; [done|]. split; [done|]. intros Hc. congruence.
        + by exists first.
      - destruct Hchosen as [(_ & -> & _)|(e2 & _ & -> & _)]; rewrite Hentries; by exists first. }
    assert (match entry ≫= (λ i, entries_ p2 !! i) with
            | Some e => connected_ e
            | None => false
            end = false) as Hentry.
    { destruct (SendTo_chosen p addr payload) as [e|].
      - destruct Hchosen as (i & -> & Hi & -> & _). cbn.
        rewrite list_lookup_insert_eq by (by eapply lookup_lt_Some). done.
      - destruct Hchosen as [[-> _]|(e2 & -> & -> & He2 & _)]; [done|]. cbn.
        by rewrite lookup_app_r, Nat.sub_diag by done. }
    assert (SendTo_select p2 entry =
            Some (if connected_ first then inr first' else inl ())) as Hsel.
    { unfold SendTo_select. rewrite Hfirst, Hfc.
      destruct (entry ≫= (λ i, entries_ p2 !! i)) as [e|]; [rewrite Hentry|];
        by destruct (connected_ first). }
    split.
    + intros Hnc. rewrite Hnc in Hsel.
      exists (set_error EWOULDBLOCK p2), eff2. split; [|done].
      unfold RelayPort_SendTo.
      destruct (SendTo_find (entries_ p) addr payload) as [found entries1].
      by rewrite Hsearch, Hsel.
    + intros Hconn c0 Hc0. rewrite Hconn in Hsel. rewrite (Hfeq Hconn) in Hsel.
      destruct (SendTo_send p p2 eff2 entry first c0 data addr payload factory sent GetError
                  Hsearch Hnosend Hsel Hc0) as (eff & pkt & ?).
      by exists p2, eff, pkt.
  - intros e c He Hconn Hc. rewrite He in Hchosen.
    destruct Hchosen as (i & -> & Hi & Hp2 & _).
    assert (SendTo_select p2 (Some i) = Some (inr (set_ext_addr addr e))) as Hsel.
    { unfold SendTo_select. cbn. rewrite Hp2.
      rewrite list_lookup_insert_eq by (by eapply lookup_lt_Some). cbn. by rewrite Hconn. }
    destruct (SendTo_send p p2 eff2 (Some i) (set_ext_addr addr e) c data addr payload factory
                sent GetError Hsearch Hnosend Hsel Hc) as (eff & pkt & ?).
    by exists p2, eff, pkt.
Qed.

(** ** Steps of the message loop *)

Lemma on_entry_Some w i method w1 eff :
  on_entry w i method = Some (w1, eff) →
  ∃ e p1 e1,
    entries_ (w_port w) !! i = Some e ∧
    method (w_port w) e = (p1, e1, eff) ∧
    w1 = mkWorld (set_entries (<[i := e1]> (entries_ p1)) p1) (w_posted w ++ posted_by i eff).
Proof.
  unfold on_entry. destruct (entries_ (w_port w) !! i) as [e|]; [|done]. cbn.
  destruct (method (w_port w) e) as [[p1 e1] eff1] eqn:Hm. intros [= <- <-].
  by exists e, p1, e1.
Qed.

Lemma set_error_same p : set_error (error_ p) p = p.
Proof. by destruct p. Qed.

(** The port and the effects [RelayPort::SendTo] returns: those of the
    search, then at most one socket write; only [error_] is touched after
    the search. *)
Lemma SendTo_result p data addr payload factory sent GetError r p1 eff :
  RelayPort_SendTo p data addr payload factory sent GetError = Some (r, p1, eff) →
  ∃ entry p2 eff2 eff3 z,
    (let '(found, entries1) := SendTo_find (entries_ p) addr payload in
     SendTo_create (set_entries entries1 p) found addr payload factory) = (entry, p2, eff2) ∧
    p1 = set_error z p2 ∧ eff = eff2 ++ eff3 ∧
    (eff3 = [] ∨ ∃ s pkt dest, eff3 = [SocketSendTo s pkt dest]).
Proof.
  unfold RelayPort_SendTo.
  destruct (SendTo_find (entries_ p) addr payload) as [found entries1].
  destruct (SendTo_create _ found addr payload factory) as [[entry p2] eff2].
  destruct (SendTo_select p2 entry) as [[[]|e]|]; [| |done].
  - intros [= <- <- <-]. exists entry, p2, eff2, [], EWOULDBLOCK.
    rewrite app_nil_r. by eauto.
  - assert (∃ sent1 eff3, RelayEntry_SendTo p2 e data addr sent = (sent1, eff3) ∧
              (eff3 = [] ∨ ∃ s pkt dest, eff3 = [SocketSendTo s pkt dest])) as
      (sent1 & eff3 & -> & Heff3).
    { unfold RelayEntry_SendTo, RelayEntry_SendPacket, RelayConnection_Send.
      destruct (current_connection_ e), (locked_ e && bool_decide (ext_addr_ e = addr));
        eexists _, _; (split; [reflexivity|]); eauto. }
    destruct (sent1 <=? 0).
    + destruct (sent1 <? 0); [|done]. intros [= <- <- <-].
      by exists entry, p2, eff2, eff3, (RelayEntry_GetError e GetError).
    + intros [= <- <- <-]. exists entry, p2, eff2, eff3, (error_ p2).
      by rewrite set_error_same.
Qed.

Lemma SendTo_matches_ext_addr addr payload e :
  SendTo_matches addr payload e = true →
  ext_addr_ e ≠ SocketAddress_nil → ext_addr_ e = addr.
Proof.
  unfold SendTo_matches, IsNil. intros [[Hnil _]%andb_true_iff|Heq]%orb_true_iff Hne.
  - by apply bool_decide_eq_true in Hnil.
  - by apply bool_decide_eq_true in Heq.
Qed.

Lemma adopted_transition ev i addr payload e :
  SendTo_matches addr payload e = true →
  entry_transition ev i e (set_ext_addr addr e).
Proof.
  intros Hm. unfold entry_transition, conn_ok. cbn. repeat split; try done.
  - intros Hne. symmetry. by eapply SendTo_matches_ext_addr.
  - congruence.
Qed.

(** What an event does to the entries: at most one of them makes a
    transition, and fresh entries may be appended. *)
Lemma step_entries w ev w1 eff :
  step w ev = Some (w1, eff) →
  ∃ upd extra,
    entries_ (w_port w1) = updated upd (entries_ (w_port w)) ++ extra ∧
    (∀ j e1, upd = Some (j, e1) →
       ∃ e, entries_ (w_port w) !! j = Some e ∧ entry_transition ev j e e1) ∧
    Forall fresh_entry extra.
Proof.
  assert (∀ i e e1 entries1,
            entries_ (w_port w) !! i = Some e → entry_transition ev i e e1 →
            entries1 = <[i := e1]> (entries_ (w_port w)) →
            ∃ upd extra,
              entries1 = updated upd (entries_ (w_port w)) ++ extra ∧
              (∀ j e2, upd = Some (j, e2) →
                 ∃ e0, entries_ (w_port w) !! j = Some e0 ∧ entry_transition ev j e0 e2) ∧
              Forall fresh_entry extra) as Hone.
  { intros i e e1 entries1 Hi Htr ->. exists (Some (i, e1)), []. rewrite app_nil_r.
    split; [done|]. split; [|done]. intros j e2 [= <- <-]. by exists e. }
  assert (∀ entries1, entries1 = entries_ (w_port w) →
            ∃ upd extra,
              entries1 = updated upd (entries_ (w_port w)) ++ extra ∧
              (∀ j e2, upd = Some (j, e2) →
                 ∃ e0, entries_ (w_port w) !! j = Some e0 ∧ entry_transition ev j e0 e2) ∧
              Forall fresh_entry extra) as Hsame.
  { intros entries1 ->. exists None, []. by rewrite app_nil_r. }
  destruct ev as [addr|addr|factory|data addr payload factory sent GetError
                 |opt value SetOption GetError|i factory|i socket|i socket error factory
                 |i socket data parsed check|i socket factory]; cbn [step].
  - intros [= <- _]. apply Hsame. unfold RelayPort_AddServerAddress. cbn.
    by destruct (_ && _).
  - intros [= <- _]. apply Hsame. unfold RelayPort_AddExternalAddress. cbn.
    by destruct (existsb _ _).
  - unfold RelayPort_PrepareAddress.
    destruct (entries_ (w_port w)) as [|e [|]] eqn:Hentries; [done| |done].
    pose proof (Connect_reconnected (w_port w) e factory) as Hrec.
    destruct (RelayEntry_Connect (w_port w) e factory) as [e1 eff1]. cbn.
    intros [= <- _]. cbn.
    apply (Hone 0%nat e e1); [done| |done].
    by apply reconnected_transition.
  - destruct (RelayPort_SendTo (w_port w) data addr payload factory sent GetError)
      as [[[r p1] eff1]|] eqn:Hsend; [|done]. cbn. intros [= <- _]. cbn.
    destruct (SendTo_result _ _ _ _ _ _ _ _ _ _ Hsend)
      as (entry & p2 & eff2 & eff3 & z & Hsearch & -> & _).
    destruct (SendTo_search (w_port w) addr payload factory)
      as (entry' & p2' & eff2' & Hsearch' & _ & _ & Hchosen).
    rewrite Hsearch in Hsearch'. injection Hsearch' as <- <- <-. cbn.
    unfold SendTo_chosen in Hchosen.
    destruct (List.find (SendTo_matches addr payload) (entries_ (w_port w)))
      as [e|] eqn:Hfind.
    + destruct Hchosen as (i & _ & Hi & -> & _).
      apply (Hone i e (set_ext_addr addr e)); [done| |done].
      apply (adopted_transition _ _ addr payload). by apply List.find_some in Hfind as [_ ?].
    + destruct Hchosen as [(_ & -> & _)|(e2 & _ & -> & Hfresh)]; [by apply Hsame|].
      exists None, [e2]. split; [done|]. split; [done|].
      apply Forall_cons_2; [exact Hfresh | apply Forall_nil_2].
  - destruct (RelayPort_SetOption (w_port w) opt value SetOption GetError)
      as [[r p1] eff1] eqn:Hset. intros [= <- _]. cbn. apply Hsame.
    pose proof (SetOption_applies_and_keeps_entries (w_port w) opt value SetOption GetError)
      as (_ & H & _).
    by rewrite Hset in H.
  - destruct (take_message i (w_posted w)) as [posted|]; [|done]. cbn.
    intros (e & p1 & e1 & Hi & Hm & ->)%on_entry_Some. cbn in *.
    pose proof (OnMessage_reconnected (w_port w) e factory) as Hrec.
    destruct (RelayEntry_OnMessage (w_port w) e factory) as [e2 eff2].
    injection Hm as <- <- <-. apply (Hone i e e2); [done| |done].
    by apply reconnected_transition.
  - intros (e & p1 & e1 & Hi & Hm & ->)%on_entry_Some. cbn in *.
    injection Hm as <- <- <-. apply (Hone i e e); [done| |done].
    apply reconnected_transition, reconnected_refl.
  - intros (e & p1 & e1 & Hi & Hm & ->)%on_entry_Some. cbn in *.
    unfold RelayEntry_OnSocketClose in Hm.
    pose proof (HandleConnectFailure_reconnected (w_port w) e (Some socket) factory) as Hrec.
    destruct (RelayEntry_HandleConnectFailure (w_port w) e (Some socket) factory) as [e2 eff2].
    injection Hm as <- <- <-. apply (Hone i e e2); [done| |done].
    by apply reconnected_transition.
  - intros (e & p1 & e1 & Hi & Hm & ->)%on_entry_Some. cbn in *.
    pose proof (OnReadPacket_transition (w_port w) e i socket data parsed check) as Htr.
    pose proof (OnReadPacket_same_entries (w_port w) e socket data parsed check) as (Hent & _).
    rewrite Hm in Htr, Hent. cbn in Htr, Hent. rewrite Hent.
    by apply (Hone i e e1).
  - intros (e & p1 & e1 & Hi & Hm & ->)%on_entry_Some. cbn in *.
    unfold AllocateRequest_OnTimeout in Hm.
    pose proof (HandleConnectFailure_reconnected (w_port w) e (Some socket) factory) as Hrec.
    destruct (RelayEntry_HandleConnectFailure (w_port w) e (Some socket) factory) as [e2 eff2].
    injection Hm as <- <- <-. apply (Hone i e e2); [done| |done].
    by apply reconnected_transition.
Qed.

Lemma transition_refl ev i e : entry_transition ev i e e.
Proof. apply reconnected_transition, reconnected_refl. Qed.

(** An entry that exists is still there after the event, at the same
    index, one transition later. *)
Lemma step_entry w ev w1 eff i e :
  step w ev = Some (w1, eff) →
  entries_ (w_port w) !! i = Some e →
  ∃ e1, entries_ (w_port w1) !! i = Some e1 ∧ entry_transition ev i e e1.
Proof.
  intros (upd & extra & -> & Hupd & _)%step_entries Hi.
  pose proof (lookup_lt_Some _ _ _ Hi) as Hlt.
  destruct upd as [[j e1]|]; cbn.
  - destruct (Hupd j e1 eq_refl) as (e0 & Hj & Htr).
    rewrite lookup_app_l by (by rewrite length_insert).
    destruct (decide (j = i)) as [->|Hne].
    + rewrite list_lookup_insert_eq by done. exists e1. split; [done|]. congruence.
    + rewrite list_lookup_insert_ne by done. exists e. split; [done|]. apply transition_refl.
  - rewrite lookup_app_l by done. exists e. split; [done|]. apply transition_refl.
Qed.

(** An entry that appears with the event is fresh. *)
Lemma step_fresh w ev w1 eff i e1 :
  step w ev = Some (w1, eff) →
  entries_ (w_port w) !! i = None →
  entries_ (w_port w1) !! i = Some e1 →
  fresh_entry e1.
Proof.
  intros (upd & extra & -> & _ & Hfresh)%step_entries Hnone Hi.
  apply lookup_ge_None in Hnone.
  assert (length (updated upd (entries_ (w_port w))) = length (entries_ (w_port w))) as Hlen.
  { destruct upd as [[j e2]|]; [apply length_insert|done]. }
  rewrite lookup_app_r in Hi by lia.
  by eapply Forall_lookup_1 in Hfresh.
Qed.

Lemma step_length w ev w1 eff :
  step w ev = Some (w1, eff) →
  (length (entries_ (w_port w)) ≤ length (entries_ (w_port w1)))%nat.
Proof.
  intros (upd & extra & -> & _ & _)%step_entries. rewrite length_app.
  destruct upd as [[j e2]|]; cbn; rewrite ?length_insert; lia.
Qed.

(** ** Invariants of an entry along a run *)

Lemma run_conn_ok evs w w1 trace :
  (∀ i e, entries_ (w_port w) !! i = Some e → conn_ok e) →
  run w evs = Some (w1, trace) →
  ∀ i e, entries_ (w_port w1) !! i = Some e → conn_ok e.
Proof.
  revert w trace. induction evs as [|ev rest IH]; intros w trace Hinv; cbn [run].
  - by intros [= <- _].
  - destruct (step w ev) as [[w2 eff]|] eqn:Hstep; [|done]. cbn.
    destruct (run w2 rest) as [[w3 trace2]|] eqn:Hrun; [|done]. cbn.
    intros [= <- _]. apply (IH w2 trace2); [|done].
    intros i e1 Hi.
    destruct (entries_ (w_port w) !! i) as [e|] eqn:Hold.
    + destruct (step_entry _ _ _ _ _ _ Hstep Hold) as (e1' & Hi' & _ & _ & _ & Hok & _).
      rewrite Hi in Hi'. injection Hi' as <-. by eapply Hok, Hinv.
    + destruct (step_fresh _ _ _ _ _ _ Hstep Hold Hi) as [Hconn _].
      unfold conn_ok. congruence.
Qed.

Lemma run_locked_bound evs w w1 trace :
  (∀ i e, entries_ (w_port w) !! i = Some e → locked_ e = true →
          connected_ e = true ∧ ext_addr_ e ≠ SocketAddress_nil) →
  grants_guarded w evs →
  run w evs = Some (w1, trace) →
  ∀ i e, entries_ (w_port w1) !! i = Some e → locked_ e = true →
         connected_ e = true ∧ ext_addr_ e ≠ SocketAddress_nil.
Proof.
  revert w trace. induction evs as [|ev rest IH]; intros w trace Hinv Hguard; cbn [run].
  - by intros [= <- _].
  - destruct Hguard as [Hev Hrest].
    destruct (step w ev) as [[w2 eff]|] eqn:Hstep; [|done]. cbn.
    destruct (run w2 rest) as [[w3 trace2]|] eqn:Hrun; [|done]. cbn.
    intros [= <- _]. apply (IH w2 trace2); [|done|done].
    intros i e1 Hi Hlocked.
    destruct (entries_ (w_port w) !! i) as [e|] eqn:Hold.
    + destruct (step_entry _ _ _ _ _ _ Hstep Hold)
        as (e1' & Hi' & Hconn & _ & Haddr & _ & Hgrant).
      rewrite Hi in Hi'. injection Hi' as <-.
      assert (connected_ e = true ∧ ext_addr_ e ≠ SocketAddress_nil) as [Hc Ha].
      { destruct (locked_ e) eqn:Hl; [by eapply Hinv|].
        apply (Hev i e); [by apply Hgrant|done]. }
      split; [by apply Hconn|]. by rewrite Haddr.
    + destruct (step_fresh _ _ _ _ _ _ Hstep Hold Hi) as [_ Hl]. congruence.
Qed.

(** C6 (amended): in every state a port reaches from its construction,
    under any sequence of calls, socket events, timers and inbound packets,
    an entry that is connected has a current connection.  An entry becomes
    locked whenever a SEND response with OPTIONS bit 0 is read on its
    current socket, whether or not it is connected or has an ext_addr; so a
    locked entry is connected and has a non-nil ext_addr in the runs where
    the server grants the lock only to an entry that is connected and has
    one. *)
Theorem entry_invariant_reachable proxy username evs w trace i e :
  run (World_new proxy username) evs = Some (w, trace) →
  entries_ (w_port w) !! i = Some e →
  (connected_ e = true → current_connection_ e ≠ None) ∧
  (grants_guarded (World_new proxy username) evs → entry_invariant e).
Proof.
  intros Hrun Hi.
  assert (conn_ok e) as Hok.
  { apply (run_conn_ok evs (World_new proxy username) w trace) with (i := i); [|done|done].
    intros [|j] e0; [|done]. by intros [= <-]. }
  assert (connected_ e = true → current_connection_ e ≠ None) as Hconn.
  { intros Hc Hnone. destruct (Hok Hc) as [c Hsome]. congruence. }
  split; [done|]. intros Hguard.
  assert (locked_ e = true → connected_ e = true ∧ ext_addr_ e ≠ SocketAddress_nil) as Hlock.
  { apply (run_locked_bound evs (World_new proxy username) w trace) with (i := i);
      [|done|done|done].
    intros [|j] e0; [|done]. by intros [= <-]. }
  unfold entry_invariant. split; [|split]; [|done|]; intros Hl; by apply Hlock.
Qed.

(** ** The ready flag along a run *)

Lemma quiet_app effs1 effs2 : quiet (effs1 ++ effs2) ↔ quiet effs1 ∧ quiet effs2.
Proof.
  unfold quiet. rewrite List.filter_app. split.
  - by intros [? ?]%app_eq_nil.
  - by intros [-> ->].
Qed.

Lemma quiet_Forall effs : Forall (λ eff, is_ready_effect eff = false) effs → quiet effs.
Proof. apply filter_none. Qed.

Lemma quiet_no_signal effs : quiet effs → List.filter is_address_ready effs = [].
Proof.
  unfold quiet. induction effs as [|eff effs IH]; [done|]. cbn.
  destruct eff; cbn; try done; auto.
Qed.

Lemma published_one_signal addrs :
  List.filter is_address_ready (published addrs) = [SignalAddressReady].
Proof.
  unfold published. rewrite List.filter_app. cbn.
  rewrite filter_none; [done|]. apply Forall_fmap, Forall_true. done.
Qed.

Lemma Connect_quiet p e factory : quiet (RelayEntry_Connect p e factory).2.
Proof.
  apply quiet_Forall. eapply Forall_impl; [|apply Connect_effects]. by intros [].
Qed.

Lemma HandleConnectFailure_quiet p e socket factory :
  quiet (RelayEntry_HandleConnectFailure p e socket factory).2.
Proof.
  unfold RelayEntry_HandleConnectFailure.
  destruct (match socket, current_connection_ e with
            | None, _ => true
            | Some s, Some c => bool_decide (s = socket_ c)
            | Some _, None => false
            end); [|done].
  pose proof (Connect_quiet p (set_server_index (server_index_ e + 1) e) factory) as H.
  destruct (RelayEntry_Connect p _ factory) as [e2 eff2]. cbn [snd] in *.
  apply quiet_app. split; [|done]. by destruct (current_connection_ e).
Qed.

Lemma OnMessage_quiet p e factory : quiet (RelayEntry_OnMessage p e factory).2.
Proof.
  unfold RelayEntry_OnMessage. destruct (current_connection_ e) as [c|].
  - pose proof (HandleConnectFailure_quiet p e (Some (socket_ c)) factory) as H.
    by destruct (RelayEntry_HandleConnectFailure p e _ factory).
  - apply HandleConnectFailure_quiet.
Qed.

Lemma ScheduleKeepAlive_quiet e : quiet (RelayEntry_ScheduleKeepAlive e).
Proof. unfold RelayEntry_ScheduleKeepAlive. by destruct (current_connection_ e). Qed.

Lemma OnResponse_ready p e response :
  ready_change p (AllocateRequest_OnResponse p e response).1.1
    (AllocateRequest_OnResponse p e response).2.
Proof.
  rewrite OnResponse_unfold. cbn zeta. cbn [fst snd].
  destruct (GetAddress response STUN_ATTR_MAPPED_ADDRESS) as [[[family ip] prt]|];
    [|left; split; [done|apply ScheduleKeepAlive_quiet]].
  case_bool_decide; [|left; split; [done|apply ScheduleKeepAlive_quiet]].
  unfold RelayEntry_OnConnect, RelayPort_SetReady.
  set (p1 := RelayPort_AddExternalAddress p _).
  assert (ready_ p1 = ready_ p) as Hready.
  { subst p1. unfold RelayPort_AddExternalAddress. by destruct (existsb _ _). }
  rewrite Hready. destruct (ready_ p) eqn:Hr; cbn [negb fst snd].
  - left. split; [congruence|]. apply quiet_app. split; [done|apply ScheduleKeepAlive_quiet].
  - right. split; [done|]. split; [done|].
    exists [set_related_address (mkSocketAddress ip prt)], (external_addr_ p1),
      (RelayEntry_ScheduleKeepAlive (set_connected true e)).
    split; [|split; [done|apply ScheduleKeepAlive_quiet]].
    reflexivity.
Qed.

Lemma OnReadPacket_ready p e socket data parsed check :
  ready_change p (RelayEntry_OnReadPacket p e socket data parsed check).1.1
    (RelayEntry_OnReadPacket p e socket data parsed check).2.
Proof.
  unfold RelayEntry_OnReadPacket.
  destruct (current_connection_ e) as [c|] eqn:Hc; [|by left].
  destruct (negb (bool_decide (socket = socket_ c))); [by left|].
  destruct (negb (HasMagicCookie data)); [destruct (locked_ e); by left|].
  destruct parsed as [msg|]; [|by left].
  destruct check as [| |elapsed].
  - repeat case_match; by left.
  - apply OnResponse_ready.
  - left. split; [done|]. unfold AllocateRequest_OnErrorResponse.
    destruct (elapsed <=? kRetryTimeout); [apply ScheduleKeepAlive_quiet|done].
Qed.

Lemma SendTo_search_effects p addr payload factory :
  Forall connect_effect
    (let '(found, entries1) := SendTo_find (entries_ p) addr payload in
     SendTo_create (set_entries entries1 p) found addr payload factory).2.
Proof.
  destruct (SendTo_find (entries_ p) addr payload) as [found entries1].
  unfold SendTo_create. destruct found as [i|]; [done|]. destruct payload; [|done].
  match goal with |- context [RelayEntry_Connect ?p0 ?e0 factory] =>
    pose proof (Connect_effects p0 e0 factory) as H;
    by destruct (RelayEntry_Connect p0 e0 factory)
  end.
Qed.

Lemma SetOption_quiet p opt value SetOption GetError :
  quiet (RelayPort_SetOption p opt value SetOption GetError).2 ∧
  ready_ (RelayPort_SetOption p opt value SetOption GetError).1.2 = ready_ p.
Proof.
  unfold RelayPort_SetOption. rewrite SetOption_loop_spec. cbn. split; [|done].
  apply quiet_Forall, Forall_fmap, Forall_true. done.
Qed.

(** An event other than [PrepareAddress] leaves the ready flag alone or
    makes the port ready, publishing once. *)
Lemma step_ready w ev w1 eff :
  step w ev = Some (w1, eff) →
  is_prepare ev = false →
  ready_change (w_port w) (w_port w1) eff.
Proof.
  destruct ev as [addr|addr|factory|data addr payload factory sent GetError
                 |opt value SetOption GetError|i factory|i socket|i socket error factory
                 |i socket data parsed check|i socket factory]; cbn [step is_prepare];
    [| |done|..]; intros Hstep _.
  - injection Hstep as <- <-. left. split; [|done].
    unfold RelayPort_AddServerAddress. cbn. by destruct (_ && _).
  - injection Hstep as <- <-. left. split; [|done].
    unfold RelayPort_AddExternalAddress. cbn. by destruct (existsb _ _).
  - destruct (RelayPort_SendTo (w_port w) data addr payload factory sent GetError)
      as [[[r p1] eff1]|] eqn:Hsend; [|done]. cbn in Hstep. injection Hstep as <- <-. cbn.
    destruct (SendTo_result _ _ _ _ _ _ _ _ _ _ Hsend)
      as (entry & p2 & eff2 & eff3 & z & Hsearch & -> & -> & Heff3).
    destruct (SendTo_search (w_port w) addr payload factory)
      as (entry' & p2' & eff2' & Hsearch' & Hp2 & _).
    pose proof (SendTo_search_effects (w_port w) addr payload factory) as Heff2.
    rewrite Hsearch in Hsearch', Heff2. injection Hsearch' as <- <- <-.
    left. split; [by rewrite Hp2|]. apply quiet_app. split.
    + apply quiet_Forall. eapply Forall_impl; [|exact Heff2]. by intros [].
    + by destruct Heff3 as [->|(s & pkt & dest & ->)].
  - pose proof (SetOption_quiet (w_port w) opt value SetOption GetError) as [Hq Hr].
    destruct (RelayPort_SetOption (w_port w) opt value SetOption GetError) as [[r p1] eff1].
    injection Hstep as <- <-. by left.
  - destruct (take_message i (w_posted w)) as [posted|]; [|done]. cbn in Hstep.
    apply on_entry_Some in Hstep as (e & p1 & e1 & Hi & Hm & ->). cbn in *.
    pose proof (OnMessage_quiet (w_port w) e factory) as Hq.
    destruct (RelayEntry_OnMessage (w_port w) e factory) as [e2 eff2].
    injection Hm as <- <- <-. by left.
  - apply on_entry_Some in Hstep as (e & p1 & e1 & Hi & Hm & ->). cbn in *.
    injection Hm as <- <- <-. left. split; [done|].
    unfold RelayEntry_OnSocketConnect. by destruct (current_connection_ e).
  - apply on_entry_Some in Hstep as (e & p1 & e1 & Hi & Hm & ->). cbn in *.
    unfold RelayEntry_OnSocketClose in Hm.
    pose proof (HandleConnectFailure_quiet (w_port w) e (Some socket) factory) as Hq.
    destruct (RelayEntry_HandleConnectFailure (w_port w) e (Some socket) factory) as [e2 eff2].
    injection Hm as <- <- <-. by left.
  - apply on_entry_Some in Hstep as (e & p1 & e1 & Hi & Hm & ->). cbn in *.
    pose proof (OnReadPacket_ready (w_port w) e socket data parsed check) as Hr.
    by rewrite Hm in Hr.
  - apply on_entry_Some in Hstep as (e & p1 & e1 & Hi & Hm & ->). cbn in *.
    unfold AllocateRequest_OnTimeout in Hm.
    pose proof (HandleConnectFailure_quiet (w_port w) e (Some socket) factory) as Hq.
    destruct (RelayEntry_HandleConnectFailure (w_port w) e (Some socket) factory) as [e2 eff2].
    injection Hm as <- <- <-. by left.
Qed.

Lemma step_ready_trace w ev w1 eff trace :
  step w ev = Some (w1, eff) →
  is_prepare ev = false →
  ready_trace (ready_ (w_port w)) trace →
  ready_trace (ready_ (w_port w1)) (trace ++ eff).
Proof.
  intros Hstep Hev Htrace.
  destruct (step_ready w ev w1 eff Hstep Hev)
    as [[-> Hq]|(Hr & -> & before & addrs & after & -> & Hb & Ha)].
  - unfold ready_trace in *. destruct (ready_ (w_port w)).
    + destruct Htrace as (before & addrs & after & -> & Hb & Ha).
      exists before, addrs, (after ++ eff). split; [by rewrite <- !app_assoc|].
      split; [done|]. by apply quiet_app.
    + by apply quiet_app.
  - rewrite Hr in Htrace. cbn in Htrace. cbn.
    exists (trace ++ before), addrs, after. split; [by rewrite <- !app_assoc|].
    split; [by apply quiet_app|done].
Qed.

(** ** Before and after PrepareAddress *)

Lemma SendTo_select_inr p entry e :
  SendTo_select p entry = Some (inr e) →
  connected_ e = true ∧ ∃ i, entries_ p !! i = Some e.
Proof.
  unfold SendTo_select.
  assert (match entries_ p !! 0%nat with
          | Some first => if negb (connected_ first) then Some (inl ()) else Some (inr first)
          | None => None
          end = Some (inr e) → connected_ e = true ∧ ∃ i, entries_ p !! i = Some e) as Hfirst.
  { destruct (entries_ p !! 0%nat) as [first|] eqn:H0; [|done].
    destruct (connected_ first) eqn:Hc; [|done]. intros [= <-]. eauto. }
  destruct entry as [i|]; cbn; [|done].
  destruct (entries_ p !! i) as [e0|] eqn:Hi; cbn; [|done].
  destruct (connected_ e0) eqn:Hc; [|done]. intros [= <-]. eauto.
Qed.

(** With no connected entry, [RelayPort::SendTo] stops at EWOULDBLOCK. *)
Lemma SendTo_unconnected p data addr payload factory sent GetError r p1 eff entry p2 eff2 :
  RelayPort_SendTo p data addr payload factory sent GetError = Some (r, p1, eff) →
  (let '(found, entries1) := SendTo_find (entries_ p) addr payload in
   SendTo_create (set_entries entries1 p) found addr payload factory) = (entry, p2, eff2) →
  Forall (λ e, connected_ e = false) (entries_ p2) →
  p1 = set_error EWOULDBLOCK p2 ∧ eff = eff2.
Proof.
  unfold RelayPort_SendTo.
  destruct (SendTo_find (entries_ p) addr payload) as [found entries1].
  intros Hsend Hsearch Hall. rewrite Hsearch in Hsend.
  destruct (SendTo_select p2 entry) as [[[]|e]|] eqn:Hsel; [|exfalso|done].
  - by injection Hsend as <- <- <-.
  - apply SendTo_select_inr in Hsel as [Hc [i Hi]].
    eapply Forall_lookup_1 in Hall; [|exact Hi]. cbn in Hall. congruence.
Qed.

Lemma HandleConnectFailure_idle p e socket factory :
  current_connection_ e = None →
  RelayEntry_HandleConnectFailure p e (Some socket) factory = (e, []).
Proof. intros Hc. unfold RelayEntry_HandleConnectFailure. by rewrite Hc. Qed.

Lemma OnReadPacket_idle p e socket data parsed check :
  current_connection_ e = None →
  RelayEntry_OnReadPacket p e socket data parsed check = (p, e, []).
Proof. intros Hc. unfold RelayEntry_OnReadPacket. by rewrite Hc. Qed.

Lemma set_entries_same p : set_entries (entries_ p) p = p.
Proof. by destruct p. Qed.

(** Before [PrepareAddress], as long as the port has its one entry, that
    entry stays without a connection and nothing is published. *)
Lemma step_idle w ev w1 eff :
  idle w →
  step w ev = Some (w1, eff) →
  is_prepare ev = false →
  length (entries_ (w_port w1)) = 1%nat →
  idle w1 ∧ quiet eff.
Proof.
  intros (e0 & Hentries & Hcc & Hconn & Hready & Hposted) Hstep Hev Hlen.
  assert (idle w1) as Hidle; [|split; [done|]].
  2: { destruct (step_ready w ev w1 eff Hstep Hev) as [[_ Hq]|(_ & Hr & _)]; [done|].
       destruct Hidle as (e1 & _ & _ & _ & Hr1 & _). congruence. }
  assert (∀ i e, entries_ (w_port w) !! i = Some e → i = 0%nat ∧ e = e0) as Honly.
  { intros i e. rewrite Hentries. destruct i as [|i]; [|done]. by intros [= <-]. }
  destruct ev as [addr|addr|factory|data addr payload factory sent GetError
                 |opt value SetOption GetError|i factory|i socket|i socket error factory
                 |i socket data parsed check|i socket factory]; cbn [step is_prepare] in *;
    [| |done|..].
  - injection Hstep as <- <-. exists e0. unfold RelayPort_AddServerAddress. cbn.
    by destruct (_ && _).
  - injection Hstep as <- <-. exists e0. unfold RelayPort_AddExternalAddress. cbn.
    by destruct (existsb _ _).
  - destruct (RelayPort_SendTo (w_port w) data addr payload factory sent GetError)
      as [[[r p1] eff1]|] eqn:Hsend; [|done]. cbn in Hstep. injection Hstep as <- <-.
    cbn in Hlen |- *.
    destruct (SendTo_result _ _ _ _ _ _ _ _ _ _ Hsend)
      as (entry & p2 & eff2 & eff3 & z & Hsearch & -> & _ & _).
    destruct (SendTo_search (w_port w) addr payload factory)
      as (entry' & p2' & eff2' & Hsearch' & Hp2 & _ & Hchosen).
    rewrite Hsearch in Hsearch'. injection Hsearch' as <- <- <-. cbn in Hlen.
    assert (∃ e1, entries_ p2 = [e1] ∧ current_connection_ e1 = None ∧
                  connected_ e1 = false ∧ eff2 = []) as (e1 & Hp2e & Hcc1 & Hconn1 & ->).
    { destruct (SendTo_chosen (w_port w) addr payload) as [e|].
      - destruct Hchosen as (i & _ & Hi & Hent & ->).
        destruct (Honly i e Hi) as [-> ->]. rewrite Hentries in Hent.
        by exists (set_ext_addr addr e0).
      - destruct Hchosen as [(_ & Hent & ->)|(e2 & _ & Hent & _)].
        + exists e0. by rewrite Hent.
        + rewrite Hent, length_app, Hentries in Hlen. cbn in Hlen. lia. }
    destruct (SendTo_unconnected _ _ _ _ _ _ _ _ _ _ _ _ _ Hsend Hsearch) as [Hp1 ->].
    { rewrite Hp2e. by repeat constructor. }
    exists e1. rewrite Hp2. cbn. by rewrite Hp2e, Hposted.
  - pose proof (SetOption_applies_and_keeps_entries (w_port w) opt value SetOption GetError)
      as (Heff & Hent & Hr).
    destruct (RelayPort_SetOption (w_port w) opt value SetOption GetError) as [[r p1] eff1].
    injection Hstep as <- <-. cbn in *. exists e0. cbn. by rewrite Hent, Hr.
  - by rewrite Hposted in Hstep.
  - apply on_entry_Some in Hstep as (e & p1 & e1 & Hi & Hm & ->). cbn in *.
    destruct (Honly i e Hi) as [-> ->].
    unfold RelayEntry_OnSocketConnect in Hm. rewrite Hcc in Hm.
    injection Hm as <- <- <-. exists e0. cbn. by rewrite Hentries, Hposted.
  - apply on_entry_Some in Hstep as (e & p1 & e1 & Hi & Hm & ->). cbn in *.
    destruct (Honly i e Hi) as [-> ->].
    unfold RelayEntry_OnSocketClose in Hm. rewrite HandleConnectFailure_idle in Hm by done.
    injection Hm as <- <- <-. exists e0. cbn. by rewrite Hentries, Hposted.
  - apply on_entry_Some in Hstep as (e & p1 & e1 & Hi & Hm & ->). cbn in *.
    destruct (Honly i e Hi) as [-> ->].
    rewrite OnReadPacket_idle in Hm by done.
    injection Hm as <- <- <-. exists e0. cbn. by rewrite Hentries, Hposted.
  - apply on_entry_Some in Hstep as (e & p1 & e1 & Hi & Hm & ->). cbn in *.
    destruct (Honly i e Hi) as [-> ->].
    unfold AllocateRequest_OnTimeout in Hm. rewrite HandleConnectFailure_idle in Hm by done.
    injection Hm as <- <- <-. exists e0. cbn. by rewrite Hentries, Hposted.
Qed.

Lemma step_prepare w factory w1 eff :
  step w (CallPrepareAddress factory) = Some (w1, eff) →
  length (entries_ (w_port w)) = 1%nat ∧ ready_ (w_port w1) = false ∧ quiet eff.
Proof.
  cbn [step]. unfold RelayPort_PrepareAddress.
  destruct (entries_ (w_port w)) as [|e [|]]; [done| |done].
  pose proof (Connect_quiet (w_port w) e factory) as Hq.
  destruct (RelayEntry_Connect (w_port w) e factory) as [e1 eff1]. cbn.
  by intros [= <- <-].
Qed.

Lemma phase_step n w ev w1 eff trace :
  phase n w trace →
  step w ev = Some (w1, eff) →
  phase (n + (if is_prepare ev then 1 else 0)) w1 (trace ++ eff).
Proof.
  intros Hphase Hstep. destruct (is_prepare ev) eqn:Hev.
  - destruct ev; try done. apply step_prepare in Hstep as (Hlen & Hready & Hq).
    destruct n as [|[|n]]; cbn; [|done|done].
    destruct Hphase as [_ Hidle]. destruct (Hidle Hlen) as [_ Hquiet].
    rewrite Hready. cbn. by apply quiet_app.
  - rewrite Nat.add_0_r. destruct n as [|[|n]]; cbn in *; [| |done].
    + destruct Hphase as [Hne Hidle].
      pose proof (step_length _ _ _ _ Hstep) as Hlen.
      assert (0 < length (entries_ (w_port w)))%nat as Hpos
        by (destruct (entries_ (w_port w)); [done|cbn; lia]).
      split; [intros Hnil; rewrite Hnil in Hlen; cbn in Hlen; lia|].
      intros Hlen1. destruct Hidle as [Hidle Hquiet]; [lia|].
      destruct (step_idle _ _ _ _ Hidle Hstep Hev Hlen1) as [Hidle1 Hq].
      split; [done|]. by apply quiet_app.
    + by eapply step_ready_trace.
Qed.

Lemma run_phase evs n w w1 trace0 trace :
  phase n w trace0 →
  run w evs = Some (w1, trace) →
  phase (n + length (List.filter is_prepare evs)) w1 (trace0 ++ trace).
Proof.
  revert n w trace0 trace. induction evs as [|ev rest IH]; intros n w trace0 trace Hphase;
    cbn [run List.filter].
  - intros [= <- <-]. by rewrite Nat.add_0_r, app_nil_r.
  - destruct (step w ev) as [[w2 eff]|] eqn:Hstep; [|done]. cbn.
    destruct (run w2 rest) as [[w3 trace2]|] eqn:Hrun; [|done]. cbn.
    intros [= <- <-].
    pose proof (phase_step _ _ _ _ _ _ Hphase Hstep) as Hphase2.
    specialize (IH _ _ _ _ Hphase2 Hrun). rewrite <- app_assoc in IH.
    destruct (is_prepare ev); cbn [length] in *; [|by rewrite Nat.add_0_r in IH].
    by replace (n + S (length (List.filter is_prepare rest)))%nat
      with (n + 1 + length (List.filter is_prepare rest))%nat by lia.
Qed.

Lemma SetReady_idempotent p : ready_ p = true → RelayPort_SetReady p = (p, []).
Proof. intros Hr. unfold RelayPort_SetReady. by rewrite Hr. Qed.

(** C5: along every run of a port from its construction in which
    PrepareAddress is called exactly once, the address-ready signal is
    emitted at most once, and candidates are published only by the one
    SetReady call that emits it: the trace either has no AddAddress and no
    signal at all, or it has a single block made of the external addresses
    published as candidates followed by the signal, with neither before nor
    after it.  SetReady on a port that is ready changes nothing and emits
    nothing. *)
Theorem address_ready_once proxy username evs w trace :
  run (World_new proxy username) evs = Some (w, trace) →
  length (List.filter is_prepare evs) = 1%nat →
  (length (List.filter is_address_ready trace) ≤ 1)%nat ∧
  (quiet trace ∨
   ∃ before addrs after,
     trace = before ++ published addrs ++ after ∧ quiet before ∧ quiet after) ∧
  (∀ p, ready_ p = true → RelayPort_SetReady p = (p, [])).
Proof.
  intros Hrun Hone.
  assert (phase 0 (World_new proxy username) []) as Hstart.
  { split; [done|]. intros _. split; [|done]. by eexists. }
  pose proof (run_phase evs 0 _ _ [] _ Hstart Hrun) as Hphase.
  rewrite Hone in Hphase. cbn in Hphase.
  assert (quiet trace ∨
          ∃ before addrs after,
            trace = before ++ published addrs ++ after ∧ quiet before ∧ quiet after) as Hshape.
  { unfold ready_trace in Hphase. destruct (ready_ (w_port w)); [by right|by left]. }
  split; [|split; [done|apply SetReady_idempotent]].
  destruct Hshape as [Hq|(before & addrs & after & -> & Hb & Ha)].
  - rewrite quiet_no_signal by done. cbn. lia.
  - rewrite !List.filter_app, published_one_signal, !quiet_no_signal by done. cbn. lia.
Qed.

(** ** The server list and the external addresses *)

(** X1: RelayPort::AddServerAddress and RelayPort::ServerAddress.  An
    SSLTCP address added behind an HTTPS or unknown proxy becomes server 0
    and moves every server already listed one index up; any other address
    goes to the end and leaves the indices of the others alone.  Either way
    the list grows by one and ServerAddress is NULL exactly from the new
    length on. *)
Theorem AddServerAddress_priority p addr :
  let p1 := RelayPort_AddServerAddress p addr in
  (promoted p addr →
     RelayPort_ServerAddress p1 0 = Some addr ∧
     ∀ i, RelayPort_ServerAddress p1 (S i) = RelayPort_ServerAddress p i) ∧
  (¬ promoted p addr →
     RelayPort_ServerAddress p1 (length (server_addr_ p)) = Some addr ∧
     ∀ i, (i < length (server_addr_ p))%nat →
          RelayPort_ServerAddress p1 i = RelayPort_ServerAddress p i) ∧
  (∀ i, RelayPort_ServerAddress p1 i = None ↔ (S (length (server_addr_ p)) ≤ i)%nat) ∧
  set_server_addr (server_addr_ p) p1 = p.
Proof.
  cbn zeta. unfold RelayPort_AddServerAddress, RelayPort_ServerAddress, promoted.
  destruct (bool_decide (proto addr = PROTO_SSLTCP) &&
            (bool_decide (proxy_type p = PROXY_HTTPS) ||
             bool_decide (proxy_type p = PROXY_UNKNOWN))) eqn:Hfront.
  - apply andb_true_iff in Hfront as [Hp%bool_decide_eq_true Hx%orb_true_iff].
    split; [done|]. split; [|split].
    + intros Hn. exfalso. apply Hn. split; [done|].
      destruct Hx as [?%bool_decide_eq_true|?%bool_decide_eq_true]; auto.
    + intros i. cbn. rewrite lookup_ge_None. cbn. lia.
    + by destruct p.
  - split; [|split; [|split]].
    + intros [Hp Hx]. exfalso. apply andb_false_iff in Hfront as [H|H].
      * by apply bool_decide_eq_false in H.
      * apply orb_false_iff in H as [H1%bool_decide_eq_false H2%bool_decide_eq_false].
        by destruct Hx.
    + intros _. cbn. split.
      * by rewrite lookup_app_r, Nat.sub_diag by done.
      * intros i Hi. by rewrite lookup_app_l.
    + intros i. cbn. rewrite lookup_ge_None, length_app. cbn. lia.
    + by destruct p.
Qed.

Lemma AddExternalAddress_existsb (l : list ProtocolAddress) (addr : ProtocolAddress) :
  existsb (λ it, bool_decide (address it = address addr) && bool_decide (proto it = proto addr)) l
    = bool_decide (addr ∈ l).
Proof.
  induction l as [|it rest IH]; cbn [existsb].
  - symmetry. apply bool_decide_eq_false, not_elem_of_nil.
  - rewrite IH. destruct (decide (addr = it)) as [->|Hne].
    + rewrite (bool_decide_eq_true_2 (it ∈ it :: rest)) by left.
      by rewrite (bool_decide_eq_true_2 (address it = address it)),
        (bool_decide_eq_true_2 (proto it = proto it)).
    + assert (bool_decide (address it = address addr) && bool_decide (proto it = proto addr)
              = false) as ->.
      { clear IH. destruct it, addr; cbn in *. repeat case_bool_decide; try done.
        subst. by destruct Hne. }
      cbn. apply bool_decide_ext. rewrite elem_of_cons.
      split; [by right|]. by intros [?|?].
Qed.

Lemma AddExternalAddress_unfold p addr :
  RelayPort_AddExternalAddress p addr =
    if bool_decide (addr ∈ external_addr_ p) then p
    else set_external_addr (external_addr_ p ++ [addr]) p.
Proof. unfold RelayPort_AddExternalAddress. by rewrite AddExternalAddress_existsb. Qed.

Lemma AddExternalAddress_elem p addr :
  addr ∈ external_addr_ (RelayPort_AddExternalAddress p addr).
Proof.
  rewrite AddExternalAddress_unfold. case_bool_decide; [done|]. cbn.
  rewrite elem_of_app, list_elem_of_singleton. by right.
Qed.

Lemma AddExternalAddress_NoDup p addr :
  NoDup (external_addr_ p) → NoDup (external_addr_ (RelayPort_AddExternalAddress p addr)).
Proof.
  rewrite AddExternalAddress_unfold. case_bool_decide as Hin; [done|]. cbn.
  intros Hnd. apply list.NoDup_app. split_and!; [done| |apply list.NoDup_singleton].
  by intros x Hx ->%list_elem_of_singleton.
Qed.

(** X2: RelayPort::AddExternalAddress keeps external_addr_ a duplicate-free
    list in first-come order.  An address that is already listed, with the
    same protocol, leaves the port as it is; any other is appended.  So the
    address is listed afterwards, a list without duplicates stays without
    duplicates, a second call with the same address changes nothing, and no
    other field of the port is touched. *)
Theorem AddExternalAddress_set p addr :
  let p1 := RelayPort_AddExternalAddress p addr in
  external_addr_ p1 =
    (if bool_decide (addr ∈ external_addr_ p) then external_addr_ p
     else external_addr_ p ++ [addr]) ∧
  addr ∈ external_addr_ p1 ∧
  (NoDup (external_addr_ p) → NoDup (external_addr_ p1)) ∧
  RelayPort_AddExternalAddress p1 addr = p1 ∧
  set_external_addr (external_addr_ p) p1 = p.
Proof.
  cbn zeta. split_and!.
  - rewrite AddExternalAddress_unfold. by case_bool_decide.
  - apply AddExternalAddress_elem.
  - apply AddExternalAddress_NoDup.
  - rewrite (AddExternalAddress_unfold (RelayPort_AddExternalAddress p addr)).
    by rewrite bool_decide_eq_true_2 by apply AddExternalAddress_elem.
  - rewrite AddExternalAddress_unfold. case_bool_decide; by destruct p.
Qed.

(** ** RelayPort::CreateConnection *)

Lemma CreateConnection_index_spec (Candidates : list Candidate) (address : Candidate) (i : nat) :
  (∃ k local, CreateConnection_index Candidates address i = (i + k)%nat ∧
     Candidates !! k = Some local ∧ protocol local = protocol address ∧
     ∀ j local', (j < k)%nat → Candidates !! j = Some local' →
                 protocol local' ≠ protocol address) ∨
  (CreateConnection_index Candidates address i = 0%nat ∧
   Forall (λ local, protocol local ≠ protocol address) Candidates).
Proof.
  revert i. induction Candidates as [|local rest IH]; intros i; cbn [CreateConnection_index].
  - right. by split.
  - case_bool_decide as Heq.
    + left. exists 0%nat, local. split_and!; [lia|done|done|]. intros j local' Hj. lia.
    + destruct (IH (S i)) as [(k & local0 & Hk & Hl & Hp & Hfirst)|[H0 Hall]].
      * left. exists (S k), local0. split_and!; [lia|done|done|].
        intros [|j] local' Hj; cbn; [by intros [= <-]|]. apply Hfirst. lia.
      * right. split; [done|]. by apply Forall_cons_2.
Qed.

(** X3: RelayPort::CreateConnection.  A connection is made exactly when the
    remote candidate is udp or comes from this port, is not itself a relay
    candidate, and has a compatible address.  The connection made keeps the
    remote candidate and names the first local candidate that has the
    remote's protocol; when no local candidate has it (also when there is
    no local candidate at all) it names index 0. *)
Theorem CreateConnection_local_candidate Candidates IsCompatibleAddress address origin :
  let conn := RelayPort_CreateConnection Candidates IsCompatibleAddress address origin in
  (is_Some conn ↔
     (protocol address = udp ∨ origin = ORIGIN_THIS_PORT) ∧
     candidate_type address ≠ RELAY_PORT_TYPE ∧
     IsCompatibleAddress (candidate_address address) = true) ∧
  (∀ c, conn = Some c →
     remote_candidate c = address ∧
     ((∃ local, Candidates !! local_candidate_index c = Some local ∧
                protocol local = protocol address ∧
                ∀ j local', (j < local_candidate_index c)%nat →
                            Candidates !! j = Some local' →
                            protocol local' ≠ protocol address) ∨
      (local_candidate_index c = 0%nat ∧
       ∀ local, local ∈ Candidates → protocol local ≠ protocol address))).
Proof.
  cbn zeta. unfold RelayPort_CreateConnection. split.
  - split.
    + intros Hsome.
      case_bool_decide as Hudp; case_bool_decide as Horigin; cbn in Hsome;
        try (by destruct Hsome);
        (case_bool_decide as Htype; [by destruct Hsome|]);
        (destruct (IsCompatibleAddress (candidate_address address)); [|by destruct Hsome]);
        split_and!; auto.
    + intros ([Hudp|Horigin] & Htype & ->).
      * rewrite (bool_decide_eq_true_2 _ Hudp), (bool_decide_eq_false_2 _ Htype). by cbn.
      * rewrite (bool_decide_eq_true_2 _ Horigin), (bool_decide_eq_false_2 _ Htype).
        rewrite andb_false_r. by cbn.
  - intros c Hc.
    assert (c = mkProxyConnection (CreateConnection_index Candidates address 0) address)
      as -> by (repeat case_match; congruence).
    split; [done|]. cbn.
    destruct (CreateConnection_index_spec Candidates address 0)
      as [(k & local & -> & Hl & Hp & Hfirst)|[-> Hall]].
    + left. by exists local.
    + right. split; [done|]. by apply list.Forall_forall.
Qed.

(** ** RelayEntry::Connect and the failure handlers *)

Lemma Connect_new_socket p e ra socket :
  connected_ e = false →
  RelayPort_ServerAddress p (server_index_ e) = Some ra →
  RelayEntry_Connect p e (Some socket) =
    (set_current_connection (Some (mkRelayConnection socket ra)) e,
     match current_connection_ e with Some c => [Dispose (socket_ c)] | None => [] end
     ++ ((λ o : OptionValue, SocketSetOption socket o.1 o.2) <$> options_ p)
     ++ (if bool_decide (proto ra = PROTO_TCP) || bool_decide (proto ra = PROTO_SSLTCP)
         then [PostDelayed kSoftConnectTimeoutMs kMessageConnectTimeout]
         else [SendAllocateRequest socket 0])).
Proof.
  intros Hconn Hra. unfold RelayEntry_Connect. rewrite Hconn, Hra.
  by destruct (current_connection_ e).
Qed.

Lemma Connect_no_socket p e ra :
  connected_ e = false →
  RelayPort_ServerAddress p (server_index_ e) = Some ra →
  RelayEntry_Connect p e None =
    (set_current_connection None e,
     match current_connection_ e with Some c => [Dispose (socket_ c)] | None => [] end
     ++ [Post kMessageConnectTimeout]).
Proof.
  intros Hconn Hra. unfold RelayEntry_Connect. rewrite Hconn, Hra.
  destruct (current_connection_ e) eqn:Hc; [done|]. cbn. by destruct e; cbn in *; subst.
Qed.

Lemma Connect_stays p e factory :
  connected_ e = true ∨ RelayPort_ServerAddress p (server_index_ e) = None →
  RelayEntry_Connect p e factory = (e, []).
Proof.
  unfold RelayEntry_Connect. intros [-> | Hra]; [done|]. rewrite Hra.
  by destruct (connected_ e).
Qed.

Lemma socket_options_fmap socket (options : list OptionValue) :
  socket_options socket ((λ o : OptionValue, SocketSetOption socket o.1 o.2) <$> options)
    = options.
Proof.
  unfold socket_options. induction options as [|[opt value] rest IH]; [done|].
  cbn. rewrite bool_decide_eq_true_2 by done. cbn. f_equal. exact IH.
Qed.

Lemma socket_options_app socket (effs1 effs2 : list Effect) :
  socket_options socket (effs1 ++ effs2)
    = socket_options socket effs1 ++ socket_options socket effs2.
Proof. apply omap_app. Qed.

Lemma socket_options_none socket (effs : list Effect) :
  Forall (λ eff, match eff with SocketSetOption _ _ _ => False | _ => True end) effs →
  socket_options socket effs = [].
Proof.
  unfold socket_options. induction 1 as [|eff l Heff _ IH]; [done|].
  cbn. rewrite IH. by destruct eff.
Qed.

(** X4: RelayPort::SetOption and RelayEntry::Connect.  The options set on
    the port are replayed on every socket opened later: when an entry that
    is not connected opens a socket for its server after SetOption(opt,
    value), the options applied to that socket are the ones the port had,
    in the order they were set, followed by (opt, value).  What the
    sockets answered to SetOption plays no part in it. *)
Theorem SetOption_reaches_new_socket p e ra socket opt value SetOption GetError :
  connected_ e = false →
  RelayPort_ServerAddress p (server_index_ e) = Some ra →
  socket_options socket
    (RelayEntry_Connect (RelayPort_SetOption p opt value SetOption GetError).1.2 e
       (Some socket)).2
  = options_ p ++ [(opt, value)].
Proof.
  intros Hconn Hra.
  assert (RelayPort_ServerAddress (RelayPort_SetOption p opt value SetOption GetError).1.2
            (server_index_ e) = Some ra ∧
          options_ (RelayPort_SetOption p opt value SetOption GetError).1.2
            = options_ p ++ [(opt, value)]) as [Hra1 Hopts].
  { unfold RelayPort_SetOption.
    by destruct (SetOption_loop (entries_ p) opt value SetOption GetError 0 (error_ p))
      as [[result error] eff]. }
  rewrite (Connect_new_socket _ e ra socket Hconn Hra1), Hopts. cbn [snd].
  rewrite !socket_options_app, socket_options_fmap.
  rewrite !socket_options_none, app_nil_r; [done| |].
  - destruct (_ || _); by repeat constructor.
  - destruct (current_connection_ e); by repeat constructor.
Qed.

Lemma HandleConnectFailure_current p e socket factory :
  match socket, current_connection_ e with
  | None, _ => True
  | Some s, Some c => s = socket_ c
  | Some _, None => False
  end →
  RelayEntry_HandleConnectFailure p e socket factory =
    ((RelayEntry_Connect p (set_server_index (S (server_index_ e)) e) factory).1,
     match current_connection_ e with
     | Some c => [SignalConnectFailure (protocol_address_ c)]
     | None => []
     end ++ (RelayEntry_Connect p (set_server_index (S (server_index_ e)) e) factory).2).
Proof.
  intros Hcur. unfold RelayEntry_HandleConnectFailure. rewrite Nat.add_1_r.
  assert (match socket, current_connection_ e with
          | None, _ => true
          | Some s, Some c => bool_decide (s = socket_ c)
          | Some _, None => false
          end = true) as ->.
  { destruct socket, (current_connection_ e); try done. by apply bool_decide_eq_true_2. }
  by destruct (RelayEntry_Connect p _ factory).
Qed.

Lemma HandleConnectFailure_stale p e socket factory :
  stale_socket e socket →
  RelayEntry_HandleConnectFailure p e (Some socket) factory = (e, []).
Proof.
  intros Hstale. unfold RelayEntry_HandleConnectFailure.
  destruct (current_connection_ e) as [c|] eqn:Hc; [|done].
  by rewrite bool_decide_eq_false_2 by (by apply Hstale).
Qed.

(** X5: RelayEntry::OnMessage, the kMessageConnectTimeout handler, on an
    entry that has a connection.  It always signals the soft timeout and
    the connect failure for the connection's server and moves server_index
    one up.  When the entry is connected, or when there is no further server
    address, that is all: the connection stays and nothing is posted, so
    the connection is given more time.  Otherwise the connection is
    disposed of and the next server is tried: with a socket the new
    connection is to that server, without one the entry has no connection
    and another kMessageConnectTimeout is posted. *)
Theorem OnMessage_keeps_or_moves p e c factory :
  current_connection_ e = Some c →
  let e1 := (RelayEntry_OnMessage p e factory).1 in
  let eff := (RelayEntry_OnMessage p e factory).2 in
  server_index_ e1 = S (server_index_ e) ∧
  (∃ rest, eff = SignalSoftTimeout (protocol_address_ c)
                   :: SignalConnectFailure (protocol_address_ c) :: rest) ∧
  (connected_ e = true ∨ RelayPort_ServerAddress p (S (server_index_ e)) = None →
     e1 = set_server_index (S (server_index_ e)) e ∧
     eff = [SignalSoftTimeout (protocol_address_ c);
            SignalConnectFailure (protocol_address_ c)]) ∧
  (∀ ra, connected_ e = false →
     RelayPort_ServerAddress p (S (server_index_ e)) = Some ra →
     Dispose (socket_ c) ∈ eff ∧
     match factory with
     | Some socket => current_connection_ e1 = Some (mkRelayConnection socket ra)
     | None => current_connection_ e1 = None ∧
               list.last eff = Some (Post kMessageConnectTimeout)
     end).
Proof.
  intros Hc. cbn zeta. unfold RelayEntry_OnMessage. rewrite Hc.
  rewrite HandleConnectFailure_current by (by rewrite Hc). rewrite Hc. cbn [fst snd app].
  set (e' := set_server_index (S (server_index_ e)) e).
  split_and!.
  - unfold RelayEntry_Connect.
    destruct (connected_ e'); [done|].
    destruct (RelayPort_ServerAddress p (server_index_ e')); [|done].
    by destruct (current_connection_ e'), factory.
  - by eexists.
  - intros Hstay. by rewrite (Connect_stays p e' factory).
  - intros ra Hconn Hra. destruct factory as [socket|].
    + rewrite (Connect_new_socket p e' ra socket) by done. cbn. rewrite Hc.
      split; [|done]. do 2 right. by left.
    + rewrite (Connect_no_socket p e' ra) by done. cbn. rewrite Hc.
      split; [|done]. do 2 right. by left.
Qed.

(** ** Signals of a socket that is not the current one *)

Lemma on_entry_unchanged w i e method :
  entries_ (w_port w) !! i = Some e →
  method (w_port w) e = (w_port w, e, []) →
  on_entry w i method = Some (w, []).
Proof.
  intros Hi Hm. unfold on_entry. rewrite Hi. cbn. rewrite Hm.
  rewrite list_insert_id by done. cbn. rewrite app_nil_r.
  by destruct w as [[] ?].
Qed.

(** X6: the guard of RelayEntry::HandleConnectFailure and of
    RelayEntry::OnReadPacket.  A close signal, a timed-out Allocate request
    or a packet that comes from a socket other than the one of the entry's
    current connection (a socket that was disposed of, or any socket when
    the entry has no connection) is dropped: the port, its entries and the
    message queue stay as they are and nothing is sent, posted or
    signalled. *)
Theorem stale_socket_ignored w i e socket :
  entries_ (w_port w) !! i = Some e →
  stale_socket e socket →
  (∀ error factory, step w (SocketClose i socket error factory) = Some (w, [])) ∧
  (∀ factory, step w (AllocateTimeout i socket factory) = Some (w, [])) ∧
  (∀ data parsed check, step w (ReadPacket i socket data parsed check) = Some (w, [])).
Proof.
  intros Hi Hstale. split_and!.
  - intros error factory. cbn [step]. apply (on_entry_unchanged w i e); [done|].
    unfold RelayEntry_OnSocketClose. by rewrite HandleConnectFailure_stale.
  - intros factory. cbn [step]. apply (on_entry_unchanged w i e); [done|].
    unfold AllocateRequest_OnTimeout. by rewrite HandleConnectFailure_stale.
  - intros data parsed check. cbn [step]. apply (on_entry_unchanged w i e); [done|].
    unfold RelayEntry_OnReadPacket.
    destruct (current_connection_ e) as [c|] eqn:Hc; [|done].
    by rewrite bool_decide_eq_false_2 by (by apply Hstale).
Qed.

(** ** Messages that answer no request *)

(** X7: RelayEntry::OnReadPacket on a framed packet from the current socket
    that parses as a STUN message and answers no outstanding request.  The
    port is left as it is, and so is the entry except that a SEND response
    with OPTIONS bit 0 sets locked_.  Data goes up to the port exactly for a
    DATA indication that has a SOURCE-ADDRESS2 of family 1 and a DATA
    attribute: once, with the attribute's bytes, that source address and
    PROTO_UDP, whether or not the entry is locked or connected.  Every
    other message delivers nothing. *)
Theorem OnReadPacket_unmatched p e c socket data msg :
  current_connection_ e = Some c →
  socket = socket_ c →
  HasMagicCookie data = true →
  let p1 := (RelayEntry_OnReadPacket p e socket data (Some msg) NoTransaction).1.1 in
  let e1 := (RelayEntry_OnReadPacket p e socket data (Some msg) NoTransaction).1.2 in
  let eff := (RelayEntry_OnReadPacket p e socket data (Some msg) NoTransaction).2 in
  p1 = p ∧
  e1 = (if grants_lock msg then set_locked true e else e) ∧
  (∀ bytes ip prt,
     type msg = STUN_DATA_INDICATION →
     GetAddress msg STUN_ATTR_SOURCE_ADDRESS2 = Some (1, ip, prt) →
     GetByteString msg STUN_ATTR_DATA = Some bytes →
     eff = [PortOnReadPacket bytes (mkSocketAddress ip prt) PROTO_UDP]) ∧
  (eff ≠ [] →
     type msg = STUN_DATA_INDICATION ∧
     (∃ ip prt, GetAddress msg STUN_ATTR_SOURCE_ADDRESS2 = Some (1, ip, prt)) ∧
     is_Some (GetByteString msg STUN_ATTR_DATA)).
Proof.
  intros Hc -> Hcookie. cbn zeta. unfold RelayEntry_OnReadPacket, grants_lock.
  rewrite Hc, bool_decide_eq_true_2, Hcookie by done. cbn [negb].
  case_bool_decide as Hsend.
  - (* a SEND response *)
    cbn [andb].
    destruct (GetUInt32 msg STUN_ATTR_OPTIONS) as [value|];
      [destruct (negb (Z.land value 1 =? 0))|]; cbn [fst snd];
      (split_and!; [done|done| |done]); intros bytes ip prt Htype; congruence.
  - cbn [andb]. case_bool_decide as Hdata; cbn [negb].
    + destruct (GetAddress msg STUN_ATTR_SOURCE_ADDRESS2) as [[[family ip] prt]|] eqn:Haddr.
      * case_bool_decide as Hfamily; cbn [negb].
        -- subst family.
           destruct (GetByteString msg STUN_ATTR_DATA) as [bytes|] eqn:Hbytes; cbn [fst snd].
           ++ split_and!; [done|done| |].
              ** by intros bytes' ip' prt' _ [= <- <-] [= <-].
              ** intros _. split_and!; [done|by eexists _, _|done].
           ++ split_and!; [done|done| |done]. by intros bytes' ip' prt' _ _.
        -- cbn [fst snd]. split_and!; [done|done| |done].
           intros bytes' ip' prt' _ [= Hf _ _]. done.
      * cbn [fst snd]. split_and!; [done|done| |done]. by intros bytes' ip' prt' _.
    + cbn [fst snd]. split_and!; [done|done| |done]. by intros bytes' ip' prt' Htype.
Qed.

(** ** The search of RelayPort::SendTo *)

Lemma SendTo_find_first entries addr payload :
  match SendTo_find entries addr payload with
  | (Some i, entries1) =>
    ∃ e, entries !! i = Some e ∧ SendTo_matches addr payload e = true ∧
         entries1 = <[i := set_ext_addr addr e]> entries ∧
         ∀ j e', (j < i)%nat → entries !! j = Some e' →
                 SendTo_matches addr payload e' = false
  | (None, entries1) =>
    entries1 = entries ∧ Forall (λ e, SendTo_matches addr payload e = false) entries
  end.
Proof.
  induction entries as [|e rest IH]; cbn [SendTo_find]; [done|].
  destruct (IsNil (ext_addr_ e) && payload) eqn:Hnil.
  - exists e. unfold SendTo_matches. rewrite Hnil. split_and!; try done.
    intros j e' Hj. lia.
  - case_bool_decide as Heq.
    + exists e. unfold SendTo_matches. rewrite Hnil, bool_decide_eq_true_2 by done.
      split_and!; try done.
      * cbn. by rewrite <- Heq, set_ext_addr_same.
      * intros j e' Hj. lia.
    + assert (SendTo_matches addr payload e = false) as He.
      { unfold SendTo_matches. by rewrite Hnil, bool_decide_eq_false_2. }
      destruct (SendTo_find rest addr payload) as [[i|] rest1]; cbn.
      * destruct IH as (e0 & Hi & Hm & -> & Hfirst). exists e0. split_and!; try done.
        intros [|j] e' Hj; cbn; [by intros [= <-]|]. apply Hfirst. lia.
      * destruct IH as [-> Hall]. split; [done|]. by apply Forall_cons_2.
Qed.

Lemma Connect_server_index p e factory :
  server_index_ (RelayEntry_Connect p e factory).1 = server_index_ e.
Proof.
  unfold RelayEntry_Connect.
  destruct (connected_ e); [done|].
  destruct (RelayPort_ServerAddress p (server_index_ e)); [|done].
  by destruct (current_connection_ e), factory.
Qed.

Lemma SendTo_create_entry p addr factory :
  ∃ e2 eff,
    SendTo_create p None addr true factory =
      (Some (length (entries_ p)), set_entries (entries_ p ++ [e2]) p, eff) ∧
    ext_addr_ e2 = addr ∧ connected_ e2 = false ∧ locked_ e2 = false ∧
    server_index_ e2 =
      match entries_ p with first :: _ => server_index_ first | [] => 0%nat end.
Proof.
  unfold SendTo_create.
  set (e1 := match entries_ p with
             | first :: _ => set_server_index (server_index_ first) (RelayEntry_new addr)
             | [] => RelayEntry_new addr
             end).
  pose proof (Connect_reconnected p e1 factory) as (Haddr & Hconn & Hlock & _).
  pose proof (Connect_server_index p e1 factory) as Hindex.
  destruct (RelayEntry_Connect p e1 factory) as [e2 eff]. cbn [fst snd] in *.
  exists e2, eff. split; [done|].
  rewrite Haddr, Hconn, Hlock, Hindex. subst e1. by destruct (entries_ p).
Qed.

(** The search and the creation of [RelayPort::SendTo] together: the
    first entry that passes the test is given the address, or no entry
    passes it and, when the send is payload, an entry for the address is
    appended. *)
Lemma SendTo_search_cases p addr payload factory :
  ∃ entry p2 eff2,
    (let '(found, entries1) := SendTo_find (entries_ p) addr payload in
     SendTo_create (set_entries entries1 p) found addr payload factory) = (entry, p2, eff2) ∧
    p2 = set_entries (entries_ p2) p ∧
    ((∃ i e, entries_ p !! i = Some e ∧ SendTo_matches addr payload e = true ∧
             (∀ j e', (j < i)%nat → entries_ p !! j = Some e' →
                      SendTo_matches addr payload e' = false) ∧
             entries_ p2 = <[i := set_ext_addr addr e]> (entries_ p)) ∨
     (Forall (λ e, SendTo_matches addr payload e = false) (entries_ p) ∧
      ((payload = false ∧ entries_ p2 = entries_ p) ∨
       (payload = true ∧
        ∃ e2, entries_ p2 = entries_ p ++ [e2] ∧ ext_addr_ e2 = addr ∧
              connected_ e2 = false ∧ locked_ e2 = false ∧
              server_index_ e2 =
                match entries_ p with first :: _ => server_index_ first | [] => 0%nat end)))).
Proof.
  pose proof (SendTo_find_first (entries_ p) addr payload) as Hfind.
  destruct (SendTo_find (entries_ p) addr payload) as [[i|] entries1].
  - destruct Hfind as (e & Hi & Hm & -> & Hfirst). cbn [SendTo_create].
    eexists _, _, _. split; [reflexivity|]. split; [done|].
    left. by exists i, e.
  - destruct Hfind as [-> Hall]. destruct payload.
    + destruct (SendTo_create_entry (set_entries (entries_ p) p) addr factory)
        as (e2 & eff & -> & Hnew).
      eexists _, _, _. split; [reflexivity|]. split; [done|].
      right. split; [done|]. right. split; [done|]. exists e2. by destruct p.
    + cbn [SendTo_create]. eexists _, _, _. split; [reflexivity|].
      split; [by destruct p|]. right. split; [done|]. left. by destruct p.
Qed.

(** X8: the search of RelayPort::SendTo.  A payload send (payload = true)
    that returns leaves the port with an entry for the address: one that
    was there, the entry without a destination that now takes it, or a new
    one appended at the end with the server index of entries_[0], not
    connected and not locked.  A send that is not payload changes no entry.
    No send removes an entry or adds more than one. *)
Theorem SendTo_binds_destination p data addr payload factory sent GetError r p1 eff :
  RelayPort_SendTo p data addr payload factory sent GetError = Some (r, p1, eff) →
  (payload = true → ∃ i e, entries_ p1 !! i = Some e ∧ ext_addr_ e = addr) ∧
  (payload = false → entries_ p1 = entries_ p) ∧
  (length (entries_ p) ≤ length (entries_ p1) ≤ S (length (entries_ p)))%nat ∧
  (∀ first e2, entries_ p !! 0%nat = Some first →
     entries_ p1 !! length (entries_ p) = Some e2 →
     ext_addr_ e2 = addr ∧ server_index_ e2 = server_index_ first ∧
     connected_ e2 = false ∧ locked_ e2 = false).
Proof.
  intros Hsend.
  destruct (SendTo_result _ _ _ _ _ _ _ _ _ _ Hsend)
    as (entry & p2 & eff2 & eff3 & z & Hsearch & -> & _).
  destruct (SendTo_search_cases p addr payload factory)
    as (entry' & p2' & eff2' & Hsearch' & _ & Hcases).
  rewrite Hsearch in Hsearch'. injection Hsearch' as <- <- <-. cbn [entries_ set_error].
  destruct Hcases as [(i & e & Hi & Hm & Hfirst & ->)
                     |[Hall [[-> ->]|(-> & e2 & -> & Haddr & Hconn & Hlock & Hindex)]]].
  - pose proof (lookup_lt_Some _ _ _ Hi) as Hlt.
    assert (payload = false → set_ext_addr addr e = e) as Hsame.
    { intros ->. unfold SendTo_matches in Hm. rewrite andb_false_r in Hm. cbn in Hm.
      apply bool_decide_eq_true in Hm. by rewrite <- Hm, set_ext_addr_same. }
    split; [|split; [|split]].
    + intros _. exists i, (set_ext_addr addr e). by rewrite list_lookup_insert_eq.
    + intros Hp. by rewrite (Hsame Hp), list_insert_id.
    + rewrite length_insert. lia.
    + intros first e2 _ Hnew. apply lookup_lt_Some in Hnew. rewrite length_insert in Hnew. lia.
  - split; [done|]. split; [done|]. split; [lia|].
    intros first e2 _ Hnew. apply lookup_lt_Some in Hnew. lia.
  - split; [|split; [|split]].
    + intros _. exists (length (entries_ p)), e2.
      by rewrite lookup_app_r, Nat.sub_diag by done.
    + done.
    + rewrite length_app. cbn. lia.
    + intros first e2' Hfirst. rewrite lookup_app_r, Nat.sub_diag by done.
      intros [= <-]. split_and!; try done.
      rewrite Hindex. by destruct (entries_ p); [|injection Hfirst as ->].
Qed.

(** ** How an event moves an entry and the port *)

Lemma reconnected_moves ev e e1 :
  reconnected e e1 → (server_index_ e ≤ server_index_ e1)%nat → entry_moves ev e e1.
Proof.
  intros (Ha & Hc & Hl & Hcc) Hidx. unfold entry_moves. rewrite Hc, Hl.
  split_and!; [done| |done|by left]. intros Hconn. split; [done|by apply Hcc].
Qed.

Lemma moves_refl ev e : entry_moves ev e e.
Proof. apply reconnected_moves; [apply reconnected_refl|done]. Qed.

Lemma HandleConnectFailure_server_index p e socket factory :
  (server_index_ e
     ≤ server_index_ (RelayEntry_HandleConnectFailure p e socket factory).1)%nat.
Proof.
  unfold RelayEntry_HandleConnectFailure.
  destruct (match socket, current_connection_ e with
            | None, _ => true
            | Some s, Some c => bool_decide (s = socket_ c)
            | Some _, None => false
            end); [|done].
  pose proof (Connect_server_index p (set_server_index (server_index_ e + 1) e) factory) as H.
  destruct (RelayEntry_Connect p _ factory) as [e2 eff2]. cbn in *. lia.
Qed.

Lemma HandleConnectFailure_moves ev p e socket factory :
  entry_moves ev e (RelayEntry_HandleConnectFailure p e socket factory).1.
Proof.
  apply reconnected_moves;
    [apply HandleConnectFailure_reconnected | apply HandleConnectFailure_server_index].
Qed.

Lemma OnMessage_moves ev p e factory :
  entry_moves ev e (RelayEntry_OnMessage p e factory).1.
Proof.
  unfold RelayEntry_OnMessage. destruct (current_connection_ e) as [c|] eqn:Hc.
  - pose proof (HandleConnectFailure_moves ev p e (Some (socket_ c)) factory) as H.
    by destruct (RelayEntry_HandleConnectFailure p e _ factory).
  - apply HandleConnectFailure_moves.
Qed.

Lemma OnConnect_port p e mapped_addr :
  ready_ (RelayEntry_OnConnect p e mapped_addr).1.1 = true ∧
  external_addr_ (RelayEntry_OnConnect p e mapped_addr).1.1 =
    external_addr_ (RelayPort_AddExternalAddress p (mkProtocolAddress mapped_addr PROTO_UDP)).
Proof.
  unfold RelayEntry_OnConnect, RelayPort_SetReady.
  destruct (ready_ (RelayPort_AddExternalAddress p _)) eqn:Hr; cbn; by rewrite ?Hr.
Qed.

(** What [RelayEntry::OnReadPacket] can do to the port and the entry: at
    most set [locked_], or [OnConnect]. *)
Lemma OnReadPacket_cases p e socket data parsed check :
  ((RelayEntry_OnReadPacket p e socket data parsed check).1.1 = p ∧
   ((RelayEntry_OnReadPacket p e socket data parsed check).1.2 = e ∨
    (RelayEntry_OnReadPacket p e socket data parsed check).1.2 = set_locked true e)) ∨
  (∃ mapped_addr,
     (RelayEntry_OnReadPacket p e socket data parsed check).1.1
       = (RelayEntry_OnConnect p e mapped_addr).1.1 ∧
     (RelayEntry_OnReadPacket p e socket data parsed check).1.2 = set_connected true e).
Proof.
  unfold RelayEntry_OnReadPacket.
  destruct (current_connection_ e) as [c|] eqn:Hc; [|by left; auto].
  destruct (negb (bool_decide (socket = socket_ c))); [by left; auto|].
  destruct (negb (HasMagicCookie data)); [destruct (locked_ e); by left; auto|].
  destruct parsed as [msg|]; [|by left; auto].
  destruct check as [| |elapsed]; [| |by left; auto].
  - repeat case_match; left; cbn; auto.
  - rewrite OnResponse_unfold. cbn zeta. cbn [fst snd].
    destruct (GetAddress msg STUN_ATTR_MAPPED_ADDRESS) as [[[family ip] prt]|];
      [|by left; auto].
    case_bool_decide; [|by left; auto].
    right. exists (mkSocketAddress ip prt). split; [done|]. apply OnConnect_entry.
Qed.

Lemma SetOption_port p opt value SetOption GetError :
  entries_ (RelayPort_SetOption p opt value SetOption GetError).1.2 = entries_ p ∧
  external_addr_ (RelayPort_SetOption p opt value SetOption GetError).1.2 = external_addr_ p ∧
  ready_ (RelayPort_SetOption p opt value SetOption GetError).1.2 = ready_ p.
Proof.
  unfold RelayPort_SetOption.
  by destruct (SetOption_loop (entries_ p) opt value SetOption GetError 0 (error_ p))
    as [[result error] eff].
Qed.

(** What an event does to the entries and the port: at most one entry
    moves, only a send appends entries, and the port moves as
    [port_moves] says. *)
Lemma step_moves w ev w1 eff :
  step w ev = Some (w1, eff) →
  ∃ upd extra,
    entries_ (w_port w1) = updated upd (entries_ (w_port w)) ++ extra ∧
    (∀ j e1, upd = Some (j, e1) →
       ∃ e, entries_ (w_port w) !! j = Some e ∧ entry_moves ev e e1) ∧
    Forall fresh_entry extra ∧
    (is_send_call ev = false → extra = []) ∧
    port_moves (w_port w) (w_port w1) upd.
Proof.
  (* one entry is replaced by a method that only the failure handlers and
     Connect are part of *)
  assert (∀ i e e1 p1,
            entries_ (w_port w) !! i = Some e → entry_moves ev e e1 →
            connected_ e1 = connected_ e →
            entries_ p1 = <[i := e1]> (entries_ (w_port w)) →
            external_addr_ p1 = external_addr_ (w_port w) →
            (ready_ p1 = ready_ (w_port w) ∨ ready_ p1 = false) →
            ∃ upd extra,
              entries_ p1 = updated upd (entries_ (w_port w)) ++ extra ∧
              (∀ j e2, upd = Some (j, e2) →
                 ∃ e0, entries_ (w_port w) !! j = Some e0 ∧ entry_moves ev e0 e2) ∧
              Forall fresh_entry extra ∧
              (is_send_call ev = false → extra = []) ∧
              port_moves (w_port w) p1 upd) as Hone.
  { intros i e e1 p1 Hi Hmv Hconn Hent Hext Hready. exists (Some (i, e1)), [].
    rewrite app_nil_r. split; [done|]. split; [|split; [done|split; [done|]]].
    - intros j e2 [= <- <-]. by exists e.
    - split; [by left|]. split.
      + intros j e0 e2 [= <- <-]. rewrite Hi. intros [= <-]. congruence.
      + intros Hr. left. destruct Hready; congruence. }
  (* no entry changes *)
  assert (∀ p1,
            entries_ p1 = entries_ (w_port w) →
            (external_addr_ p1 = external_addr_ (w_port w) ∨
             ∃ a, external_addr_ p1 = external_addr_ (RelayPort_AddExternalAddress (w_port w) a)) →
            ready_ p1 = ready_ (w_port w) →
            ∃ upd extra,
              entries_ p1 = updated upd (entries_ (w_port w)) ++ extra ∧
              (∀ j e2, upd = Some (j, e2) →
                 ∃ e0, entries_ (w_port w) !! j = Some e0 ∧ entry_moves ev e0 e2) ∧
              Forall fresh_entry extra ∧
              (is_send_call ev = false → extra = []) ∧
              port_moves (w_port w) p1 upd) as Hsame.
  { intros p1 Hent Hext Hready. exists None, []. rewrite app_nil_r.
    split; [done|]. split; [done|]. split; [done|]. split; [done|].
    split; [done|]. split; [done|]. intros Hr. left. congruence. }
  destruct ev as [addr|addr|factory|data addr payload factory sent GetError
                 |opt value SetOption GetError|i factory|i socket|i socket error factory
                 |i socket data parsed check|i socket factory]; cbn [step].
  - intros [= <- _]. cbn [w_port]. unfold RelayPort_AddServerAddress.
    apply Hsame; destruct (_ && _); cbn; auto.
  - intros [= <- _]. cbn [w_port]. apply Hsame; [| by right; eexists |];
      unfold RelayPort_AddExternalAddress; by destruct (existsb _ _).
  - unfold RelayPort_PrepareAddress.
    destruct (entries_ (w_port w)) as [|e [|]] eqn:Hentries; [done| |done].
    pose proof (Connect_reconnected (w_port w) e factory) as Hrec.
    pose proof (Connect_server_index (w_port w) e factory) as Hidx.
    destruct (RelayEntry_Connect (w_port w) e factory) as [e1 eff1]. cbn.
    intros [= <- _]. cbn [w_port fst] in *. rewrite ?Hentries.
    apply (Hone 0%nat e e1); try done.
    + apply reconnected_moves; [done|lia].
    + by destruct Hrec as (_ & ? & _).
    + by right.
  - destruct (RelayPort_SendTo (w_port w) data addr payload factory sent GetError)
      as [[[r p1] eff1]|] eqn:Hsend; [|done]. cbn. intros [= <- _]. cbn [w_port].
    destruct (SendTo_result _ _ _ _ _ _ _ _ _ _ Hsend)
      as (entry & p2 & eff2 & eff3 & z & Hsearch & -> & _).
    destruct (SendTo_search_cases (w_port w) addr payload factory)
      as (entry' & p2' & eff2' & Hsearch' & Hp2 & Hcases).
    rewrite Hsearch in Hsearch'. injection Hsearch' as <- <- <-.
    assert (external_addr_ (set_error z p2) = external_addr_ (w_port w) ∧
            ready_ (set_error z p2) = ready_ (w_port w)) as [Hext Hready] by (by rewrite Hp2).
    destruct Hcases as [(i & e & Hi & Hm & Hfirst & Hent)
                       |[Hall [[-> Hent]|(-> & e2 & Hent & Haddr & Hconn & Hlock & Hindex)]]].
    + apply (Hone i e (set_ext_addr addr e)); try done; [|by left].
      unfold entry_moves. cbn. split_and!; try done.
      destruct (decide (ext_addr_ e = SocketAddress_nil)) as [Hnil|Hne]; [by right|].
      left. symmetry. by apply (SendTo_matches_ext_addr addr payload).
    + by apply Hsame; [|left|].
    + exists None, [e2]. split; [done|]. split; [done|].
      split; [by apply Forall_cons_2; [|apply Forall_nil_2]|]. split; [done|].
      split; [by left|]. split; [done|]. intros Hr. left. congruence.
  - pose proof (SetOption_port (w_port w) opt value SetOption GetError) as (Hent & Hext & Hready).
    destruct (RelayPort_SetOption (w_port w) opt value SetOption GetError) as [[r p1] eff1].
    intros [= <- _]. cbn [w_port fst snd] in *. by apply Hsame; [|left|].
  - destruct (take_message i (w_posted w)) as [posted|]; [|done]. cbn.
    intros (e & p1 & e1 & Hi & Hm & ->)%on_entry_Some. cbn [w_port] in *.
    pose proof (OnMessage_moves (TimerMessage i factory) (w_port w) e factory) as Hmv.
    pose proof (OnMessage_reconnected (w_port w) e factory) as (_ & Hconn & _).
    destruct (RelayEntry_OnMessage (w_port w) e factory) as [e2 eff2].
    injection Hm as <- <- <-. apply (Hone i e e2); try done. by left.
  - intros (e & p1 & e1 & Hi & Hm & ->)%on_entry_Some. cbn [w_port] in *.
    injection Hm as <- <- <-. apply (Hone i e e); try done; [apply moves_refl|by left].
  - intros (e & p1 & e1 & Hi & Hm & ->)%on_entry_Some. cbn [w_port] in *.
    unfold RelayEntry_OnSocketClose in Hm.
    pose proof (HandleConnectFailure_moves (SocketClose i socket error factory) (w_port w) e
                  (Some socket) factory) as Hmv.
    pose proof (HandleConnectFailure_reconnected (w_port w) e (Some socket) factory) as (_ & Hconn & _).
    destruct (RelayEntry_HandleConnectFailure (w_port w) e (Some socket) factory) as [e2 eff2].
    injection Hm as <- <- <-. apply (Hone i e e2); try done. by left.
  - intros (e & p1 & e1 & Hi & Hm & ->)%on_entry_Some. cbn [w_port] in *.
    pose proof (OnReadPacket_same_entries (w_port w) e socket data parsed check) as (Hent & _).
    destruct (OnReadPacket_cases (w_port w) e socket data parsed check)
      as [[Hp He]|(mapped_addr & Hp & He)]; rewrite Hm in Hent, Hp, He; cbn [fst snd] in *.
    + subst p1. apply (Hone i e e1); try done; [|by destruct He as [->| ->]|by left].
      destruct He as [->| ->]; [apply moves_refl|].
      unfold entry_moves. cbn. split_and!; try done. by left.
    + destruct (OnConnect_port (w_port w) e mapped_addr) as [Hready Hext]. rewrite <- Hp in Hready, Hext.
      exists (Some (i, e1)), []. rewrite app_nil_r. cbn [entries_ set_entries updated].
      rewrite Hent. split; [done|]. split; [|split; [done|split; [done|]]].
      * intros j e2 [= <- <-]. exists e. split; [done|]. subst e1.
        unfold entry_moves. cbn. split_and!; try done. by left.
      * split; [right; by eexists|]. split.
        -- intros j e0 e2 [= <- <-] _ _ _. split; [done|]. cbn. rewrite Hext.
           intros Hnil. pose proof (AddExternalAddress_elem (w_port w)
                                      (mkProtocolAddress mapped_addr PROTO_UDP)) as Hin.
           rewrite Hnil in Hin. by apply elem_of_nil in Hin.
        -- intros _. right. exists i, e1. split; [done|]. by subst e1.
  - intros (e & p1 & e1 & Hi & Hm & ->)%on_entry_Some. cbn [w_port] in *.
    unfold AllocateRequest_OnTimeout in Hm.
    pose proof (HandleConnectFailure_moves (AllocateTimeout i socket factory) (w_port w) e
                  (Some socket) factory) as Hmv.
    pose proof (HandleConnectFailure_reconnected (w_port w) e (Some socket) factory) as (_ & Hconn & _).
    destruct (RelayEntry_HandleConnectFailure (w_port w) e (Some socket) factory) as [e2 eff2].
    injection Hm as <- <- <-. apply (Hone i e e2); try done. by left.
Qed.

Lemma step_move w ev w1 eff i e :
  step w ev = Some (w1, eff) →
  entries_ (w_port w) !! i = Some e →
  ∃ e1, entries_ (w_port w1) !! i = Some e1 ∧ entry_moves ev e e1.
Proof.
  intros (upd & extra & -> & Hupd & _)%step_moves Hi.
  pose proof (lookup_lt_Some _ _ _ Hi) as Hlt.
  destruct upd as [[j e1]|]; cbn.
  - destruct (Hupd j e1 eq_refl) as (e0 & Hj & Hmv).
    rewrite lookup_app_l by (by rewrite length_insert).
    destruct (decide (j = i)) as [->|Hne].
    + rewrite list_lookup_insert_eq by done. exists e1. split; [done|]. congruence.
    + rewrite list_lookup_insert_ne by done. exists e. split; [done|]. apply moves_refl.
  - rewrite lookup_app_l by done. exists e. split; [done|]. apply moves_refl.
Qed.

Lemma moves_moved ev e e1 : entry_moves ev e e1 → entry_moved e e1.
Proof.
  intros (Hidx & Hconn & Hlock & Haddr). split_and!; try done.
  intros Hne. by destruct Haddr as [?|[? _]].
Qed.

Lemma moved_refl e : entry_moved e e.
Proof. by split_and!. Qed.

Lemma moved_trans e e1 e2 : entry_moved e e1 → entry_moved e1 e2 → entry_moved e e2.
Proof.
  intros (Hidx & Hconn & Hlock & Haddr) (Hidx' & Hconn' & Hlock' & Haddr').
  split_and!.
  - lia.
  - intros H. destruct (Hconn H) as [H1 <-]. by apply Hconn'.
  - auto.
  - intros Hne. rewrite Haddr', Haddr; [done|done|]. by rewrite Haddr.
Qed.

(** ** Entries along a run *)

Lemma run_moved evs w w1 trace i e :
  run w evs = Some (w1, trace) →
  entries_ (w_port w) !! i = Some e →
  ∃ e1, entries_ (w_port w1) !! i = Some e1 ∧ entry_moved e e1.
Proof.
  revert w trace e. induction evs as [|ev rest IH]; intros w trace e; cbn [run].
  - intros [= <- _] Hi. exists e. split; [done|]. apply moved_refl.
  - destruct (step w ev) as [[w2 eff]|] eqn:Hstep; [|done]. cbn.
    destruct (run w2 rest) as [[w3 trace2]|] eqn:Hrun; [|done]. cbn.
    intros [= <- _] Hi.
    destruct (step_move _ _ _ _ _ _ Hstep Hi) as (e1 & Hi1 & Hmv%moves_moved).
    destruct (IH w2 trace2 e1 Hrun Hi1) as (e2 & Hi2 & Hmv2).
    exists e2. split; [done|]. by eapply moved_trans.
Qed.

(** X9: no event undoes what an entry has reached.  Along every run of
    the port, from any state, an entry stays at its index; its server_index
    never goes down; once connected it stays connected and keeps the very
    connection it has (the failure handlers and Connect leave a connected
    entry's connection alone, also when its socket closes); once locked it
    stays locked; and once it has a destination the destination does not
    change. *)
Theorem entry_never_goes_back evs w w1 trace i e :
  run w evs = Some (w1, trace) →
  entries_ (w_port w) !! i = Some e →
  ∃ e1, entries_ (w_port w1) !! i = Some e1 ∧
        (server_index_ e ≤ server_index_ e1)%nat ∧
        (connected_ e = true →
           connected_ e1 = true ∧ current_connection_ e1 = current_connection_ e) ∧
        (locked_ e = true → locked_ e1 = true) ∧
        (ext_addr_ e ≠ SocketAddress_nil → ext_addr_ e1 = ext_addr_ e).
Proof. apply run_moved. Qed.

(** ** The port along a run *)

Lemma run_step_invariant (I : World → Prop) :
  (∀ w ev w1 eff, step w ev = Some (w1, eff) → I w → I w1) →
  ∀ evs w w1 trace, run w evs = Some (w1, trace) → I w → I w1.
Proof.
  intros Hstep. induction evs as [|ev rest IH]; intros w w1 trace; cbn [run].
  - by intros [= <- _].
  - destruct (step w ev) as [[w2 eff]|] eqn:Hs; [|done]. cbn.
    destruct (run w2 rest) as [[w3 trace2]|] eqn:Hrun; [|done]. cbn.
    intros [= <- _] HI. eapply IH; [done|]. by eapply Hstep.
Qed.

Lemma step_external w ev w1 eff :
  step w ev = Some (w1, eff) →
  external_addr_ (w_port w) `prefix_of` external_addr_ (w_port w1) ∧
  (NoDup (external_addr_ (w_port w)) → NoDup (external_addr_ (w_port w1))).
Proof.
  intros (upd & extra & _ & _ & _ & _ & [Hext|[a Hext]] & _)%step_moves; rewrite Hext.
  - done.
  - split; [|apply AddExternalAddress_NoDup].
    rewrite AddExternalAddress_unfold. case_bool_decide; [done|]. by apply prefix_app_r.
Qed.

(** X10: external_addr_ along a run.  No event removes or reorders an
    external address: the list a port has is a prefix of the list it has
    after any further events.  And no event adds an address that is
    already listed, so a list without duplicates (the empty list of a new
    port is one) never gets any. *)
Theorem external_addr_grows_without_duplicates evs w w1 trace :
  run w evs = Some (w1, trace) →
  external_addr_ (w_port w) `prefix_of` external_addr_ (w_port w1) ∧
  (NoDup (external_addr_ (w_port w)) → NoDup (external_addr_ (w_port w1))).
Proof.
  revert w trace. induction evs as [|ev rest IH]; intros w trace; cbn [run].
  - by intros [= <- _].
  - destruct (step w ev) as [[w2 eff]|] eqn:Hstep; [|done]. cbn.
    destruct (run w2 rest) as [[w3 trace2]|] eqn:Hrun; [|done]. cbn.
    intros [= <- _].
    destruct (step_external _ _ _ _ Hstep) as [Hpre Hnd].
    destruct (IH w2 trace2 Hrun) as [Hpre' Hnd'].
    split; [by etrans|auto].
Qed.

Lemma step_ready_invariant w ev w1 eff :
  step w ev = Some (w1, eff) → ready_invariant (w_port w) → ready_invariant (w_port w1).
Proof.
  intros Hstep [Hready Hconn].
  destruct (step_moves _ _ _ _ Hstep)
    as (upd & extra & Hent & Hupd & Hfresh & _ & Hext & Hnew & Hbecomes).
  assert (external_addr_ (w_port w) ≠ [] → external_addr_ (w_port w1) ≠ []) as Hgrows.
  { destruct (step_external _ _ _ _ Hstep) as [[k ->] _]. by destruct (external_addr_ (w_port w)). }
  split.
  - intros Hr. destruct (Hbecomes Hr) as [Hr0|(j & e1 & -> & He1)].
    + destruct (Hready Hr0) as (i & e & Hi & He).
      destruct (step_move _ _ _ _ _ _ Hstep Hi) as (e1 & Hi1 & _ & Hc & _).
      exists i, e1. split; [done|]. by apply Hc.
    + destruct (Hupd j e1 eq_refl) as (e & Hj & _).
      exists j, e1. split; [|done]. rewrite Hent. cbn.
      rewrite lookup_app_l by (rewrite length_insert; by eapply lookup_lt_Some).
      apply list_lookup_insert_eq. by eapply lookup_lt_Some.
  - intros i e1 Hi1 He1.
    destruct (entries_ (w_port w) !! i) as [e|] eqn:Hi.
    + destruct (connected_ e) eqn:He; [by eapply Hgrows, Hconn|].
      rewrite Hent in Hi1. pose proof (lookup_lt_Some _ _ _ Hi) as Hlt.
      destruct upd as [[j e2]|]; cbn in Hi1.
      * rewrite lookup_app_l in Hi1 by (by rewrite length_insert).
        destruct (decide (j = i)) as [->|Hne].
        -- rewrite list_lookup_insert_eq in Hi1 by done. injection Hi1 as ->.
           by apply (Hnew i e e1).
        -- rewrite list_lookup_insert_ne in Hi1 by done. congruence.
      * rewrite lookup_app_l in Hi1 by done. congruence.
    + destruct (step_fresh _ _ _ _ _ _ Hstep Hi Hi1) as [Hc _]. congruence.
Qed.

(** X11: the ready flag along a run.  In every state a port reaches from
    its construction, the port is ready only if one of its entries is
    connected, and whenever an entry is connected the port has an external
    address (so a ready port always has one to publish). *)
Theorem ready_needs_connected_entry proxy username evs w trace :
  run (World_new proxy username) evs = Some (w, trace) →
  (ready_ (w_port w) = true →
     ∃ i e, entries_ (w_port w) !! i = Some e ∧ connected_ e = true) ∧
  (∀ i e, entries_ (w_port w) !! i = Some e → connected_ e = true →
          external_addr_ (w_port w) ≠ []) ∧
  (ready_ (w_port w) = true → external_addr_ (w_port w) ≠ []).
Proof.
  intros Hrun.
  assert (ready_invariant (w_port w)) as [Hready Hconn].
  { apply (run_step_invariant (λ w, ready_invariant (w_port w)) step_ready_invariant
             evs _ _ _ Hrun).
    split; [done|]. intros [|i] e; [|done]. by intros [= <-]. }
  split_and!; [done|done|].
  intros Hr. destruct (Hready Hr) as (i & e & Hi & He). by eapply Hconn.
Qed.

(** ** The assertions of RelayPort::SendTo *)

Lemma SendTo_select_Some p entry : entries_ p ≠ [] → is_Some (SendTo_select p entry).
Proof.
  intros Hne. unfold SendTo_select.
  destruct (entries_ p) as [|first rest] eqn:Hentries; [done|]. cbn [lookup list_lookup].
  destruct (entry ≫= _) as [e|]; [destruct (connected_ e); [done|]|];
    by destruct (negb (connected_ first)).
Qed.

Lemma SendTo_returns p data addr payload factory sent GetError :
  entries_ p ≠ [] →
  (∀ i e, entries_ p !! i = Some e → conn_ok e) →
  sent ≠ 0 →
  is_Some (RelayPort_SendTo p data addr payload factory sent GetError).
Proof.
  intros Hne Hok Hsent.
  destruct (SendTo_search_cases p addr payload factory)
    as (entry & p2 & eff2 & Hsearch & _ & Hcases).
  assert (entries_ p2 ≠ [] ∧ ∀ i e, entries_ p2 !! i = Some e → conn_ok e) as [Hne2 Hok2].
  { destruct Hcases as [(i & e & Hi & _ & _ & ->)
                       |[_ [[_ ->]|(_ & e2 & -> & _ & Hconn & _)]]].
    - split.
      + intros Hnil. apply (f_equal length) in Hnil. rewrite length_insert in Hnil.
        by destruct (entries_ p).
      + intros j e' [(<- & <- & _)|[_ Hj]]%list_lookup_insert_Some; [|by eapply Hok].
        by apply (Hok i e).
    - done.
    - split; [by destruct (entries_ p)|].
      intros j e' [Hj|[_ Hj]]%lookup_app_Some; [by eapply Hok|].
      apply list_lookup_singleton_Some in Hj as [_ <-]. unfold conn_ok. congruence. }
  unfold RelayPort_SendTo.
  destruct (SendTo_find (entries_ p) addr payload) as [found entries1]. rewrite Hsearch.
  destruct (SendTo_select_Some p2 entry Hne2) as [[[]|e] Hsel]; rewrite Hsel; [done|].
  destruct (SendTo_select_inr _ _ _ Hsel) as (Hconn & i & Hi).
  destruct (Hok2 i e Hi Hconn) as [c Hc].
  destruct (SendTo_on_connection p2 e c data addr sent Hc) as [pkt ->].
  destruct (Z.leb_spec sent 0); [|done]. destruct (Z.ltb_spec sent 0); [done|lia].
Qed.

Lemma run_length evs w w1 trace :
  run w evs = Some (w1, trace) →
  (length (entries_ (w_port w)) ≤ length (entries_ (w_port w1)))%nat.
Proof.
  intros Hrun.
  apply (run_step_invariant
           (λ w', (length (entries_ (w_port w)) ≤ length (entries_ (w_port w')))%nat))
    with (evs := evs) (w := w) (trace := trace); [|done|done].
  intros w2 ev w3 eff Hstep%step_length. lia.
Qed.

(** X12: the assertions of RelayPort::SendTo never fire on a port that was
    driven through its interface.  In every state a port reaches from its
    construction, a call of SendTo returns (with a byte count or with
    SOCKET_ERROR), whatever the destination and the payload flag and
    whatever the socket factory does, as long as the socket does not report
    0 bytes sent: there is always an entries_[0], and the entry the data
    goes out on has a connection. *)
Theorem SendTo_assertions_hold proxy username evs w trace data addr payload factory sent
    GetError :
  run (World_new proxy username) evs = Some (w, trace) →
  sent ≠ 0 →
  ∃ r p1 eff,
    RelayPort_SendTo (w_port w) data addr payload factory sent GetError = Some (r, p1, eff) ∧
    (r = SOCKET_ERROR ∨ (0 < sent ∧ r = int_of_size (length data))).
Proof.
  intros Hrun Hsent.
  destruct (SendTo_returns (w_port w) data addr payload factory sent GetError)
    as [[[r p1] eff] Hsend]; [| |done|].
  - apply run_length in Hrun. cbn in Hrun. destruct (entries_ (w_port w)); [cbn in Hrun; lia|done].
  - apply (run_conn_ok evs (World_new proxy username) w trace); [|done].
    intros [|j] e0; [|done]. by intros [= <-].
  - exists r, p1, eff. split; [done|].
    unfold RelayPort_SendTo in Hsend.
    destruct (SendTo_find _ addr payload) as [found entries1].
    destruct (SendTo_create _ found addr payload factory) as [[entry p2] eff2].
    destruct (SendTo_select p2 entry) as [[[]|e]|]; [| |done].
    + injection Hsend as <- _ _. by left.
    + assert ((RelayEntry_SendTo p2 e data addr sent).1 = sent ∨
              (RelayEntry_SendTo p2 e data addr sent).1 = 0) as Hret.
      { unfold RelayEntry_SendTo, RelayEntry_SendPacket, RelayConnection_Send.
        destruct (current_connection_ e), (locked_ e && bool_decide (ext_addr_ e = addr));
          auto. }
      destruct (RelayEntry_SendTo p2 e data addr sent) as [sent1 eff3]. cbn in Hret.
      destruct (Z.leb_spec sent1 0).
      * destruct (Z.ltb_spec sent1 0); [|done]. injection Hsend as <- _ _. by left.
      * injection Hsend as <- _ _. right. split; [lia|done].
Qed.

(** ** One entry per destination *)

Lemma destinations_adopt (dests : list SocketAddress) (i : nat) (addr : SocketAddress) :
  one_entry_per_destination dests →
  dests !! i = Some SocketAddress_nil →
  (∀ j, (j < i)%nat → dests !! j ≠ Some addr) →
  one_entry_per_destination (<[i := addr]> dests).
Proof.
  intros [Hnd Hlast] Hi Hfirst. pose proof (Hlast i Hi) as Hlen.
  rewrite NoDup_alt in Hnd. split.
  - apply NoDup_alt. intros j k x.
    intros [(<- & <- & Hj)|[Hij Hj]]%list_lookup_insert_Some
           [(<- & Hx & Hk)|[Hik Hk]]%list_lookup_insert_Some; try done.
    + apply lookup_lt_Some in Hk as Hlt. destruct (Hfirst k); [lia|done].
    + subst x. apply lookup_lt_Some in Hj as Hlt. destruct (Hfirst j); [lia|done].
    + by eapply Hnd.
  - intros k [(<- & _ & Hk)|[Hik Hk]]%list_lookup_insert_Some; rewrite length_insert; auto.
Qed.

Lemma destinations_append (dests : list SocketAddress) (addr : SocketAddress) :
  one_entry_per_destination dests →
  addr ∉ dests → SocketAddress_nil ∉ dests →
  one_entry_per_destination (dests ++ [addr]).
Proof.
  intros [Hnd Hlast] Haddr Hnil. split.
  - apply list.NoDup_app. split_and!; [done| |apply list.NoDup_singleton].
    by intros x Hx ->%list_elem_of_singleton.
  - intros k [Hk|[Hge Hk]]%lookup_app_Some.
    + destruct Hnil. apply list_elem_of_lookup. by exists k.
    + rewrite length_app. cbn. apply lookup_lt_Some in Hk. cbn in Hk. lia.
Qed.

Lemma SendTo_destinations p data addr payload factory sent GetError r p1 eff :
  RelayPort_SendTo p data addr payload factory sent GetError = Some (r, p1, eff) →
  one_entry_per_destination (destinations p) →
  one_entry_per_destination (destinations p1).
Proof.
  intros Hsend Hinv.
  destruct (SendTo_result _ _ _ _ _ _ _ _ _ _ Hsend)
    as (entry & p2 & eff2 & eff3 & z & Hsearch & -> & _).
  destruct (SendTo_search_cases p addr payload factory)
    as (entry' & p2' & eff2' & Hsearch' & _ & Hcases).
  rewrite Hsearch in Hsearch'. injection Hsearch' as <- <- <-.
  unfold destinations in *. cbn [entries_ set_error].
  assert (∀ e, SendTo_matches addr payload e = false →
               ext_addr_ e ≠ addr ∧ (payload = true → ext_addr_ e ≠ SocketAddress_nil))
    as Hmiss.
  { intros e. unfold SendTo_matches, IsNil.
    intros [Hnil Heq%bool_decide_eq_false]%orb_false_iff. split; [done|].
    intros -> Hn. by rewrite bool_decide_eq_true_2 in Hnil. }
  destruct Hcases as [(i & e & Hi & Hm & Hfirst & ->)
                     |[Hall [[_ ->]|(-> & e2 & -> & Haddr & _)]]].
  - rewrite list_fmap_insert. cbn.
    destruct (decide (ext_addr_ e = addr)) as [Heq|Hne].
    + rewrite list_insert_id; [done|]. by rewrite list_lookup_fmap, Hi, <- Heq.
    + assert (ext_addr_ e = SocketAddress_nil) as Hnil.
      { destruct (decide (ext_addr_ e = SocketAddress_nil)) as [|Hnn]; [done|].
        by destruct Hne; apply (SendTo_matches_ext_addr addr payload). }
      apply destinations_adopt; [done|rewrite list_lookup_fmap, Hi; cbn; by rewrite Hnil|].
      intros j Hj [e' [He' Hj']]%list_lookup_fmap_Some.
      destruct (Hmiss e' (Hfirst j e' Hj Hj')) as [Hmis _]. congruence.
  - done.
  - rewrite fmap_app. cbn. rewrite Haddr.
    apply destinations_append; [done| |].
    + intros [e' [-> He']]%list_elem_of_fmap.
      rewrite list.Forall_forall in Hall. by destruct (Hmiss e' (Hall e' He')).
    + intros [e' [Hn He']]%list_elem_of_fmap.
      rewrite list.Forall_forall in Hall. destruct (Hmiss e' (Hall e' He')) as [_ H].
      by destruct H.
Qed.

Lemma step_destinations w ev w1 eff :
  step w ev = Some (w1, eff) →
  one_entry_per_destination (destinations (w_port w)) →
  one_entry_per_destination (destinations (w_port w1)).
Proof.
  intros Hstep Hinv.
  destruct (is_send_call ev) eqn:Hev.
  - destruct ev; try done. cbn [step] in Hstep.
    destruct (RelayPort_SendTo (w_port w) data addr payload factory sent GetError)
      as [[[r p1] eff1]|] eqn:Hsend; [|done]. cbn in Hstep. injection Hstep as <- _.
    by eapply SendTo_destinations.
  - destruct (step_moves _ _ _ _ Hstep) as (upd & extra & Hent & Hupd & _ & Hextra & _).
    rewrite (Hextra Hev), app_nil_r in Hent.
    assert (destinations (w_port w1) = destinations (w_port w)) as ->; [|done].
    unfold destinations. rewrite Hent. destruct upd as [[j e1]|]; [|done]. cbn.
    destruct (Hupd j e1 eq_refl) as (e & Hj & _ & _ & _ & [Haddr|[_ Hsend]]); [|congruence].
    rewrite list_fmap_insert, list_insert_id; [done|].
    rewrite list_lookup_fmap, Hj. cbn. by rewrite Haddr.
Qed.

(** X13: the entries of a port are for distinct destinations.  In every
    state a port reaches from its construction no two entries have the same
    ext_addr, and an entry without a destination (a nil ext_addr) can only
    be the last one: the search of SendTo hands a destination to the entry
    that has none before it makes a new entry, and makes a new entry only
    when no entry is for the destination. *)
Theorem one_entry_for_each_destination proxy username evs w trace :
  run (World_new proxy username) evs = Some (w, trace) →
  (∀ i j e e', entries_ (w_port w) !! i = Some e → entries_ (w_port w) !! j = Some e' →
               ext_addr_ e = ext_addr_ e' → i = j) ∧
  (∀ i e, entries_ (w_port w) !! i = Some e → ext_addr_ e = SocketAddress_nil →
          S i = length (entries_ (w_port w))).
Proof.
  intros Hrun.
  assert (one_entry_per_destination (destinations (w_port w))) as [Hnd Hlast].
  { apply (run_step_invariant (λ w, one_entry_per_destination (destinations (w_port w)))
             step_destinations evs _ _ _ Hrun).
    split; [by apply list.NoDup_singleton|]. intros [|i]; [done|]. cbn. done. }
  rewrite NoDup_alt in Hnd. unfold destinations in *. split.
  - intros i j e e' Hi Hj Heq. apply (Hnd i j (ext_addr_ e)).
    + by rewrite list_lookup_fmap, Hi.
    + rewrite list_lookup_fmap, Hj. cbn. by rewrite Heq.
  - intros i e Hi Hnil. rewrite <- (length_fmap ext_addr_). apply Hlast.
    rewrite list_lookup_fmap, Hi. cbn. by rewrite Hnil.
Qed.

(** ** From PrepareAddress to the ready signal *)

Lemma OnReadPacket_response p e c socket data response :
  current_connection_ e = Some c →
  socket = socket_ c →
  HasMagicCookie data = true →
  RelayEntry_OnReadPacket p e socket data (Some response) FiresOnResponse
    = AllocateRequest_OnResponse p e response.
Proof.
  intros Hc -> Hcookie. unfold RelayEntry_OnReadPacket.
  by rewrite Hc, bool_decide_eq_true_2, Hcookie.
Qed.

(** X14: where the Allocate request is started.  When an entry that is
    not connected opens a socket for its server, a UDP server gets the
    Allocate request at once (delay 0) and no timer; a TCP or SSLTCP server
    gets no request yet, only the 3000 ms soft-timeout timer, and the
    request (delay 0) is queued when the socket signals that it is
    connected.  Either way it is queued on the new socket. *)
Theorem Connect_starts_allocation p e ra socket :
  connected_ e = false →
  RelayPort_ServerAddress p (server_index_ e) = Some ra →
  let e1 := (RelayEntry_Connect p e (Some socket)).1 in
  let eff := (RelayEntry_Connect p e (Some socket)).2 in
  (proto ra = PROTO_UDP →
     list.last eff = Some (SendAllocateRequest socket 0) ∧
     List.filter is_post eff = []) ∧
  (proto ra ≠ PROTO_UDP →
     list.last eff = Some (PostDelayed kSoftConnectTimeoutMs kMessageConnectTimeout) ∧
     Forall (λ x, ∀ s delay, x ≠ SendAllocateRequest s delay) eff) ∧
  (∀ s, RelayEntry_OnSocketConnect e1 s = [SendAllocateRequest socket 0]).
Proof.
  intros Hconn Hra. cbn zeta. rewrite (Connect_new_socket p e ra socket Hconn Hra).
  cbn [fst snd].
  set (eff1 := match current_connection_ e with
               | Some c => [Dispose (socket_ c)]
               | None => []
               end).
  set (eff2 := (λ o : OptionValue, SocketSetOption socket o.1 o.2) <$> options_ p).
  assert (List.filter is_post (eff1 ++ eff2) = []) as Hposts.
  { apply filter_none, Forall_app_2.
    - subst eff1. destruct (current_connection_ e); by repeat constructor.
    - by apply Forall_fmap, Forall_true. }
  assert (Forall (λ x, ∀ s delay, x ≠ SendAllocateRequest s delay) (eff1 ++ eff2)) as Hreqs.
  { apply Forall_app_2.
    - subst eff1. destruct (current_connection_ e); by repeat constructor.
    - by apply Forall_fmap, Forall_true. }
  split_and!.
  - intros Hudp.
    assert (bool_decide (proto ra = PROTO_TCP) || bool_decide (proto ra = PROTO_SSLTCP) = false)
      as -> by (by rewrite Hudp).
    rewrite !app_assoc, last_snoc.
    split; [done|]. by rewrite List.filter_app, Hposts.
  - intros Hne.
    assert (bool_decide (proto ra = PROTO_TCP) || bool_decide (proto ra = PROTO_SSLTCP) = true)
      as ->.
    { destruct (proto ra); try done. }
    rewrite !app_assoc, last_snoc. split; [done|].
    apply Forall_app_2; [done|]. by repeat constructor.
  - done.
Qed.

(** X15: the UDP path from construction to the ready signal.  On a new
    port, AddServerAddress of a UDP server, PrepareAddress with a socket,
    and an Allocate response on that socket with a framed packet and a
    MAPPED-ADDRESS of family 1 give, in this order: the Allocate request at
    delay 0, the related address, the mapped address published as the one
    UDP candidate, the ready signal, and the keep-alive Allocate at 600000
    ms.  Afterwards the port is ready, the mapped address is its only
    external address, and its entry is connected through that socket to
    that server. *)
Theorem allocation_over_udp proxy username server socket data response ip prt :
  proto server = PROTO_UDP →
  HasMagicCookie data = true →
  GetAddress response STUN_ATTR_MAPPED_ADDRESS = Some (1, ip, prt) →
  ∃ w,
    run (World_new proxy username)
      [CallAddServerAddress server;
       CallPrepareAddress (Some socket);
       ReadPacket 0 socket data (Some response) FiresOnResponse]
    = Some (w,
        [SendAllocateRequest socket 0;
         set_related_address (mkSocketAddress ip prt);
         AddAddress (mkSocketAddress ip prt) PROTO_UDP;
         SignalAddressReady;
         SendAllocateRequest socket kKeepAliveDelay]) ∧
    ready_ (w_port w) = true ∧
    external_addr_ (w_port w) = [mkProtocolAddress (mkSocketAddress ip prt) PROTO_UDP] ∧
    entries_ (w_port w) =
      [mkRelayEntry SocketAddress_nil 0 true false (Some (mkRelayConnection socket server))] ∧
    w_posted w = [].
Proof.
  intros Hudp Hcookie Hmapped. destruct server as [saddr sproto]. cbn in Hudp. subst sproto.
  eexists. split.
  - cbn [run step World_new RelayPort_new w_port w_posted].
    unfold RelayPort_AddServerAddress. cbn -[RelayEntry_OnReadPacket].
    rewrite (bool_decide_eq_false_2 (PROTO_UDP = PROTO_SSLTCP)) by done.
    cbn -[RelayEntry_OnReadPacket].
    unfold RelayPort_PrepareAddress, RelayEntry_Connect. cbn -[RelayEntry_OnReadPacket].
    rewrite (bool_decide_eq_false_2 (PROTO_UDP = PROTO_SSLTCP)),
      (bool_decide_eq_false_2 (PROTO_UDP = PROTO_TCP)) by done.
    cbn -[RelayEntry_OnReadPacket]. unfold on_entry. cbn -[RelayEntry_OnReadPacket].
    rewrite (OnReadPacket_response _ _ (mkRelayConnection socket _) socket data response)
      by done.
    unfold AllocateRequest_OnResponse. rewrite Hmapped. cbn. reflexivity.
  - by cbn.
Qed.

(** X16: the fall-back from a TCP server to the next one.  On a new port
    with no proxy, a TCP server and a UDP server added in this order,
    PrepareAddress opens the TCP socket and arms the soft timeout; when the
    timer message comes before the socket has connected, the soft timeout
    and the connect failure are signalled for the TCP server, its socket is
    disposed of, and the entry moves to server index 1 with the Allocate
    request sent at once on the new UDP socket; the Allocate response then
    makes the port ready with the mapped address as its candidate. *)
Theorem failover_from_tcp_to_udp username tcp_addr udp_addr s1 s2 data response ip prt :
  HasMagicCookie data = true →
  GetAddress response STUN_ATTR_MAPPED_ADDRESS = Some (1, ip, prt) →
  ∃ w,
    run (World_new PROXY_NONE username)
      [CallAddServerAddress (mkProtocolAddress tcp_addr PROTO_TCP);
       CallAddServerAddress (mkProtocolAddress udp_addr PROTO_UDP);
       CallPrepareAddress (Some s1);
       TimerMessage 0 (Some s2);
       ReadPacket 0 s2 data (Some response) FiresOnResponse]
    = Some (w,
        [PostDelayed kSoftConnectTimeoutMs kMessageConnectTimeout;
         SignalSoftTimeout (mkProtocolAddress tcp_addr PROTO_TCP);
         SignalConnectFailure (mkProtocolAddress tcp_addr PROTO_TCP);
         Dispose s1;
         SendAllocateRequest s2 0;
         set_related_address (mkSocketAddress ip prt);
         AddAddress (mkSocketAddress ip prt) PROTO_UDP;
         SignalAddressReady;
         SendAllocateRequest s2 kKeepAliveDelay]) ∧
    ready_ (w_port w) = true ∧
    entries_ (w_port w) =
      [mkRelayEntry SocketAddress_nil 1 true false
         (Some (mkRelayConnection s2 (mkProtocolAddress udp_addr PROTO_UDP)))] ∧
    w_posted w = [].
Proof.
  intros Hcookie Hmapped. eexists. split.
  - cbn [run step World_new RelayPort_new w_port w_posted].
    repeat first
      [ progress cbn -[RelayEntry_OnReadPacket]
      | rewrite bool_decide_eq_true_2 by done
      | rewrite bool_decide_eq_false_2 by done
      | progress unfold RelayPort_AddServerAddress, RelayPort_PrepareAddress,
          RelayEntry_Connect, RelayEntry_OnMessage, RelayEntry_HandleConnectFailure,
          on_entry ].
    rewrite (OnReadPacket_response _ _ (mkRelayConnection s2 _) s2 data response) by done.
    unfold AllocateRequest_OnResponse. rewrite Hmapped. cbn. reflexivity.
  - by cbn.
Qed.

Ltac run_simpl :=
  repeat first
    [ progress cbn -[RelayEntry_OnReadPacket int_of_size]
    | rewrite bool_decide_eq_true_2 by done
    | rewrite bool_decide_eq_false_2 by done
    | progress unfold RelayPort_AddServerAddress, RelayPort_PrepareAddress,
        RelayEntry_Connect, RelayEntry_OnMessage, RelayEntry_HandleConnectFailure,
        AllocateRequest_OnTimeout, RelayEntry_OnSocketClose, on_entry,
        RelayPort_SendTo, SendTo_create, SendTo_select, RelayEntry_SendTo,
        RelayEntry_SendPacket, RelayConnection_Send, SendTo_request, IsNil ].

(** X17: a port whose only server cannot be reached.  On a new port with
    one UDP server, PrepareAddress queues the Allocate request; when that
    request times out the connect failure is signalled for the server and
    server_index moves to 1, where there is no server: nothing is disposed
    of, opened or posted, and the entry keeps its connection and stays
    unconnected.  A send then returns SOCKET_ERROR, writes nothing and
    leaves EWOULDBLOCK as the port's error; a payload send still hands its
    destination to the entry. *)
Theorem send_after_exhaustion proxy username server socket factory factory' data addr payload
    sent GetError :
  proto server = PROTO_UDP →
  ∃ w,
    run (World_new proxy username)
      [CallAddServerAddress server;
       CallPrepareAddress (Some socket);
       AllocateTimeout 0 socket factory]
    = Some (w, [SendAllocateRequest socket 0; SignalConnectFailure server]) ∧
    entries_ (w_port w) =
      [mkRelayEntry SocketAddress_nil 1 false false (Some (mkRelayConnection socket server))] ∧
    w_posted w = [] ∧
    ∃ p1,
      RelayPort_SendTo (w_port w) data addr payload factory' sent GetError
        = Some (SOCKET_ERROR, p1, []) ∧
      error_ p1 = EWOULDBLOCK ∧
      entries_ p1 =
        [mkRelayEntry (if payload then addr else SocketAddress_nil) 1 false false
           (Some (mkRelayConnection socket server))].
Proof.
  intros Hudp. destruct server as [saddr sproto]. cbn in Hudp. subst sproto.
  eexists. split; [|split_and!].
  - cbn [run step World_new RelayPort_new w_port w_posted]. run_simpl. reflexivity.
  - done.
  - done.
  - destruct payload.
    + eexists. split; [run_simpl; reflexivity|]. by split.
    + destruct (decide (SocketAddress_nil = addr)) as [<-|Hne];
        (eexists; split; [run_simpl; reflexivity|]; by split).
Qed.

(** X18: how an entry gets locked to its destination, and what the lock
    changes.  Take a port whose one entry is connected, not locked and has
    no destination.  A first payload send to D hands D to the entry and
    goes out as a SEND request that carries the cookie, the username, D,
    OPTIONS 0x1 and the payload.  When the server answers with a SEND
    response that has OPTIONS bit 0, the entry is locked.  The next send to
    D is written as the bare payload, and a packet without the cookie that
    comes in on the socket is handed to the port as coming from D over
    UDP. *)
Theorem lock_acquisition proxy username servers external index c options ready error posted
    D payload1 payload2 factory1 factory2 sent1 sent2 GetError1 GetError2
    framed grant raw parsed check :
  0 < sent1 → 0 < sent2 →
  HasMagicCookie framed = true →
  grants_lock grant = true →
  HasMagicCookie raw = false →
  ∃ w,
    run (mkWorld
           (mkRelayPort proxy username servers external
              [mkRelayEntry SocketAddress_nil index true false (Some c)] options ready error)
           posted)
      [CallSendTo payload1 D true factory1 sent1 GetError1;
       ReadPacket 0 (socket_ c) framed (Some grant) NoTransaction;
       CallSendTo payload2 D true factory2 sent2 GetError2;
       ReadPacket 0 (socket_ c) raw parsed check]
    = Some (w,
        [SocketSendTo (socket_ c)
           (Encoded (mkStunMessage STUN_SEND_REQUEST
              [StunByteStringAttribute STUN_ATTR_MAGIC_COOKIE TURN_MAGIC_COOKIE_VALUE;
               StunByteStringAttribute STUN_ATTR_USERNAME username;
               StunAddressAttribute STUN_ATTR_DESTINATION_ADDRESS 1 (ipaddr D) (port D);
               StunUInt32Attribute STUN_ATTR_OPTIONS 1;
               StunByteStringAttribute STUN_ATTR_DATA payload1]))
           (address (protocol_address_ c));
         SocketSendTo (socket_ c) (Raw payload2) (address (protocol_address_ c));
         PortOnReadPacket raw D PROTO_UDP]) ∧
    entries_ (w_port w) = [mkRelayEntry D index true true (Some c)].
Proof.
  intros Hsent1 Hsent2 Hframed Hgrant Hraw.
  apply andb_true_iff in Hgrant as [Htype%bool_decide_eq_true Hbit].
  destruct (GetUInt32 grant STUN_ATTR_OPTIONS) as [value|] eqn:Hopt; [|done].
  assert ((sent1 <=? 0) = false) as Hle1 by lia.
  assert ((sent2 <=? 0) = false) as Hle2 by lia.
  assert (∀ p e, current_connection_ e = Some c →
            RelayEntry_OnReadPacket p e (socket_ c) framed (Some grant) NoTransaction
              = (p, set_locked true e, [])) as Hlock.
  { intros p e Hc. unfold RelayEntry_OnReadPacket.
    by rewrite Hc, bool_decide_eq_true_2, Hframed, bool_decide_eq_true_2, Hopt, Hbit. }
  assert (∀ p e, current_connection_ e = Some c → locked_ e = true →
            RelayEntry_OnReadPacket p e (socket_ c) raw parsed check
              = (p, e, [PortOnReadPacket raw (ext_addr_ e) PROTO_UDP])) as Hin.
  { intros p e Hc Hl. unfold RelayEntry_OnReadPacket.
    by rewrite Hc, bool_decide_eq_true_2, Hraw, Hl. }
  destruct (decide (D = SocketAddress_nil)) as [->|Hne];
    (eexists; split;
     [cbn [run step w_port w_posted]; run_simpl; rewrite Hle1; run_simpl;
      rewrite Hlock by done; run_simpl; rewrite Hle2; run_simpl;
      rewrite Hin by done; run_simpl; reflexivity
     |done]).
Qed.

(** ** The error of the port *)

Lemma OnReadPacket_error p e socket data parsed check :
  error_ (RelayEntry_OnReadPacket p e socket data parsed check).1.1 = error_ p.
Proof.
  destruct (OnReadPacket_cases p e socket data parsed check)
    as [[-> _]|(mapped_addr & -> & _)]; [done|].
  unfold RelayEntry_OnConnect, RelayPort_SetReady, RelayPort_AddExternalAddress.
  destruct (existsb _ (external_addr_ p)); cbn; by destruct (ready_ p).
Qed.

(** X19: what RelayPort::GetError reports.  The port's error is written
    only by a SendTo that returns SOCKET_ERROR and by SetOption: a SendTo
    that returns anything else leaves it as it was, and so does every other
    call, timer message, socket signal, packet and request timeout.  So an
    error, once stored, is still reported after later sends succeed. *)
Theorem error_kept_until_next_failure :
  (∀ p data addr payload factory sent GetError r p1 eff,
     RelayPort_SendTo p data addr payload factory sent GetError = Some (r, p1, eff) →
     r ≠ SOCKET_ERROR →
     RelayPort_GetError p1 = RelayPort_GetError p) ∧
  (∀ w ev w1 eff,
     step w ev = Some (w1, eff) →
     is_send_call ev = false → is_option_call ev = false →
     RelayPort_GetError (w_port w1) = RelayPort_GetError (w_port w)).
Proof.
  unfold RelayPort_GetError. split.
  - intros p data addr payload factory sent GetError r p1 eff Hsend Hr.
    destruct (SendTo_search p addr payload factory)
      as (entry & p2 & eff2 & Hsearch & Hp2 & _).
    unfold RelayPort_SendTo in Hsend.
    destruct (SendTo_find (entries_ p) addr payload) as [found entries1].
    rewrite Hsearch in Hsend.
    destruct (SendTo_select p2 entry) as [[[]|e]|]; [| |done].
    + by injection Hsend as <- _ _.
    + destruct (RelayEntry_SendTo p2 e data addr sent) as [sent1 eff3].
      destruct (sent1 <=? 0).
      * destruct (sent1 <? 0); [|done]. by injection Hsend as <- _ _.
      * injection Hsend as _ <- _. by rewrite Hp2.
  - intros w ev w1 eff Hstep Hsend Hopt.
    destruct ev as [addr|addr|factory|data addr payload factory sent GetError
                   |opt value SetOption GetError|i factory|i socket|i socket error factory
                   |i socket data parsed check|i socket factory]; try done;
      cbn [step] in Hstep.
    + injection Hstep as <- _. cbn. unfold RelayPort_AddServerAddress. by destruct (_ && _).
    + injection Hstep as <- _. cbn. unfold RelayPort_AddExternalAddress.
      by destruct (existsb _ _).
    + unfold RelayPort_PrepareAddress in Hstep.
      destruct (entries_ (w_port w)) as [|e [|]]; [done| |done].
      destruct (RelayEntry_Connect (w_port w) e factory) as [e1 eff1].
      by injection Hstep as <- _.
    + destruct (take_message i (w_posted w)) as [posted|]; [|done]. cbn in Hstep.
      apply on_entry_Some in Hstep as (e & p1 & e1 & _ & Hm & ->). cbn in *.
      destruct (RelayEntry_OnMessage (w_port w) e factory) as [e2 eff2].
      by injection Hm as <- _ _.
    + apply on_entry_Some in Hstep as (e & p1 & e1 & _ & Hm & ->). cbn in *.
      by injection Hm as <- _ _.
    + apply on_entry_Some in Hstep as (e & p1 & e1 & _ & Hm & ->). cbn in *.
      destruct (RelayEntry_OnSocketClose (w_port w) e socket error factory) as [e2 eff2].
      by injection Hm as <- _ _.
    + apply on_entry_Some in Hstep as (e & p1 & e1 & _ & Hm & ->). cbn.
      pose proof (OnReadPacket_error (w_port w) e socket data parsed check) as Herr.
      by rewrite Hm in Herr.
    + apply on_entry_Some in Hstep as (e & p1 & e1 & _ & Hm & ->). cbn in *.
      destruct (AllocateRequest_OnTimeout (w_port w) e socket factory) as [e2 eff2].
      by injection Hm as <- _ _.
Qed.

End RelayPort.

(** * The properties at concrete inputs *)

(** The message loop with the sample constants, from a new port. *)
Local Abbreviation sample_run :=
  (run sample_cookie sample_EWOULDBLOCK sample_SOCKET_ERROR).
Local Abbreviation sample_guarded :=
  (grants_guarded sample_cookie sample_EWOULDBLOCK sample_SOCKET_ERROR).
Local Abbreviation sample_new := (World_new PROXY_NONE []).

(** C1 at a locked entry and a 27-byte packet without the cookie. *)
Lemma OnReadPacket_no_cookie_witness :
  current_connection_ sample_locked_entry = Some sample_connection ∧
  1%nat = socket_ sample_connection ∧
  ¬ cookie_at_offset_24 sample_cookie sample_short ∧
  (locked_ sample_locked_entry = true →
     RelayEntry_OnReadPacket sample_cookie (sample_port [sample_locked_entry])
       sample_locked_entry 1%nat sample_short None NoTransaction =
       (sample_port [sample_locked_entry], sample_locked_entry,
        [PortOnReadPacket sample_short (ext_addr_ sample_locked_entry) PROTO_UDP])) ∧
  (locked_ sample_locked_entry = false →
     RelayEntry_OnReadPacket sample_cookie (sample_port [sample_locked_entry])
       sample_locked_entry 1%nat sample_short None NoTransaction =
       (sample_port [sample_locked_entry], sample_locked_entry, [])).
Proof.
  assert (¬ cookie_at_offset_24 sample_cookie sample_short) as Hcookie.
  { apply HasMagicCookie_false. reflexivity. }
  split; [reflexivity|]. split; [reflexivity|]. split; [exact Hcookie|].
  apply (OnReadPacket_no_cookie sample_cookie (sample_port [sample_locked_entry])
           sample_locked_entry sample_connection 1%nat sample_short None NoTransaction);
    [reflexivity | reflexivity | exact Hcookie].
Defined.

(** C10 at a 27-byte packet and the four-byte cookie. *)
Lemma OnReadPacket_short_packet_witness :
  current_connection_ sample_connected_entry = Some sample_connection ∧
  1%nat = socket_ sample_connection ∧
  (length sample_short < 24 + length sample_cookie)%nat ∧
  HasMagicCookie sample_cookie sample_short = false ∧
  (length sample_cookie = 4%nat → (24 + length sample_cookie = 28)%nat) ∧
  ∀ parsed check,
    RelayEntry_OnReadPacket sample_cookie (sample_port [sample_connected_entry])
      sample_connected_entry 1%nat sample_short parsed check =
      (sample_port [sample_connected_entry], sample_connected_entry,
       if locked_ sample_connected_entry
       then [PortOnReadPacket sample_short (ext_addr_ sample_connected_entry) PROTO_UDP]
       else []).
Proof.
  split; [reflexivity|]. split; [reflexivity|]. split; [vm_compute; lia|].
  apply (OnReadPacket_short_packet sample_cookie (sample_port [sample_connected_entry])
           sample_connected_entry sample_connection 1%nat sample_short);
    [reflexivity | reflexivity | vm_compute; lia].
Defined.

(** C2 at an entry that is connected and not locked, sending to its own
    ext_addr. *)
Lemma SendTo_options_iff_witness :
  current_connection_ sample_connected_entry = Some sample_connection ∧
  (locked_ sample_connected_entry = true ∧ ext_addr_ sample_connected_entry = sample_peer →
     RelayEntry_SendTo sample_cookie (sample_port []) sample_connected_entry [x01]
         sample_peer 40 =
       (40, [SocketSendTo (socket_ sample_connection) (Raw [x01])
               (address (protocol_address_ sample_connection))])) ∧
  (¬ (locked_ sample_connected_entry = true ∧ ext_addr_ sample_connected_entry = sample_peer) →
     ∃ request,
       RelayEntry_SendTo sample_cookie (sample_port []) sample_connected_entry [x01]
         sample_peer 40 =
         (40, [SocketSendTo (socket_ sample_connection) (Encoded request)
                 (address (protocol_address_ sample_connection))]) ∧
       type request = STUN_SEND_REQUEST ∧
       (StunUInt32Attribute STUN_ATTR_OPTIONS 1 ∈ attrs request
          ↔ sample_peer = ext_addr_ sample_connected_entry) ∧
       (∀ a, a ∈ attrs request → attr_type a = STUN_ATTR_OPTIONS →
             a = StunUInt32Attribute STUN_ATTR_OPTIONS 1)).
Proof.
  split; [reflexivity|].
  apply (SendTo_options_iff sample_cookie (sample_port []) sample_connected_entry
           sample_connection [x01] sample_peer 40).
  reflexivity.
Defined.

(** C8 at an Allocate response with an IPv4 mapped address. *)
Lemma OnResponse_connect_and_keep_alive_witness :
  current_connection_ sample_pending_entry = Some sample_connection2 ∧
  2%nat = socket_ sample_connection2 ∧
  cookie_at_offset_24 sample_cookie sample_framed ∧
  ∃ p1 e1 eff,
    RelayEntry_OnReadPacket sample_cookie (sample_port [sample_pending_entry])
      sample_pending_entry 2%nat sample_framed (Some sample_allocate_response) FiresOnResponse =
      AllocateRequest_OnResponse (sample_port [sample_pending_entry]) sample_pending_entry
        sample_allocate_response ∧
    AllocateRequest_OnResponse (sample_port [sample_pending_entry]) sample_pending_entry
      sample_allocate_response =
      (p1, e1, eff ++ [SendAllocateRequest (socket_ sample_connection2) 600000]) ∧
    (p1, e1, eff) =
      match GetAddress sample_allocate_response STUN_ATTR_MAPPED_ADDRESS with
      | Some (family, ip, prt) =>
        if bool_decide (family = 1)
        then RelayEntry_OnConnect (sample_port [sample_pending_entry]) sample_pending_entry
               (mkSocketAddress ip prt)
        else (sample_port [sample_pending_entry], sample_pending_entry, [])
      | None => (sample_port [sample_pending_entry], sample_pending_entry, [])
      end ∧
    (eff ≠ [] ↔
     ∃ ip prt, GetAddress sample_allocate_response STUN_ATTR_MAPPED_ADDRESS = Some (1, ip, prt)).
Proof.
  assert (cookie_at_offset_24 sample_cookie sample_framed) as Hcookie.
  { apply HasMagicCookie_true. reflexivity. }
  split; [reflexivity|]. split; [reflexivity|]. split; [exact Hcookie|].
  apply (OnResponse_connect_and_keep_alive sample_cookie (sample_port [sample_pending_entry])
           sample_pending_entry sample_connection2 2%nat sample_framed sample_allocate_response);
    [reflexivity | reflexivity | exact Hcookie].
Defined.

(** C9 at an error response 250 ms after the request started. *)
Lemma OnErrorResponse_retry_window_witness :
  current_connection_ sample_pending_entry = Some sample_connection2 ∧
  2%nat = socket_ sample_connection2 ∧
  cookie_at_offset_24 sample_cookie sample_framed ∧
  RelayEntry_OnReadPacket sample_cookie (sample_port [sample_pending_entry])
    sample_pending_entry 2%nat sample_framed (Some sample_allocate_error)
    (FiresOnErrorResponse 250) =
    (sample_port [sample_pending_entry], sample_pending_entry,
     AllocateRequest_OnErrorResponse sample_pending_entry sample_allocate_error 250) ∧
  AllocateRequest_OnErrorResponse sample_pending_entry sample_allocate_error 250 =
    (if bool_decide (250 ≤ 50000)
     then [SendAllocateRequest (socket_ sample_connection2) kKeepAliveDelay] else []) ∧
  (SendAllocateRequest (socket_ sample_connection2) kKeepAliveDelay
     ∈ AllocateRequest_OnErrorResponse sample_pending_entry sample_allocate_error 250
   ↔ 250 ≤ 50000).
Proof.
  assert (cookie_at_offset_24 sample_cookie sample_framed) as Hcookie.
  { apply HasMagicCookie_true. reflexivity. }
  split; [reflexivity|]. split; [reflexivity|]. split; [exact Hcookie|].
  apply (OnErrorResponse_retry_window sample_cookie (sample_port [sample_pending_entry])
           sample_pending_entry sample_connection2 2%nat sample_framed sample_allocate_error 250);
    [reflexivity | reflexivity | exact Hcookie].
Defined.

(** C7 as stated fails on a port with two entries whose sockets both refuse
    the option: the first entry that fails reports error 5, the second
    reports 7, and the port keeps 7. *)
Lemma SetOption_first_error_counterexample :
  ∃ w trace,
    sample_run sample_new sample_two_entries = Some (w, trace) ∧
    List.find (fails_option 3 1 sample_SetOption) (entries_ (w_port w)) =
      Some (mkRelayEntry sample_peer 0 false false (Some sample_connection)) ∧
    RelayEntry_GetError (mkRelayEntry sample_peer 0 false false (Some sample_connection))
      sample_GetError = 5 ∧
    error_ (RelayPort_SetOption (w_port w) 3 1 sample_SetOption sample_GetError).1.2 = 7 ∧
    ¬ SetOption_keeps_first_error (w_port w) 3 1 sample_SetOption sample_GetError.
Proof.
  eexists _, _. split; [reflexivity|]. split; [reflexivity|].
  split; [reflexivity|]. split; [reflexivity|].
  intros Hclaim.
  specialize (Hclaim (mkRelayEntry sample_peer 0 false false (Some sample_connection)) eq_refl).
  vm_compute in Hclaim. discriminate Hclaim.
Qed.

(** C4 at a port whose second entry is the one for the address and is not
    connected: the data goes out on the first entry's socket and the call
    returns the one byte it was given. *)
Lemma SendTo_fallback_and_result_witness :
  entries_ (sample_port [sample_connected_entry; sample_pending_entry]) =
    sample_connected_entry :: [sample_pending_entry] ∧
  ∃ p1 eff pkt,
    List.filter is_send eff =
      [SocketSendTo (socket_ sample_connection) pkt
         (address (protocol_address_ sample_connection))] ∧
    RelayPort_SendTo sample_cookie sample_EWOULDBLOCK sample_SOCKET_ERROR
      (sample_port [sample_connected_entry; sample_pending_entry])
      [x01] sample_peer2 true None 40 sample_GetError = Some (1, p1, eff).
Proof.
  split; [reflexivity|].
  destruct (SendTo_fallback_and_result sample_cookie sample_EWOULDBLOCK sample_SOCKET_ERROR
              (sample_port [sample_connected_entry; sample_pending_entry])
              sample_connected_entry [sample_pending_entry]
              [x01] sample_peer2 true None 40 sample_GetError eq_refl) as [Hfallback _].
  destruct (Hfallback eq_refl) as [_ Hfirst].
  destruct (Hfirst eq_refl sample_connection eq_refl) as (p1 & eff & pkt & Hsend & Hok & _).
  exists p1, eff, pkt. split; [exact Hsend|]. apply Hok. reflexivity.
Defined.

(** C6 as stated fails: a SEND response with OPTIONS bit 0, read on the
    socket of the primary entry before its Allocate request is answered,
    locks an entry that is not connected and has no ext_addr. *)
Lemma entry_invariant_counterexample :
  ∃ w trace e,
    sample_run sample_new sample_early_lock = Some (w, trace) ∧
    entries_ (w_port w) !! 0%nat = Some e ∧
    locked_ e = true ∧ connected_ e = false ∧ ext_addr_ e = SocketAddress_nil ∧
    ¬ entry_invariant e.
Proof.
  eexists _, _, _. split; [reflexivity|]. split; [reflexivity|].
  split; [reflexivity|]. split; [reflexivity|]. split; [reflexivity|].
  intros (Hlocked & _). specialize (Hlocked eq_refl). discriminate Hlocked.
Qed.

Lemma sample_lock_acquisition_guarded :
  sample_guarded sample_new sample_lock_acquisition.
Proof.
  vm_compute. split_and!; try done; intros i e Hgrant Hi; try (by destruct Hgrant).
  destruct Hgrant as [<- _]. injection Hi as <-. by split.
Qed.

(** C6 (amended) at the run that allocates, asks for the lock and is
    granted it. *)
Lemma entry_invariant_reachable_witness :
  ∃ w trace e,
    sample_run sample_new sample_lock_acquisition = Some (w, trace) ∧
    entries_ (w_port w) !! 0%nat = Some e ∧
    locked_ e = true ∧
    sample_guarded sample_new sample_lock_acquisition ∧
    (connected_ e = true → current_connection_ e ≠ None) ∧
    (sample_guarded sample_new sample_lock_acquisition → entry_invariant e).
Proof.
  eexists _, _, _. split; [reflexivity|]. split; [reflexivity|]. split; [reflexivity|].
  split; [exact sample_lock_acquisition_guarded|].
  eapply (entry_invariant_reachable sample_cookie sample_EWOULDBLOCK sample_SOCKET_ERROR
            PROXY_NONE [] sample_lock_acquisition) with (i := 0%nat); reflexivity.
Defined.

(** C5 at the run that allocates and then sends twice: PrepareAddress is
    called once and the candidate is published once. *)
Lemma address_ready_once_witness :
  ∃ w trace,
    sample_run sample_new sample_lock_acquisition = Some (w, trace) ∧
    length (List.filter is_prepare sample_lock_acquisition) = 1%nat ∧
    List.filter is_ready_effect trace = published [mkProtocolAddress sample_mapped PROTO_UDP] ∧
    (length (List.filter is_address_ready trace) ≤ 1)%nat ∧
    (quiet trace ∨
     ∃ before addrs after,
       trace = before ++ published addrs ++ after ∧ quiet before ∧ quiet after) ∧
    (∀ p, ready_ p = true → RelayPort_SetReady p = (p, [])).
Proof.
  eexists _, _. split; [reflexivity|]. split; [reflexivity|]. split; [reflexivity|].
  eapply (address_ready_once sample_cookie sample_EWOULDBLOCK sample_SOCKET_ERROR
            PROXY_NONE [] sample_lock_acquisition); reflexivity.
Defined.

(** The hypothesis of C5 is needed: a second PrepareAddress clears the ready
    flag, and the next Allocate response signals ready again. *)
Example address_ready_twice_when_prepared_twice :
  ∃ w trace,
    sample_run sample_new sample_prepared_twice = Some (w, trace) ∧
    length (List.filter is_prepare sample_prepared_twice) = 2%nat ∧
    length (List.filter is_address_ready trace) = 2%nat.
Proof. eexists _, _. split; [reflexivity|]. split; reflexivity. Qed.
(** X4 at [sample_two_servers]: the option set before and the new one
    reach the socket the entry opens. *)
Lemma SetOption_reaches_new_socket_witness :
  socket_options 7%nat
    (RelayEntry_Connect
       (RelayPort_SetOption (sample_two_servers [RelayEntry_new SocketAddress_nil]) 4 1
          sample_SetOption sample_GetError).1.2
       (RelayEntry_new SocketAddress_nil) (Some 7%nat)).2
  = [(1, 0); (4, 1)].
Proof.
  apply (SetOption_reaches_new_socket (sample_two_servers [RelayEntry_new SocketAddress_nil])
           (RelayEntry_new SocketAddress_nil) sample_tcp_server 7%nat 4 1
           sample_SetOption sample_GetError); reflexivity.
Defined.

(** X5 at an entry that waits on its TCP socket when the timer fires: it
    moves on to [sample_server] on socket 2. *)
Lemma OnMessage_keeps_or_moves_witness :
  server_index_
    (RelayEntry_OnMessage (sample_two_servers [sample_tcp_entry]) sample_tcp_entry
       (Some 2%nat)).1 = 1%nat ∧
  Dispose 1%nat ∈
    (RelayEntry_OnMessage (sample_two_servers [sample_tcp_entry]) sample_tcp_entry
       (Some 2%nat)).2 ∧
  current_connection_
    (RelayEntry_OnMessage (sample_two_servers [sample_tcp_entry]) sample_tcp_entry
       (Some 2%nat)).1 = Some (mkRelayConnection 2%nat sample_server).
Proof.
  destruct (OnMessage_keeps_or_moves (sample_two_servers [sample_tcp_entry]) sample_tcp_entry
              (mkRelayConnection 1%nat sample_tcp_server) (Some 2%nat) eq_refl)
    as (Hindex & _ & _ & Hmoves).
  destruct (Hmoves sample_server eq_refl eq_refl) as [Hdispose Hconn].
  split; [exact Hindex|]. split; [exact Hdispose|exact Hconn].
Defined.

(** X6 at an entry whose connection is on socket 2, for signals of
    socket 1. *)
Lemma stale_socket_ignored_witness :
  (step sample_cookie sample_EWOULDBLOCK sample_SOCKET_ERROR) (mkWorld (sample_port [sample_pending_entry]) [])
    (SocketClose 0 1%nat 104 (Some 3%nat))
    = Some (mkWorld (sample_port [sample_pending_entry]) [], []) ∧
  (step sample_cookie sample_EWOULDBLOCK sample_SOCKET_ERROR) (mkWorld (sample_port [sample_pending_entry]) [])
    (AllocateTimeout 0 1%nat (Some 3%nat))
    = Some (mkWorld (sample_port [sample_pending_entry]) [], []) ∧
  (step sample_cookie sample_EWOULDBLOCK sample_SOCKET_ERROR) (mkWorld (sample_port [sample_pending_entry]) [])
    (ReadPacket 0 1%nat sample_framed (Some sample_allocate_response) FiresOnResponse)
    = Some (mkWorld (sample_port [sample_pending_entry]) [], []).
Proof.
  assert (stale_socket sample_pending_entry 1%nat) as Hstale.
  { intros c Hc. injection Hc as <-. cbn. lia. }
  destruct (stale_socket_ignored sample_cookie sample_EWOULDBLOCK sample_SOCKET_ERROR
              (mkWorld (sample_port [sample_pending_entry]) []) 0%nat sample_pending_entry
              1%nat eq_refl Hstale) as (Hclose & Htimeout & Hpacket).
  split; [apply Hclose|]. split; [apply Htimeout|apply Hpacket].
Defined.

(** X7 at a DATA indication read by an entry that is not locked. *)
Lemma OnReadPacket_unmatched_witness :
  (RelayEntry_OnReadPacket sample_cookie (sample_port [sample_connected_entry])
     sample_connected_entry 1%nat sample_framed (Some sample_data_indication)
     NoTransaction).2
  = [PortOnReadPacket [x01; x02] sample_peer PROTO_UDP].
Proof.
  destruct (OnReadPacket_unmatched sample_cookie (sample_port [sample_connected_entry])
              sample_connected_entry sample_connection 1%nat sample_framed
              sample_data_indication eq_refl eq_refl eq_refl) as (_ & _ & Hdata & _).
  exact (Hdata [x01; x02] 3405803785 5000 eq_refl eq_refl eq_refl).
Defined.

(** X8 at a payload send to a second destination: the port gets a second
    entry for it. *)
Lemma SendTo_binds_destination_witness :
  ∃ r p1 eff,
    RelayPort_SendTo sample_cookie sample_EWOULDBLOCK sample_SOCKET_ERROR
      (sample_port [sample_connected_entry]) [x01] sample_peer2 true (Some 2%nat) 1 (λ _, 0)
      = Some (r, p1, eff) ∧
    (∃ i e, entries_ p1 !! i = Some e ∧ ext_addr_ e = sample_peer2) ∧
    length (entries_ p1) = 2%nat.
Proof.
  eexists _, _, _. split; [vm_compute; reflexivity|].
  destruct (SendTo_binds_destination sample_cookie sample_EWOULDBLOCK sample_SOCKET_ERROR
              (sample_port [sample_connected_entry]) [x01] sample_peer2 true (Some 2%nat) 1
              (λ _, 0) _ _ _ eq_refl) as (Hbound & _).
  split; [exact (Hbound eq_refl)|reflexivity].
Defined.

(** X9 at a connected and locked entry whose socket closes and whose
    request times out. *)
Lemma entry_never_goes_back_witness :
  ∃ w1 trace,
    sample_run (mkWorld (sample_port [sample_locked_entry]) []) sample_failures
      = Some (w1, trace) ∧
    ∃ e1, entries_ (w_port w1) !! 0%nat = Some e1 ∧
          connected_ e1 = true ∧ current_connection_ e1 = Some sample_connection ∧
          locked_ e1 = true ∧ ext_addr_ e1 = sample_peer.
Proof.
  eexists _, _. split; [vm_compute; reflexivity|].
  destruct (entry_never_goes_back sample_cookie sample_EWOULDBLOCK sample_SOCKET_ERROR
              sample_failures (mkWorld (sample_port [sample_locked_entry]) []) _ _ 0%nat
              sample_locked_entry eq_refl eq_refl)
    as (e1 & Hi & _ & Hconn & Hlock & Haddr).
  exists e1. split; [exact Hi|].
  destruct (Hconn eq_refl) as [Hc Hcc].
  split; [exact Hc|]. split; [exact Hcc|]. split; [exact (Hlock eq_refl)|].
  apply Haddr. vm_compute. intros H. discriminate H.
Defined.

(** X10 over the same events: the external address that is re-added does
    not appear twice. *)
Lemma external_addr_grows_without_duplicates_witness :
  ∃ w1 trace,
    sample_run
      (mkWorld (set_external_addr [mkProtocolAddress sample_mapped PROTO_UDP]
                  (sample_port [sample_locked_entry])) [])
      sample_failures = Some (w1, trace) ∧
    [mkProtocolAddress sample_mapped PROTO_UDP] `prefix_of` external_addr_ (w_port w1) ∧
    NoDup (external_addr_ (w_port w1)).
Proof.
  eexists _, _. split; [vm_compute; reflexivity|].
  destruct (external_addr_grows_without_duplicates sample_cookie sample_EWOULDBLOCK
              sample_SOCKET_ERROR sample_failures
              (mkWorld (set_external_addr [mkProtocolAddress sample_mapped PROTO_UDP]
                          (sample_port [sample_locked_entry])) []) _ _ eq_refl)
    as [Hprefix Hnodup].
  split; [exact Hprefix|]. apply Hnodup. apply NoDup_singleton.
Defined.

(** X11, X12 and X13 at the run that allocates and then sends to two
    destinations. *)
Lemma ready_needs_connected_entry_witness :
  ∃ w trace,
    sample_run sample_new sample_second_destination = Some (w, trace) ∧
    (ready_ (w_port w) = true →
       ∃ i e, entries_ (w_port w) !! i = Some e ∧ connected_ e = true) ∧
    (∀ i e, entries_ (w_port w) !! i = Some e → connected_ e = true →
            external_addr_ (w_port w) ≠ []) ∧
    (ready_ (w_port w) = true → external_addr_ (w_port w) ≠ []).
Proof.
  eexists _, _. split; [vm_compute; reflexivity|].
  eapply (ready_needs_connected_entry sample_cookie sample_EWOULDBLOCK sample_SOCKET_ERROR
            PROXY_NONE [] sample_second_destination).
  vm_compute; reflexivity.
Defined.

Lemma SendTo_assertions_hold_witness :
  ∃ w trace,
    sample_run sample_new sample_second_destination = Some (w, trace) ∧
    ∃ r p1 eff,
      RelayPort_SendTo sample_cookie sample_EWOULDBLOCK sample_SOCKET_ERROR (w_port w)
        [x01; x02] sample_mapped true None 2 (λ _, 0) = Some (r, p1, eff) ∧
      (r = sample_SOCKET_ERROR ∨ (0 < 2 ∧ r = int_of_size 2)).
Proof.
  eexists _, _. split; [vm_compute; reflexivity|].
  eapply (SendTo_assertions_hold sample_cookie sample_EWOULDBLOCK sample_SOCKET_ERROR
            PROXY_NONE [] sample_second_destination).
  - vm_compute; reflexivity.
  - lia.
Defined.

Lemma one_entry_for_each_destination_witness :
  ∃ w trace,
    sample_run sample_new sample_second_destination = Some (w, trace) ∧
    (∀ i j e e', entries_ (w_port w) !! i = Some e → entries_ (w_port w) !! j = Some e' →
                 ext_addr_ e = ext_addr_ e' → i = j) ∧
    (∀ i e, entries_ (w_port w) !! i = Some e → ext_addr_ e = SocketAddress_nil →
            S i = length (entries_ (w_port w))).
Proof.
  eexists _, _. split; [vm_compute; reflexivity|].
  eapply (one_entry_for_each_destination sample_cookie sample_EWOULDBLOCK sample_SOCKET_ERROR
            PROXY_NONE [] sample_second_destination).
  vm_compute; reflexivity.
Defined.

(** X14 at a new entry of [sample_two_servers], whose first server is
    TCP. *)
Lemma Connect_starts_allocation_witness :
  list.last
    (RelayEntry_Connect (sample_two_servers [RelayEntry_new SocketAddress_nil])
       (RelayEntry_new SocketAddress_nil) (Some 7%nat)).2
    = Some (PostDelayed kSoftConnectTimeoutMs kMessageConnectTimeout) ∧
  RelayEntry_OnSocketConnect
    (RelayEntry_Connect (sample_two_servers [RelayEntry_new SocketAddress_nil])
       (RelayEntry_new SocketAddress_nil) (Some 7%nat)).1 7%nat
    = [SendAllocateRequest 7%nat 0].
Proof.
  destruct (Connect_starts_allocation (sample_two_servers [RelayEntry_new SocketAddress_nil])
              (RelayEntry_new SocketAddress_nil) sample_tcp_server 7%nat eq_refl eq_refl)
    as (_ & Htcp & Hconnect).
  split; [|apply Hconnect].
  apply Htcp. vm_compute. intros H. discriminate H.
Defined.

(** X15 at [sample_server] and [sample_allocate_response]. *)
Lemma allocation_over_udp_witness :
  ∃ w,
    sample_run sample_new
      [CallAddServerAddress sample_server;
       CallPrepareAddress (Some 1%nat);
       ReadPacket 0 1%nat sample_framed (Some sample_allocate_response) FiresOnResponse]
    = Some (w,
        [SendAllocateRequest 1%nat 0;
         set_related_address sample_mapped;
         AddAddress sample_mapped PROTO_UDP;
         SignalAddressReady;
         SendAllocateRequest 1%nat kKeepAliveDelay]) ∧
    ready_ (w_port w) = true.
Proof.
  destruct (allocation_over_udp sample_cookie sample_EWOULDBLOCK sample_SOCKET_ERROR
              PROXY_NONE [] sample_server 1%nat sample_framed sample_allocate_response
              3325256711 40000 eq_refl eq_refl eq_refl) as (w & Hrun & Hready & _).
  exists w. split; [exact Hrun|exact Hready].
Defined.

(** X16 at [sample_tcp_server] and [sample_server]. *)
Lemma failover_from_tcp_to_udp_witness :
  ∃ w,
    sample_run sample_new
      [CallAddServerAddress sample_tcp_server;
       CallAddServerAddress sample_server;
       CallPrepareAddress (Some 1%nat);
       TimerMessage 0 (Some 2%nat);
       ReadPacket 0 2%nat sample_framed (Some sample_allocate_response) FiresOnResponse]
    = Some (w,
        [PostDelayed kSoftConnectTimeoutMs kMessageConnectTimeout;
         SignalSoftTimeout sample_tcp_server;
         SignalConnectFailure sample_tcp_server;
         Dispose 1%nat;
         SendAllocateRequest 2%nat 0;
         set_related_address sample_mapped;
         AddAddress sample_mapped PROTO_UDP;
         SignalAddressReady;
         SendAllocateRequest 2%nat kKeepAliveDelay]) ∧
    ready_ (w_port w) = true.
Proof.
  destruct (failover_from_tcp_to_udp sample_cookie sample_EWOULDBLOCK sample_SOCKET_ERROR
              [] (mkSocketAddress 167772162 443) (mkSocketAddress 167772161 3478)
              1%nat 2%nat sample_framed sample_allocate_response 3325256711 40000
              eq_refl eq_refl) as (w & Hrun & Hready & _).
  exists w. split; [exact Hrun|exact Hready].
Defined.

(** X17 at [sample_server], for a payload send to [sample_peer]. *)
Lemma send_after_exhaustion_witness :
  ∃ w,
    sample_run sample_new
      [CallAddServerAddress sample_server;
       CallPrepareAddress (Some 1%nat);
       AllocateTimeout 0 1%nat (Some 2%nat)]
    = Some (w, [SendAllocateRequest 1%nat 0; SignalConnectFailure sample_server]) ∧
    ∃ p1,
      RelayPort_SendTo sample_cookie sample_EWOULDBLOCK sample_SOCKET_ERROR (w_port w)
        [x01] sample_peer true (Some 3%nat) 1 (λ _, 0)
        = Some (sample_SOCKET_ERROR, p1, []) ∧
      error_ p1 = sample_EWOULDBLOCK.
Proof.
  destruct (send_after_exhaustion sample_cookie sample_EWOULDBLOCK sample_SOCKET_ERROR
              PROXY_NONE [] sample_server 1%nat (Some 2%nat) (Some 3%nat) [x01] sample_peer
              true 1 (λ _, 0) eq_refl) as (w & Hrun & _ & _ & p1 & Hsend & Herror & _).
  exists w. split; [exact Hrun|]. exists p1. split; [exact Hsend|exact Herror].
Defined.

(** X18 at [sample_connection], [sample_peer] and [sample_send_response];
    the packet that comes in last is [sample_short]. *)
Lemma lock_acquisition_witness :
  ∃ w,
    sample_run
      (mkWorld
         (mkRelayPort PROXY_NONE [] [sample_server] []
            [mkRelayEntry SocketAddress_nil 0 true false (Some sample_connection)] [] true 0)
         [])
      [CallSendTo [x01] sample_peer true None 40 (λ _, 0);
       ReadPacket 0 1%nat sample_framed (Some sample_send_response) NoTransaction;
       CallSendTo [x02] sample_peer true None 1 (λ _, 0);
       ReadPacket 0 1%nat sample_short None NoTransaction]
    = Some (w,
        [SocketSendTo 1%nat
           (Encoded (mkStunMessage STUN_SEND_REQUEST
              [StunByteStringAttribute STUN_ATTR_MAGIC_COOKIE sample_cookie;
               StunByteStringAttribute STUN_ATTR_USERNAME [];
               StunAddressAttribute STUN_ATTR_DESTINATION_ADDRESS 1 3405803785 5000;
               StunUInt32Attribute STUN_ATTR_OPTIONS 1;
               StunByteStringAttribute STUN_ATTR_DATA [x01]]))
           (mkSocketAddress 167772161 3478);
         SocketSendTo 1%nat (Raw [x02]) (mkSocketAddress 167772161 3478);
         PortOnReadPacket sample_short sample_peer PROTO_UDP]) ∧
    entries_ (w_port w) = [mkRelayEntry sample_peer 0 true true (Some sample_connection)].
Proof.
  apply (lock_acquisition sample_cookie sample_EWOULDBLOCK sample_SOCKET_ERROR
           PROXY_NONE [] [sample_server] [] 0%nat sample_connection [] true 0 []
           sample_peer [x01] [x02] None None 40 1 (λ _, 0) (λ _, 0)
           sample_framed sample_send_response sample_short None NoTransaction).
  - lia.
  - lia.
  - reflexivity.
  - reflexivity.
  - reflexivity.
Defined.
